(** * valora-inc/log: the logging facade of [src/logging.ts]

    A shallow embedding of [createLogger], of the [_emit] interceptor it
    installs, of [createLoggingMiddleware]'s completion record and of
    [createDetailedRequestSerializers], with the properties the
    specification states about them.

    JavaScript values live in a store of objects so that aliasing between
    the caller's objects and the log record is visible; JSON text is a
    [string]; numbers are integers ([Z]) and strings are sequences of
    8-bit code units. *)

From Stdlib Require Import ZArith NArith String Ascii List Bool Lia.
From Stdlib Require Import DecimalString DecimalFacts DecimalPos DecimalN DecimalZ.
From stdpp Require Import base tactics option list.

Local Open Scope string_scope.
Local Open Scope Z_scope.

(** ** Exceptions as an error monad *)

(** [TypeError], [SyntaxError] and [RedactError] (the [Error] that
    fast-redact throws) are the exceptions of the program.
    [Unsupported] is no exception: it marks an input on which the
    embedding gives no answer (a number with a fraction, an object with
    a [toJSON] method, a write that changes a prototype, ...); no
    statement below reads it as a throw. [OutOfFuel] is what a
    function defined with fuel returns when the fuel runs out, which
    the fuel given below never lets happen. *)
Inductive error : Type :=
| TypeError (msg : string)
| SyntaxError
| RedactError
| Unsupported
| OutOfFuel.

Inductive result (A : Type) : Type :=
| Ok (a : A)
| Err (e : error).

Arguments Ok {A} a.
Arguments Err {A} e.

Definition rbind {A B : Type} (m : result A) (f : A -> result B) : result B :=
  match m with
  | Ok a => f a
  | Err e => Err e
  end.

Notation "'let*' x := m 'in' k" := (rbind m (fun x => k))
  (at level 10, x pattern, m at level 200, k at level 200).

Definition is_ok {A : Type} (m : result A) : bool :=
  match m with Ok _ => true | Err _ => false end.

(** ** JSON trees and JSON text *)

Module Json.

Unset Elimination Schemes.
Inductive json : Type :=
| JNull
| JBool (b : bool)
| JNum (n : Z)
| JStr (s : string)
| JArr (items : list json)
| JObj (members : list (string * json)).
Set Elimination Schemes.

Section json_induction.
Variable P : json -> Prop.
Hypothesis Hnull : P JNull.
Hypothesis Hbool : forall b, P (JBool b).
Hypothesis Hnum : forall n, P (JNum n).
Hypothesis Hstr : forall s, P (JStr s).
Hypothesis Harr : forall items, Forall P items -> P (JArr items).
Hypothesis Hobj : forall members, Forall (fun kv => P (snd kv)) members -> P (JObj members).

Fixpoint json_ind (j : json) : P j :=
  match j with
  | JNull => Hnull
  | JBool b => Hbool b
  | JNum n => Hnum n
  | JStr s => Hstr s
  | JArr items =>
      Harr items
        ((fix all (l : list json) : Forall P l :=
            match l with
            | [] => @List.Forall_nil _ P
            | x :: l' => @List.Forall_cons _ P x l' (json_ind x) (all l')
            end) items)
  | JObj members =>
      Hobj members
        ((fix all (l : list (string * json)) : Forall (fun kv => P (snd kv)) l :=
            match l with
            | [] => @List.Forall_nil _ _
            | kv :: l' => @List.Forall_cons _ _ kv l' (json_ind (snd kv)) (all l')
            end) members)
  end.
End json_induction.

(** *** Printing: the text [JSON.stringify] produces for a tree *)

(** The double quote, code 34. *)
Definition dquote : ascii := Ascii false true false false false true false false.

Definition hex_digit (n : N) : ascii :=
  if (n <? 10)%N then ascii_of_N (48 + n) else ascii_of_N (87 + n).

(** QuoteJSONString, one code unit at a time. *)
Definition escape_char (c : ascii) : string :=
  if Ascii.eqb c dquote then String "\" (String dquote "")
  else if Ascii.eqb c "\" then "\\"
  else if Ascii.eqb c "008" then "\b"
  else if Ascii.eqb c "012" then "\f"
  else if Ascii.eqb c "010" then "\n"
  else if Ascii.eqb c "013" then "\r"
  else if Ascii.eqb c "009" then "\t"
  else if (N_of_ascii c <? 32)%N then
    String "\" (String "u" (String "0" (String "0"
      (String (hex_digit (N_of_ascii c / 16)) (String (hex_digit (N_of_ascii c mod 16)) "")))))
  else String c "".

Fixpoint escape (s : string) : string :=
  match s with
  | "" => ""
  | String c s' => escape_char c ++ escape s'
  end.

Definition print_string (s : string) : string :=
  String dquote (escape s ++ String dquote "").

Definition print_number (n : Z) : string :=
  match n with
  | Zneg p => String "-" (NilEmpty.string_of_uint (Pos.to_uint p))
  | _ => NilEmpty.string_of_uint (N.to_uint (Z.to_N n))
  end.

Fixpoint print (j : json) : string :=
  match j with
  | JNull => "null"
  | JBool true => "true"
  | JBool false => "false"
  | JNum n => print_number n
  | JStr s => print_string s
  | JArr items =>
      let fix tail (l : list json) : string :=
        match l with
        | [] => "]"
        | x :: l' => String "," (print x ++ tail l')
        end in
      match items with
      | [] => "[]"
      | x :: l => String "[" (print x ++ tail l)
      end
  | JObj members =>
      let fix tail (l : list (string * json)) : string :=
        match l with
        | [] => "}"
        | (k, x) :: l' => String "," (print_string k ++ String ":" (print x ++ tail l'))
        end in
      match members with
      | [] => "{}"
      | (k, x) :: l => String "{" (print_string k ++ String ":" (print x ++ tail l))
      end
  end.

Fixpoint print_items_tail (l : list json) : string :=
  match l with
  | [] => "]"
  | x :: l' => String "," (print x ++ print_items_tail l')
  end.

Fixpoint print_members_tail (l : list (string * json)) : string :=
  match l with
  | [] => "}"
  | (k, x) :: l' => String "," (print_string k ++ String ":" (print x ++ print_members_tail l'))
  end.

(** *** Parsing: [JSON.parse] *)

Definition is_ws (c : ascii) : bool :=
  Ascii.eqb c " " || Ascii.eqb c "009" || Ascii.eqb c "010" || Ascii.eqb c "013".

Fixpoint skip_ws (s : string) : string :=
  match s with
  | "" => ""
  | String c s' => if is_ws c then skip_ws s' else s
  end.

Definition is_digit (c : ascii) : bool :=
  (48 <=? N_of_ascii c)%N && (N_of_ascii c <=? 57)%N.

Fixpoint take_digits (s : string) : string * string :=
  match s with
  | "" => ("", "")
  | String c s' =>
      if is_digit c then let '(d, r) := take_digits s' in (String c d, r)
      else ("", s)
  end.

Definition uint_eqb (a b : Decimal.uint) : bool :=
  if Decimal.uint_eq_dec a b then true else false.

(** An integer literal is [0] or starts with a non-zero digit. *)
Definition canonical (d : Decimal.uint) : bool :=
  negb (uint_eqb d Decimal.Nil) && uint_eqb (Decimal.unorm d) d.

Definition starts_fraction (s : string) : bool :=
  match s with
  | String c _ => Ascii.eqb c "." || Ascii.eqb c "e" || Ascii.eqb c "E"
  | "" => false
  end.

Definition parse_unsigned (s : string) : result (N * string) :=
  let '(ds, r) := take_digits s in
  match NilEmpty.uint_of_string ds with
  | Some d =>
      if canonical d then
        if starts_fraction r then Err Unsupported else Ok (N.of_uint d, r)
      else Err SyntaxError
  | None => Err SyntaxError
  end.

Definition parse_number (s : string) : result (Z * string) :=
  match s with
  | String "-" s' => let* (n, r) := parse_unsigned s' in Ok (- Z.of_N n, r)
  | _ => let* (n, r) := parse_unsigned s in Ok (Z.of_N n, r)
  end.

Definition hex_value (c : ascii) : option N :=
  let n := N_of_ascii c in
  if (48 <=? n)%N && (n <=? 57)%N then Some (n - 48)%N
  else if (97 <=? n)%N && (n <=? 102)%N then Some (n - 87)%N
  else if (65 <=? n)%N && (n <=? 70)%N then Some (n - 55)%N
  else None.

Definition hex4 (a b c d : ascii) : option N :=
  match hex_value a, hex_value b, hex_value c, hex_value d with
  | Some x, Some y, Some z, Some w => Some (((x * 16 + y) * 16 + z) * 16 + w)%N
  | _, _, _, _ => None
  end.

Definition unescape (c : ascii) : option ascii :=
  if Ascii.eqb c dquote then Some dquote
  else if Ascii.eqb c "\" then Some "\"%char
  else if Ascii.eqb c "/" then Some "/"%char
  else if Ascii.eqb c "b" then Some "008"%char
  else if Ascii.eqb c "f" then Some "012"%char
  else if Ascii.eqb c "n" then Some "010"%char
  else if Ascii.eqb c "r" then Some "013"%char
  else if Ascii.eqb c "t" then Some "009"%char
  else None.

(** The characters of a string literal, after its opening quote. *)
Fixpoint parse_chars (s : string) : result (string * string) :=
  match s with
  | "" => Err SyntaxError
  | String c s' =>
      if Ascii.eqb c dquote then Ok ("", s')
      else if Ascii.eqb c "\" then
        match s' with
        | "" => Err SyntaxError
        | String e s'' =>
            match unescape e with
            | Some c' => let* (str, r) := parse_chars s'' in Ok (String c' str, r)
            | None =>
                if Ascii.eqb e "u" then
                  match s'' with
                  | String h1 (String h2 (String h3 (String h4 s5))) =>
                      match hex4 h1 h2 h3 h4 with
                      | Some n =>
                          if (n <? 256)%N then
                            let* (str, r) := parse_chars s5 in Ok (String (ascii_of_N n) str, r)
                          else Err Unsupported
                      | None => Err SyntaxError
                      end
                  | _ => Err SyntaxError
                  end
                else Err SyntaxError
            end
        end
      else if (N_of_ascii c <? 32)%N then Err SyntaxError
      else let* (str, r) := parse_chars s' in Ok (String c str, r)
  end.

(** Object members are defined in order; a repeated key overwrites the
    earlier value and keeps its position. *)
Fixpoint set_member {A : Type} (k : string) (v : A) (l : list (string * A)) : list (string * A) :=
  match l with
  | [] => [(k, v)]
  | (k', v') :: l' => if String.eqb k' k then (k, v) :: l' else (k', v') :: set_member k v l'
  end.

Definition build_members {A : Type} (l : list (string * A)) : list (string * A) :=
  fold_left (fun acc kv => set_member (fst kv) (snd kv) acc) l [].

(** [strip_prefix w s] is what follows [w] in [s], if [s] starts with [w]. *)
Fixpoint strip_prefix (w s : string) : option string :=
  match w, s with
  | "", _ => Some s
  | String a w', String b s' => if Ascii.eqb a b then strip_prefix w' s' else None
  | String _ _, "" => None
  end.

Definition parse_member (pv : string -> result (json * string)) (s : string)
  : result ((string * json) * string) :=
  match strip_prefix (String dquote "") (skip_ws s) with
  | Some r =>
      let* (k, r1) := parse_chars r in
      match strip_prefix ":" (skip_ws r1) with
      | Some r2 => let* (j, r3) := pv r2 in Ok ((k, j), r3)
      | None => Err SyntaxError
      end
  | None => Err SyntaxError
  end.

Definition starts_number (s : string) : bool :=
  match s with
  | String c _ => Ascii.eqb c "-" || is_digit c
  | "" => false
  end.

Fixpoint parse_value (fuel : nat) (s : string) : result (json * string) :=
  match fuel with
  | O => Err OutOfFuel
  | S n =>
      let s1 := skip_ws s in
      match strip_prefix "null" s1 with
      | Some r => Ok (JNull, r)
      | None =>
      match strip_prefix "true" s1 with
      | Some r => Ok (JBool true, r)
      | None =>
      match strip_prefix "false" s1 with
      | Some r => Ok (JBool false, r)
      | None =>
      match strip_prefix (String dquote "") s1 with
      | Some r => let* (str, r') := parse_chars r in Ok (JStr str, r')
      | None =>
      match strip_prefix "[" s1 with
      | Some r =>
          match strip_prefix "]" (skip_ws r) with
          | Some r' => Ok (JArr [], r')
          | None =>
              let* (j, r1) := parse_value n r in
              let* (js, r2) := parse_elements n r1 in
              Ok (JArr (j :: js), r2)
          end
      | None =>
      match strip_prefix "{" s1 with
      | Some r =>
          match strip_prefix "}" (skip_ws r) with
          | Some r' => Ok (JObj [], r')
          | None =>
              let* (m, r1) := parse_member (parse_value n) r in
              let* (ms, r2) := parse_members n r1 in
              Ok (JObj (build_members (m :: ms)), r2)
          end
      | None =>
          if starts_number s1 then
            let* (z, r') := parse_number s1 in Ok (JNum z, r')
          else Err SyntaxError
      end end end end end end
  end
with parse_elements (fuel : nat) (s : string) : result (list json * string) :=
  match fuel with
  | O => Err OutOfFuel
  | S n =>
      match strip_prefix "]" (skip_ws s) with
      | Some r => Ok ([], r)
      | None =>
          match strip_prefix "," (skip_ws s) with
          | Some r =>
              let* (j, r1) := parse_value n r in
              let* (js, r2) := parse_elements n r1 in
              Ok (j :: js, r2)
          | None => Err SyntaxError
          end
      end
  end
with parse_members (fuel : nat) (s : string) : result (list (string * json) * string) :=
  match fuel with
  | O => Err OutOfFuel
  | S n =>
      match strip_prefix "}" (skip_ws s) with
      | Some r => Ok ([], r)
      | None =>
          match strip_prefix "," (skip_ws s) with
          | Some r =>
              let* (m, r1) := parse_member (parse_value n) r in
              let* (ms, r2) := parse_members n r1 in
              Ok (m :: ms, r2)
          | None => Err SyntaxError
          end
      end
  end.

(** [JSON.parse]: one value, then nothing but white space. A number
    is the integer it denotes (its rounding to a double is not
    modelled); a number with a fraction or an exponent, and a [\u]
    escape above [00ff], have no answer here. *)
Definition parse (s : string) : result json :=
  let* (j, r) := parse_value (S (String.length s)) s in
  if String.eqb (skip_ws r) "" then Ok j else Err SyntaxError.

(** *** Trees whose objects have no repeated key *)

Fixpoint distinct (ks : list string) : bool :=
  match ks with
  | [] => true
  | k :: ks' => negb (existsb (String.eqb k) ks') && distinct ks'
  end.

Fixpoint unique_keys (j : json) : bool :=
  match j with
  | JArr items => forallb unique_keys items
  | JObj members =>
      distinct (map fst members) && forallb (fun kv => unique_keys (snd kv)) members
  | _ => true
  end.

Fixpoint size (j : json) : nat :=
  match j with
  | JArr items => S (fold_right (fun x n => S (size x + n)) O items)
  | JObj members => S (fold_right (fun kv n => S (size (snd kv) + n)) O members)
  | _ => 1%nat
  end.

(** What may follow a printed value: nothing that would extend a number. *)
Definition ends_value (rest : string) : bool :=
  match rest with
  | "" => true
  | String c _ => negb (is_digit c) && negb (starts_fraction rest)
  end.

(** The first character of a printed value. *)
Definition opens_value (s : string) : Prop :=
  exists c s', s = String c s' /\
    In c (dquote :: ["n"; "t"; "f"; "["; "{"; "-"; "0"; "1"; "2"; "3"; "4"; "5"; "6"; "7"; "8";
                     "9"]%char).

Definition opens_digit (s : string) : Prop :=
  exists c s', s = String c s' /\
    In c ["0"; "1"; "2"; "3"; "4"; "5"; "6"; "7"; "8"; "9"]%char.

(** A parser that needs no more fuel and consumes input. *)
Definition consumes {A : Type} (p : string -> result (A * string)) (s : string) : Prop :=
  p s <> Err OutOfFuel /\
  forall a r, p s = Ok (a, r) -> (String.length r < String.length s)%nat.

End Json.

(** ** JavaScript values in a store *)

Module Js.
Import Json.

Abbreviation loc := nat (only parsing).

Inductive val : Type :=
| VUndefined
| VNull
| VBool (b : bool)
| VNum (n : Z)
| VStr (s : string)
| VBigInt (n : Z)
| VFun (name : string)
| VRef (l : loc).

Arguments VRef l%_nat_scope.

Inductive atom : Type :=
| AUndefined
| ANull
| ABool (b : bool)
| ANum (n : Z)
| AStr (s : string).

Definition to_atom (v : val) : option atom :=
  match v with
  | VUndefined => Some AUndefined
  | VNull => Some ANull
  | VBool b => Some (ABool b)
  | VNum n => Some (ANum n)
  | VStr s => Some (AStr s)
  | VBigInt _ | VFun _ | VRef _ => None
  end.

Definition of_atom (a : atom) : val :=
  match a with
  | AUndefined => VUndefined
  | ANull => VNull
  | ABool b => VBool b
  | ANum n => VNum n
  | AStr s => VStr s
  end.

(** A plain object keeps its own enumerable properties in insertion order;
    an array keeps its elements. *)
Inductive object : Type :=
| OObj (props : list (string * val))
| OArr (elems : list val).

Abbreviation heap := (list object) (only parsing).

Definition truthy (v : val) : bool :=
  match v with
  | VUndefined | VNull => false
  | VBool b => b
  | VNum n => negb (n =? 0)
  | VStr s => negb (String.eqb s "")
  | VBigInt n => negb (n =? 0)
  | VFun _ | VRef _ => true
  end.

Definition nullish (v : val) : bool :=
  match v with
  | VUndefined | VNull => true
  | _ => false
  end.

Fixpoint assoc {A : Type} (k : string) (l : list (string * A)) : option A :=
  match l with
  | [] => None
  | (k', v) :: l' => if String.eqb k' k then Some v else assoc k l'
  end.

Definition has_key {A : Type} (k : string) (l : list (string * A)) : bool :=
  existsb (String.eqb k) (map fst l).

Definition key_of_index (i : nat) : string :=
  NilEmpty.string_of_uint (Nat.to_uint i).

Definition index_of_key (k : string) : option nat :=
  match NilEmpty.uint_of_string k with
  | Some d => if canonical d then Some (Nat.of_uint d) else None
  | None => None
  end.

Fixpoint indexed_from {A : Type} (i : nat) (l : list A) : list (string * A) :=
  match l with
  | [] => []
  | x :: l' => (key_of_index i, x) :: indexed_from (S i) l'
  end.

Fixpoint chars (s : string) : list val :=
  match s with
  | "" => []
  | String c s' => VStr (String c "") :: chars s'
  end.

(** The own enumerable string-keyed properties of a value, as object
    spread, rest destructuring and [Object.assign] enumerate them. *)
Definition own_props (h : heap) (v : val) : list (string * val) :=
  match v with
  | VRef l =>
      match h !! l with
      | Some (OObj ps) => ps
      | Some (OArr es) => indexed_from 0 es
      | None => []
      end
  | VStr s => indexed_from 0 (chars s)
  | _ => []
  end.

(** [v.k] and [v[k]] on the properties of [v]'s own; reading a property
    of [null] or [undefined] throws. [FastRedact.Model.lookup] is the
    read through the prototypes. *)
Definition get (h : heap) (v : val) (k : string) : result val :=
  match v with
  | VUndefined | VNull => Err (TypeError "Cannot read properties of undefined or null")
  | VRef l =>
      match h !! l with
      | Some (OObj ps) => Ok (default VUndefined (assoc k ps))
      | Some (OArr es) =>
          if String.eqb k "length" then Ok (VNum (Z.of_nat (length es)))
          else Ok (default VUndefined (i ← index_of_key k; es !! i))
      | None => Ok VUndefined
      end
  | VStr s =>
      if String.eqb k "length" then Ok (VNum (Z.of_nat (String.length s)))
      else Ok (default VUndefined (i ← index_of_key k; chars s !! i))
  | _ => Ok VUndefined
  end.

Definition alloc_object (h : heap) (o : object) : heap * val :=
  ((h ++ [o])%list, VRef (length h)).

(** *** [JSON.stringify] *)

Definition mem (l : loc) (stack : list loc) : bool := existsb (Nat.eqb l) stack.

(** SerializeJSONObject: a property whose value serializes to [undefined]
    is left out. *)
Fixpoint ser_props (f : val -> result (option json)) (ps : list (string * val))
  : result (list (string * json)) :=
  match ps with
  | [] => Ok []
  | (k, v) :: ps' =>
      let* oj := f v in
      let* rest := ser_props f ps' in
      Ok (match oj with Some j => (k, j) :: rest | None => rest end)
  end.

(** SerializeJSONArray: an element that serializes to [undefined] is
    written as [null]. *)
Fixpoint ser_elems (f : val -> result (option json)) (es : list val) : result (list json) :=
  match es with
  | [] => Ok []
  | v :: es' =>
      let* oj := f v in
      let* rest := ser_elems f es' in
      Ok (default JNull oj :: rest)
  end.

Definition circular : error := TypeError "Converting circular structure to JSON".

(** An own property [toJSON] whose value is a function. [JSON.stringify]
    calls it and serializes what it returns instead of the object; what
    a function of the program returns is not part of the store, so the
    serialization of such an object has no answer here. *)
Definition has_toJSON (ps : list (string * val)) : bool :=
  match assoc "toJSON" ps with
  | Some (VFun _) => true
  | _ => false
  end.

(** SerializeJSONObject: the properties in order, unless the object has
    a [toJSON] method. *)
Definition ser_object (f : val -> result (option json)) (ps : list (string * val))
  : result (list (string * json)) :=
  if has_toJSON ps then Err Unsupported else ser_props f ps.

(** SerializeJSONProperty. [stack] holds the objects being serialized, as
    in the standard; [fuel] bounds the nesting depth. *)
Fixpoint to_json (fuel : nat) (h : heap) (stack : list loc) (v : val) : result (option json) :=
  match v with
  | VUndefined | VFun _ => Ok None
  | VNull => Ok (Some JNull)
  | VBool b => Ok (Some (JBool b))
  | VNum n => Ok (Some (JNum n))
  | VStr s => Ok (Some (JStr s))
  | VBigInt _ => Err (TypeError "Do not know how to serialize a BigInt")
  | VRef l =>
      if mem l stack then Err circular
      else
        match fuel with
        | O => Err OutOfFuel
        | S n =>
            match h !! l with
            | Some (OObj ps) =>
                let* kvs := ser_object (to_json n h (l :: stack)) ps in Ok (Some (JObj kvs))
            | Some (OArr es) =>
                let* js := ser_elems (to_json n h (l :: stack)) es in Ok (Some (JArr js))
            | None => Ok None
            end
        end
  end.

Definition JSON_stringify (h : heap) (v : val) : result (option string) :=
  let* oj := to_json (S (length h)) h [] v in Ok (print <$> oj).

(** [JSON.stringify] of a new object with properties [ps]: nothing in the
    store refers to it, so it is serialized without being entered in
    the store, and always yields text. *)
Definition JSON_stringify_new (h : heap) (ps : list (string * val)) : result string :=
  let* kvs := ser_object (to_json (S (length h)) h []) ps in Ok (print (JObj kvs)).

(** What [JSON.stringify] makes of a value of the store. *)
Definition view (h : heap) (v : val) : result (option json) :=
  to_json (S (length h)) h [] v.

(** *** [JSON.parse]: the parsed tree is built from fresh objects *)

Fixpoint alloc (j : json) (h : heap) : heap * val :=
  match j with
  | JNull => (h, VNull)
  | JBool b => (h, VBool b)
  | JNum n => (h, VNum n)
  | JStr s => (h, VStr s)
  | JArr items =>
      let '(h', vs) :=
        (fix go (l : list json) (h : heap) : heap * list val :=
           match l with
           | [] => (h, [])
           | x :: l' =>
               let '(h1, v) := alloc x h in
               let '(h2, vs) := go l' h1 in (h2, v :: vs)
           end) items h in
      alloc_object h' (OArr vs)
  | JObj members =>
      let '(h', ps) :=
        (fix go (l : list (string * json)) (h : heap) : heap * list (string * val) :=
           match l with
           | [] => (h, [])
           | (k, x) :: l' =>
               let '(h1, v) := alloc x h in
               let '(h2, ps) := go l' h1 in (h2, (k, v) :: ps)
           end) members h in
      alloc_object h' (OObj ps)
  end.

Fixpoint alloc_items (l : list json) (h : heap) : heap * list val :=
  match l with
  | [] => (h, [])
  | x :: l' =>
      let '(h1, v) := alloc x h in
      let '(h2, vs) := alloc_items l' h1 in (h2, v :: vs)
  end.

Fixpoint alloc_members (l : list (string * json)) (h : heap) : heap * list (string * val) :=
  match l with
  | [] => (h, [])
  | (k, x) :: l' =>
      let '(h1, v) := alloc x h in
      let '(h2, ps) := alloc_members l' h1 in (h2, (k, v) :: ps)
  end.

Definition JSON_parse (h : heap) (text : string) : result (heap * val) :=
  let* j := parse text in Ok (alloc j h).

(** *** [Object.assign(target, source)] *)

Definition assign_props (target source : list (string * val)) : list (string * val) :=
  fold_left (fun acc kv => set_member (fst kv) (snd kv) acc) source target.

(** The properties of the source that [target[k] = v] defines on a
    target with the properties [target]: all but [__proto__] when the
    target does not have it as a property of its own. For that name the
    assignment runs the setter that every object inherits from
    [Object.prototype]: it changes the prototype of the target, which
    is no part of the store, and defines nothing. *)
Definition assignable (target source : list (string * val)) : list (string * val) :=
  List.filter (fun kv => negb (String.eqb (fst kv) "__proto__") || has_key "__proto__" target)
    source.

(** The target is written in place. A target that is not a plain object
    has no answer here unless there is nothing to copy. *)
Definition Object_assign (h : heap) (target source : val) : result heap :=
  match target with
  | VUndefined | VNull => Err (TypeError "Cannot convert undefined or null to object")
  | VRef l =>
      match h !! l with
      | Some (OObj ps) =>
          Ok (<[l := OObj (assign_props ps (assignable ps (own_props h source)))]> h)
      | _ => match own_props h source with [] => Ok h | _ => Err Unsupported end
      end
  | _ => Ok h
  end.

(** *** Reachability in the store *)

Definition fields (o : object) : list val :=
  match o with
  | OObj ps => map snd ps
  | OArr es => es
  end.

Inductive reach (h : heap) : val -> loc -> Prop :=
| reach_here (l : loc) : reach h (VRef l) l
| reach_step (v : val) (l l' : loc) (o : object) :
    reach h v l -> h !! l = Some o -> In (VRef l') (fields o) -> reach h v l'.

(** A value that, if a reference, points into the region [lo, hi). *)
Definition in_range (lo hi : nat) (v : val) : Prop :=
  match v with
  | VRef l => (lo <= l < hi)%nat
  | _ => True
  end.

(** Objects whose references all point into the region [lo, hi). *)
Definition fresh_objects (lo hi : nat) (new : list object) : Prop :=
  Forall (fun o => Forall (in_range lo hi) (fields o)) new.

(** [h'] refers to nothing that [h] does not refer to at the same place. *)
Definition fewer_refs (h h' : list object) : Prop :=
  forall l o', h' !! l = Some o' ->
    exists o, h !! l = Some o /\ forall l', In (VRef l') (fields o') -> In (VRef l') (fields o).

(** Building [j] extends the store with objects that refer to one another only. *)
Definition alloc_ok (j : json) : Prop :=
  forall h h' v, alloc j h = (h', v) ->
    exists new, h' = (h ++ new)%list /\ in_range (length h) (length h') v /\
                fresh_objects (length h) (length h') new.

(** The same value [d] places further in the store. *)
Definition shift (d : nat) (v : val) : val :=
  match v with
  | VRef l => VRef (l + d)
  | _ => v
  end.

Definition shift_props (d : nat) (ps : list (string * val)) : list (string * val) :=
  map (fun kv => (fst kv, shift d (snd kv))) ps.

Definition shift_object (d : nat) (o : object) : object :=
  match o with
  | OObj ps => OObj (shift_props d ps)
  | OArr es => OArr (map (shift d) es)
  end.

Definition shift_result (d : nat) (r : result val) : result val :=
  match r with
  | Ok x => Ok (shift d x)
  | Err e => Err e
  end.

(** The store [N] placed behind the store [h]. *)
Definition moved (h : list object) (N : list object) : list object :=
  h ++ map (shift_object (length h)) N.

(** A store as JavaScript builds them: no object has a repeated key and
    every reference is to an object of the store. *)
Definition in_store (n : nat) (v : val) : bool :=
  match v with
  | VRef l => (l <? n)%nat
  | _ => true
  end.

Definition object_ok (n : nat) (o : object) : bool :=
  match o with
  | OObj ps => distinct (map fst ps) && forallb (in_store n) (map snd ps)
  | OArr es => forallb (in_store n) es
  end.

Definition store_ok (h : heap) : bool := forallb (object_ok (length h)) h.

End Js.

(** ** The redaction library: fast-redact *)

Module FastRedact.
Import Json Js.

(** The censor: a primitive value, or a function that computes one from
    the value it replaces, which it sees when that value is a primitive.
    (A censor that is itself an object is not modelled.) *)
Inductive Censor : Type :=
| CensorValue (c : atom)
| CensorFn (f : option atom -> atom).

Inductive Serialize : Type :=
| SerializeBool (b : bool)
| SerializeFn (f : heap -> val -> val).

(** [ExtendedRedactOptions]: fast-redact's [RedactOptions] and the
    repository's [globalReplace]. A missing key is [None]; a path
    [a.b.c] is the key sequence [a; b; c]. *)
Record ExtendedRedactOptions : Type := {
  paths : list (list string);
  censor : option Censor;
  serialize : option Serialize;
  strict : option bool;
  remove : option bool;
  globalReplace : option (string -> string);
}.

(** What [fastRedact(options)] returns: a function on a value in the store. *)
Definition redactor : Type := heap -> val -> result (heap * val).

(** What a redactor makes of a fresh copy of the tree [j] built in the
    store [h], seen as JSON. *)
Definition redaction (r : redactor) (j : json) (h : heap) : result (option json) :=
  let '(h2, parsed) := alloc j h in
  let* (h3, payload) := r h2 parsed in
  view h3 payload.

(** The library is a collaborator of the repository. What holds of a
    redactor compiled with [serialize: false], whatever the rules: it
    returns its argument, and it only assigns to properties, so that
    every object of the store stays an object and keeps its keys. *)
Class Library : Type := {
  fastRedact : ExtendedRedactOptions -> result redactor;
  returns_argument :
    forall o r h v h' v',
      serialize o = Some (SerializeBool false) ->
      fastRedact o = Ok r -> r h v = Ok (h', v') -> v' = v;
  keeps_objects :
    forall o r h v h' v' l ps,
      serialize o = Some (SerializeBool false) ->
      fastRedact o = Ok r -> r h v = Ok (h', v') ->
      h !! l = Some (OObj ps) ->
      exists ps', h' !! l = Some (OObj ps') /\
                  forall k, has_key k ps = true -> has_key k ps' = true;
}.

(** *** A model of the library for paths without wildcards *)

(** [redact_path] and [redact] are the library where every path stays
    within the own properties of the value it is followed in; [lookup],
    [assign], [redact_path_in] and [redact_in] follow a path as the
    language does, through the prototypes of the values as well. *)

Module Model.

(** [typeof o !== 'object' || o == null] *)
Definition primitive (o : val) : bool :=
  match o with
  | VRef _ => false
  | _ => true
  end.

(** [o[k] = x] on an existing property of [o]'s own: the write is in
    place. The [length] of an array is left alone; [assign] below is
    the assignment in full. *)
Definition set_existing (h : heap) (o : val) (k : string) (x : val) : heap :=
  match o with
  | VRef l =>
      match h !! l with
      | Some (OObj ps) =>
          if has_key k ps then <[l := OObj (set_member k x ps)]> h else h
      | Some (OArr es) =>
          match index_of_key k with
          | Some i => <[l := OArr (<[i := x]> es)]> h
          | None => h
          end
      | None => h
      end
  | _ => h
  end.

(** One compiled path: [if (o.a && o.a.b && o.a.b.c != null) o.a.b.c = censor]. *)
Fixpoint redact_path (cens : val -> atom) (h : heap) (o : val) (path : list string) : heap :=
  match path with
  | [] => h
  | [k] =>
      match get h o k with
      | Ok cur => if nullish cur then h else set_existing h o k (of_atom (cens cur))
      | Err _ => h
      end
  | k :: path' =>
      match get h o k with
      | Ok next => if truthy next then redact_path cens h next path' else h
      | Err _ => h
      end
  end.

Definition default_censor : atom := AStr "[REDACTED]".

Definition censor_fn (o : ExtendedRedactOptions) : val -> atom :=
  match remove o, censor o with
  | Some true, _ => fun _ => AUndefined
  | _, Some (CensorValue c) => fun _ => c
  | _, Some (CensorFn f) => fun cur => f (to_atom cur)
  | _, None => fun _ => default_censor
  end.

Definition stringify_val (h : heap) (o : val) : result val :=
  let* t := JSON_stringify h o in
  Ok (match t with Some s => VStr s | None => VUndefined end).

(** The value a redactor returns for [o], the store being [hs] when the
    serializer runs and [h] afterwards (the library restores the
    redacted values once it has serialized). *)
Definition finish (o : ExtendedRedactOptions) (h hs : heap) (x : val) : result (heap * val) :=
  match serialize o with
  | Some (SerializeBool false) => Ok (hs, x)
  | Some (SerializeFn f) => Ok (h, f hs x)
  | _ => let* s := stringify_val hs x in Ok (h, s)
  end.

Definition redact (o : ExtendedRedactOptions) : redactor :=
  fun h x =>
    match paths o with
    | [] => finish o h h x
    | ps =>
        if primitive x then
          if default true (strict o) then Err RedactError else finish o h h x
        else finish o h (fold_left (fun h' p => redact_path (censor_fn o) h' x p) ps h) x
    end.

Definition uses_JSON_stringify (o : ExtendedRedactOptions) : bool :=
  match serialize o with
  | Some (SerializeBool false) | Some (SerializeFn _) => false
  | _ => true
  end.

(** [fastRedact(opts)]: [remove] is only accepted with the default serializer. *)
Definition fastRedact (o : ExtendedRedactOptions) : result redactor :=
  if default false (remove o) && negb (uses_JSON_stringify o) then Err RedactError
  else Ok (redact o).

(** **** Paths through inherited properties *)

(** The redactor reads and writes [o.a.b] as the language does: a
    property that [o.a] does not have is looked up in its prototype.
    The values it is given by the interceptor are built by
    [JSON.parse], so their prototypes are the built-in ones. A [realm]
    says where the store holds these objects. *)
Record realm : Type := {
  ObjectPrototype : loc;
  ArrayPrototype : loc;
  StringPrototype : loc;
  NumberPrototype : loc;
  BooleanPrototype : loc;
}.

Definition prototypes (R : realm) : list loc :=
  [ObjectPrototype R; ArrayPrototype R; StringPrototype R; NumberPrototype R;
   BooleanPrototype R].

(** The prototype of a value; [Object.prototype] has none. *)
Definition prototype (R : realm) (h : heap) (v : val) : option loc :=
  match v with
  | VRef l =>
      if Nat.eqb l (ObjectPrototype R) then None
      else
        match h !! l with
        | Some (OArr _) => Some (ArrayPrototype R)
        | _ => Some (ObjectPrototype R)
        end
  | VStr _ => Some (StringPrototype R)
  | VNum _ => Some (NumberPrototype R)
  | VBool _ => Some (BooleanPrototype R)
  | _ => None
  end.

(** The objects in which a property of [v] is looked up after [v]. *)
Definition lookup_chain (R : realm) (h : heap) (v : val) : list loc :=
  match prototype R h v with
  | Some p => if Nat.eqb p (ObjectPrototype R) then [p] else [p; ObjectPrototype R]
  | None => []
  end.

(** An own property: of an object, or an element or the length of an
    array or of a string. *)
Definition own (h : heap) (v : val) (k : string) : option val :=
  match v with
  | VRef l =>
      match h !! l with
      | Some (OObj ps) => assoc k ps
      | Some (OArr es) =>
          if String.eqb k "length" then Some (VNum (Z.of_nat (length es)))
          else i ← index_of_key k; es !! i
      | None => None
      end
  | VStr s =>
      if String.eqb k "length" then Some (VNum (Z.of_nat (String.length s)))
      else i ← index_of_key k; chars s !! i
  | _ => None
  end.

Fixpoint inherited_from (h : heap) (ps : list loc) (k : string) : option val :=
  match ps with
  | [] => None
  | p :: ps' =>
      match own h (VRef p) k with
      | Some x => Some x
      | None => inherited_from h ps' k
      end
  end.

(** [v.k] and [v[k]]. [__proto__] is the accessor of [Object.prototype]
    unless a data property of that name comes first. What a function
    or a BigInt answers has no answer here. *)
Definition lookup (R : realm) (h : heap) (v : val) (k : string) : result val :=
  match v with
  | VUndefined | VNull => get h v k
  | VFun _ | VBigInt _ => Err Unsupported
  | _ =>
      match own h v k with
      | Some x => Ok x
      | None =>
          match inherited_from h (lookup_chain R h v) k with
          | Some x => Ok x
          | None =>
              if String.eqb k "__proto__" then
                Ok (match prototype R h v with Some p => VRef p | None => VNull end)
              else Ok VUndefined
          end
      end
  end.

(** [v[k] = x] where [v[k]] is neither [null] nor [undefined] and [x]
    is a primitive value. On an object, a property of its own is
    overwritten and an inherited one is defined on the object itself;
    [__proto__], when inherited, is the setter of [Object.prototype],
    which ignores a primitive other than [null]. On an array an element
    is overwritten; its length, and a property beside its elements,
    have no answer here. On a primitive value the assignment is
    dropped. *)
Definition assign (h : heap) (v : val) (k : string) (x : val) : result heap :=
  match v with
  | VRef l =>
      match h !! l with
      | Some (OObj ps) =>
          if String.eqb k "__proto__" && negb (has_key k ps) then
            match x with
            | VNull | VRef _ | VFun _ => Err Unsupported
            | _ => Ok h
            end
          else Ok (<[l := OObj (set_member k x ps)]> h)
      | Some (OArr es) =>
          match index_of_key k with
          | Some i =>
              if (i <? length es)%nat then Ok (<[l := OArr (<[i := x]> es)]> h)
              else Err Unsupported
          | None => Err Unsupported
          end
      | None => Ok h
      end
  | VStr _ | VNum _ | VBool _ => Ok h
  | _ => Err Unsupported
  end.

Definition atom_eqb (a b : atom) : bool :=
  match a, b with
  | AUndefined, AUndefined | ANull, ANull => true
  | ABool x, ABool y => Bool.eqb x y
  | ANum x, ANum y => Z.eqb x y
  | AStr x, AStr y => String.eqb x y
  | _, _ => false
  end.

(** The censor when it is a value. *)
Definition censor_value (o : ExtendedRedactOptions) : option atom :=
  match remove o, censor o with
  | Some true, _ => Some AUndefined
  | _, Some (CensorValue c) => Some c
  | _, Some (CensorFn _) => None
  | _, None => Some default_censor
  end.

(** [val === censor]: the value is the censor already and is left. *)
Definition precensored (o : ExtendedRedactOptions) (cur : val) : bool :=
  match censor_value o, to_atom cur with
  | Some c, Some a => atom_eqb a c
  | _, _ => false
  end.

(** One compiled path, as [redact_path], through the prototypes. *)
Fixpoint redact_path_in (R : realm) (o : ExtendedRedactOptions) (h : heap) (v : val)
    (path : list string) : result heap :=
  match path with
  | [] => Ok h
  | [k] =>
      let* cur := lookup R h v k in
      if nullish cur || precensored o cur then Ok h
      else assign h v k (of_atom (censor_fn o cur))
  | k :: path' =>
      let* next := lookup R h v k in
      if truthy next then redact_path_in R o h next path' else Ok h
  end.

Fixpoint redact_paths_in (R : realm) (o : ExtendedRedactOptions) (h : heap) (x : val)
    (ps : list (list string)) : result heap :=
  match ps with
  | [] => Ok h
  | p :: ps' => let* h' := redact_path_in R o h x p in redact_paths_in R o h' x ps'
  end.

Definition redact_in (R : realm) (o : ExtendedRedactOptions) : redactor :=
  fun h x =>
    match paths o with
    | [] => finish o h h x
    | ps =>
        if primitive x then
          if default true (strict o) then Err RedactError else finish o h h x
        else let* h' := redact_paths_in R o h x ps in finish o h h' x
    end.

Definition fastRedact_in (R : realm) (o : ExtendedRedactOptions) : result redactor :=
  if default false (remove o) && negb (uses_JSON_stringify o) then Err RedactError
  else Ok (redact_in R o).

End Model.

End FastRedact.

(** ** src/logging.ts *)

Module Logging.
Import Json Js FastRedact.

(** [process.env] *)
Definition environment : Type := string -> option string.

(** [a || b] on [string | undefined] *)
Definition or_env (a b : option string) : option string :=
  match a with
  | Some s => if String.eqb s "" then b else a
  | None => b
  end.

Definition getGoogleServiceName (env : environment) : option string :=
  or_env (env "GAE_SERVICE") (env "K_SERVICE").

(** bunyan's [LogLevel]: a level name or a number. *)
Inductive LogLevel : Type :=
| LevelName (s : string)
| LevelNumber (n : Z).

Definition level_truthy (l : LogLevel) : bool :=
  match l with
  | LevelName s => negb (String.eqb s "")
  | LevelNumber n => negb (n =? 0)
  end.

Inductive Stream : Type :=
| LoggingBunyanStream (redirectToStdout useMessageField : bool) (level : LogLevel)
| PrettyStdoutStream (mode : string) (level : LogLevel).

Definition serializer : Type := heap -> val -> result (heap * val).

Record Serializers : Type := {
  err : serializer;
  req : serializer;
  res : serializer;
}.

Definition emitter : Type := heap -> val -> result (heap * val).

Record Logger : Type := {
  name : string;
  streams : list Stream;
  serializers : Serializers;
  _emit : emitter;
}.

(** [serializers.req] *)
Definition req_serializer : serializer :=
  fun h req =>
    if negb (truthy req) then Ok (h, req)
    else
      let* connection := get h req "connection" in
      if negb (truthy connection) then Ok (h, req)
      else
        let* method := get h req "method" in
        let* originalUrl := get h req "originalUrl" in
        let* url := (if truthy originalUrl then Ok originalUrl else get h req "url") in
        let* query := get h req "query" in
        let* body := get h req "body" in
        let* headers := get h req "headers" in
        let* remoteAddress := get h connection "remoteAddress" in
        let* remotePort := get h connection "remotePort" in
        Ok (alloc_object h
              (OObj [("method", method); ("url", url); ("query", query); ("body", body);
                     ("headers", headers); ("remoteAddress", remoteAddress);
                     ("remotePort", remotePort)])).

(** [serializers.res] *)
Definition res_serializer : serializer :=
  fun h res =>
    if negb (truthy res) then Ok (h, res)
    else
      let* statusCode := get h res "statusCode" in
      if negb (truthy statusCode) then Ok (h, res)
      else
        let* header := get h res "_header" in
        Ok (alloc_object h (OObj [("statusCode", statusCode); ("header", header)])).

(** [stdSerializers_err] is bunyan's [Logger.stdSerializers.err]. *)
Definition createDetailedRequestSerializers (stdSerializers_err : serializer) : Serializers :=
  {| err := stdSerializers_err; req := req_serializer; res := res_serializer |}.

(** bunyan's core fields, [msg] excepted. *)
Definition core_fields : list string :=
  ["v"; "level"; "name"; "hostname"; "pid"; "time"; "src"].

Definition is_core (k : string) : bool := existsb (String.eqb k) core_fields.

(** [const { v, level, name, hostname, pid, time, src, ...rest } = logRecord] *)
Definition rest_of (ps : list (string * val)) : list (string * val) :=
  List.filter (fun kv => negb (is_core (fst kv))) ps.

(** [redactConfig?.globalReplace ?? ((value) => value)] *)
Definition globalReplace_of (redactConfig : option ExtendedRedactOptions) : string -> string :=
  match redactConfig with
  | Some c => default (fun value => value) (globalReplace c)
  | None => fun value => value
  end.

(** [JSON.parse(globalReplace(JSON.stringify(rest)))] *)
Definition copy_payload (redactConfig : option ExtendedRedactOptions) (h : heap) (logRecord : val)
  : result (heap * val) :=
  if nullish logRecord then Err (TypeError "Cannot destructure undefined or null")
  else
    let rest := rest_of (own_props h logRecord) in
    let* text := JSON_stringify_new h rest in
    JSON_parse h (globalReplace_of redactConfig text).

(** [Object.assign(logRecord, redact(JSON.parse(globalReplace(JSON.stringify(rest)))))] *)
Definition redact_record (redact : redactor) (redactConfig : option ExtendedRedactOptions)
    (h : heap) (logRecord : val) : result heap :=
  let* (h2, parsed) := copy_payload redactConfig h logRecord in
  let* (h3, redacted) := redact h2 parsed in
  Object_assign h3 logRecord redacted.

(** The [apply] trap of the proxy on [logger._emit]; [target] is bunyan's
    own [_emit]. *)
Definition emit_apply (target : emitter) (redact : redactor)
    (redactConfig : option ExtendedRedactOptions) : emitter :=
  fun h logRecord =>
    let* h' := redact_record redact redactConfig h logRecord in
    target h' logRecord.

(** [{ ...redactConfig, serialize: false }] *)
Definition redact_options (redactConfig : option ExtendedRedactOptions) : ExtendedRedactOptions :=
  match redactConfig with
  | Some c =>
      {| paths := paths c; censor := censor c; serialize := Some (SerializeBool false);
         strict := strict c; remove := remove c; globalReplace := globalReplace c |}
  | None =>
      {| paths := []; censor := None; serialize := Some (SerializeBool false);
         strict := None; remove := None; globalReplace := None |}
  end.

(** [level || process.env.LOG_LEVEL || 'info'] *)
Definition logLevel_of (level : option LogLevel) (env : environment) : LogLevel :=
  let from_env :=
    match env "LOG_LEVEL" with
    | Some s => if String.eqb s "" then LevelName "info" else LevelName s
    | None => LevelName "info"
    end in
  match level with
  | Some l => if level_truthy l then l else from_env
  | None => from_env
  end.

Section createLogger.
Context `{Library}.

(** [stdSerializers_err] is bunyan's serializer for errors, and
    [Logger_createLogger] is bunyan's [Logger.createLogger]: given the
    name, the streams and the serializers it makes the logger, whose
    [_emit] it returns here, or it throws (bunyan rejects a level it
    does not know). *)
Definition createLogger (env : environment) (stdSerializers_err : serializer)
    (Logger_createLogger : string -> list Stream -> Serializers -> result emitter)
    (level : option LogLevel) (redactConfig : option ExtendedRedactOptions) : result Logger :=
  let logLevel := logLevel_of level env in
  let '(name, streams) :=
    match getGoogleServiceName env with
    | Some googleServiceName =>
        if String.eqb googleServiceName "" then
          ("default", [PrettyStdoutStream "short" logLevel])
        else (googleServiceName, [LoggingBunyanStream true false logLevel])
    | None => ("default", [PrettyStdoutStream "short" logLevel])
    end in
  let serializers := createDetailedRequestSerializers stdSerializers_err in
  let* bunyan_emit := Logger_createLogger name streams serializers in
  let* redact := fastRedact (redact_options redactConfig) in
  Ok {| name := name; streams := streams; serializers := serializers;
        _emit := emit_apply bunyan_emit redact redactConfig |}.
End createLogger.

(** *** The request-logging middleware *)

Section middleware.
(** The keys exported by @google-cloud/logging-bunyan. *)
Variables LOGGING_TRACE_KEY LOGGING_SPAN_KEY LOGGING_SAMPLED_KEY : string.

(** The [requestUrl] of the copy. A boolean, a number or a BigInt has
    no [startsWith], so the call throws. An object or a function may
    carry a [startsWith] of its own, which is then what is called: such
    a [requestUrl] has no answer here. *)
Definition prefixed_url (cloudFunctionName : string) (requestUrl : val) : result val :=
  match requestUrl with
  | VStr u =>
      Ok (if String.prefix "/" u && negb (String.prefix ("/" ++ cloudFunctionName) u)
          then VStr ("/" ++ cloudFunctionName ++ u)
          else requestUrl)
  | VUndefined | VNull => Ok requestUrl
  | VBool _ | VNum _ | VBigInt _ => Err (TypeError "requestUrl.startsWith is not a function")
  | VFun _ | VRef _ => Err Unsupported
  end.

(** The first argument of [logger.info] in [emitRequestLog]. *)
Definition request_log_fields (env : environment) (h : heap)
    (req res httpRequest trace span sampled : val) : result (heap * val) :=
  let* requestUrl := get h httpRequest "requestUrl" in
  match env "K_SERVICE" with
  | Some cloudFunctionName =>
      if String.eqb cloudFunctionName "" then
        Ok (alloc_object h (OObj [("req", req); ("res", res)]))
      else
        let* url := prefixed_url cloudFunctionName requestUrl in
        let '(h1, httpRequest') :=
          alloc_object h (OObj (set_member "requestUrl" url (own_props h httpRequest))) in
        let inner :=
          assign_props []
            [("httpRequest", httpRequest'); (LOGGING_TRACE_KEY, trace);
             (LOGGING_SPAN_KEY, span); (LOGGING_SAMPLED_KEY, sampled)] in
        let '(h2, _) := alloc_object h1 (OObj inner) in
        Ok (alloc_object h2 (OObj (assign_props [("req", req); ("res", res)] inner)))
  | None => Ok (alloc_object h (OObj [("req", req); ("res", res)]))
  end.

(** [emitRequestLog]; [info] is [logger.info]. *)
Definition emitRequestLog {A : Type} (info : heap -> val -> string -> result A)
    (env : environment) (h : heap) (req res httpRequest trace span sampled : val) : result A :=
  let* (h', fields) := request_log_fields env h req res httpRequest trace span sampled in
  info h' fields "Request finished".
(** [makeChildLogger]; [child] is [logger.child], whose last argument
    asks for a simple child. *)
Definition makeChildLogger {A : Type} (child : heap -> val -> bool -> result A)
    (h : heap) (trace span : val) : result A :=
  let '(h', fields) :=
    alloc_object h (OObj (assign_props [] [(LOGGING_TRACE_KEY, trace); (LOGGING_SPAN_KEY, span)])) in
  child h' fields true.

(** The middleware that [createLoggingMiddleware] returns;
    [makeMiddleware] is [commonMiddleware.express.makeMiddleware], and
    [child] and [info] are the methods of the logger. *)
Definition createLoggingMiddleware {A B C : Type}
    (makeMiddleware :
       string -> (heap -> val -> val -> result A) ->
       (heap -> val -> val -> val -> val -> result B) ->
       heap -> val -> val -> val -> result C)
    (env : environment) (projectId : string)
    (child : heap -> val -> bool -> result A) (info : heap -> val -> string -> result B)
  : heap -> val -> val -> val -> result C :=
  fun h req res next =>
    makeMiddleware projectId (makeChildLogger child)
      (fun h' httpRequest trace span sampled =>
         emitRequestLog info env h' req res httpRequest trace span sampled)
      h req res next.
End middleware.

End Logging.

(** ** Vocabulary of the statements *)

Module Vocabulary.
Import Json Js FastRedact Logging.

(** Reading a property where the read cannot throw. *)
Definition read (h : heap) (v : val) (k : string) : val :=
  match get h v k with
  | Ok x => x
  | Err _ => VUndefined
  end.

(** An environment variable set to a non-empty value. *)
Definition nonempty (o : option string) : option string :=
  match o with
  | Some s => if String.eqb s "" then None else Some s
  | None => None
  end.

(** The request summary of [serializers.req]. *)
Definition request_summary (h : heap) (req : val) : object :=
  let connection := read h req "connection" in
  OObj [("method", read h req "method");
        ("url", if truthy (read h req "originalUrl") then read h req "originalUrl"
                else read h req "url");
        ("query", read h req "query");
        ("body", read h req "body");
        ("headers", read h req "headers");
        ("remoteAddress", read h connection "remoteAddress");
        ("remotePort", read h connection "remotePort")].

(** The response summary of [serializers.res]. *)
Definition response_summary (h : heap) (res : val) : object :=
  OObj [("statusCode", read h res "statusCode"); ("header", read h res "_header")].

(** [{ ...c, serialize: s }] *)
Definition with_serialize (s : option Serialize) (c : ExtendedRedactOptions)
  : ExtendedRedactOptions :=
  {| paths := paths c; censor := censor c; serialize := s; strict := strict c;
     remove := remove c; globalReplace := globalReplace c |}.

(** The payload in the specification's words:
    [redact(parse(transform(serialize(rest))))]. *)
Definition spec_payload (redact : redactor) (transform : string -> string) (h : heap)
    (rest : list (string * val)) : result (heap * val) :=
  let* text := JSON_stringify_new h rest in
  let* (h1, parsed) := JSON_parse h (transform text) in
  redact h1 parsed.

(** The text transform of a configuration: its [globalReplace], or the
    identity when none is configured. *)
Definition configured_transform (redactConfig : option ExtendedRedactOptions)
    (transform : string -> string) : Prop :=
  match redactConfig with
  | Some c =>
      match globalReplace c with
      | Some g => transform = g
      | None => transform = (fun text => text)
      end
  | None => transform = (fun text => text)
  end.

Definition no_globalReplace (redactConfig : option ExtendedRedactOptions) : Prop :=
  match redactConfig with
  | Some c => globalReplace c = None
  | None => True
  end.

(** The tree that is handed, as a fresh copy, to the redactor. *)
Definition payload_tree (redactConfig : option ExtendedRedactOptions) (h : heap) (logRecord : val)
  : result json :=
  let* text := JSON_stringify_new h (rest_of (own_props h logRecord)) in
  parse (globalReplace_of redactConfig text).

(** What a record's redacted payload looks like: the tree of the value
    the redactor leaves behind for the fresh copy of the record's rest. *)
Definition redacted_payload (redact : redactor) (redactConfig : option ExtendedRedactOptions)
    (h : heap) (logRecord : val) : result (option json) :=
  let* j := payload_tree redactConfig h logRecord in
  redaction redact j h.

(** A value [requestUrl?.startsWith] can be asked of. *)
Definition url_like (v : val) : bool :=
  match v with
  | VStr _ | VUndefined | VNull => true
  | _ => false
  end.

(** The configuration asks for [remove]. *)
Definition asks_remove (redactConfig : option ExtendedRedactOptions) : bool :=
  match redactConfig with
  | Some c => default false (remove c)
  | None => false
  end.

(** Neither an object nor a function: a value that has no method of
    its own. *)
Definition not_object (v : val) : bool :=
  match v with
  | VRef _ | VFun _ => false
  | _ => true
  end.

(** The value is a BigInt, or leads to an object that holds a BigInt or
    leads back to itself. *)
Definition unserializable (h : heap) (v : val) : Prop :=
  (exists n, v = VBigInt n) \/
  exists l o w, reach h v l /\ h !! l = Some o /\ In w (fields o) /\
                ((exists n, w = VBigInt n) \/ reach h w l).

(** No object that [v] leads to has a [toJSON] method. *)
Definition no_toJSON (h : heap) (v : val) : Prop :=
  forall l ps, reach h v l -> h !! l = Some (OObj ps) -> has_toJSON ps = false.

(** [v.k1.k2...]: reading through [null] or [undefined] throws. *)
Fixpoint resolve (h : heap) (v : val) (path : list string) : result val :=
  match path with
  | [] => Ok v
  | k :: path' => let* next := get h v k in resolve h next path'
  end.

(** The value at a path of a tree, through objects. *)
Fixpoint jresolve (j : json) (path : list string) : option json :=
  match path with
  | [] => Some j
  | k :: path' =>
      match j with
      | JObj members =>
          match assoc k members with
          | Some x => jresolve x path'
          | None => None
          end
      | _ => None
      end
  end.

(** [q] is a proper prefix of [p]. *)
Definition proper_prefix (q p : list string) : Prop :=
  exists rest, rest <> [] /\ p = (q ++ rest)%list.

Definition is_some {A : Type} (o : option A) : bool :=
  match o with Some _ => true | None => false end.

(** [k] names a property that values inherit: [__proto__], or a
    property of one of the built-in prototypes of the store. *)
Definition inherited (R : Model.realm) (h : heap) (k : string) : bool :=
  String.eqb k "__proto__" ||
  existsb (fun p => is_some (Model.own h (VRef p) k)) (Model.prototypes R).

(** A key that stays within the own properties of a value: it is not
    inherited, and it is not [length], which an array has of its own
    but does not let the redactor write. *)
Definition plain_key (R : Model.realm) (h : heap) (k : string) : bool :=
  negb (inherited R h k) && negb (String.eqb k "length").

(** Rules whose paths stay within own properties. *)
Definition plain_paths (R : Model.realm) (h : heap) (o : ExtendedRedactOptions) : bool :=
  forallb (forallb (plain_key R h)) (paths o).

(** The store holds the built-in prototypes. *)
Definition realm_in (R : Model.realm) (h : heap) : bool :=
  forallb (fun p => (p <? length h)%nat) (Model.prototypes R).

(** An exception of the program, as opposed to a run for which the
    embedding has no answer. *)
Definition thrown (e : error) : Prop :=
  match e with
  | TypeError _ | SyntaxError | RedactError => True
  | Unsupported | OutOfFuel => False
  end.

(** The reserved fields in the specification's words: version, level,
    name, host, pid, time and call site. *)
Definition reserved_fields : list string :=
  ["v"; "level"; "name"; "hostname"; "pid"; "time"; "src"].

(** A list of properties without the property [k]. *)
Fixpoint without_field (k : string) (ps : list (string * val)) : list (string * val) :=
  match ps with
  | [] => []
  | (k', v) :: ps' =>
      if String.eqb k' k then without_field k ps' else (k', v) :: without_field k ps'
  end.

(** The record minus the reserved fields. *)
Definition without_reserved (ps : list (string * val)) : list (string * val) :=
  fold_right without_field ps reserved_fields.

(** The value a key has once every property of [source] has been set in
    order: that of the last property of that name. *)
Definition last_value (k : string) (source : list (string * val)) : option val :=
  assoc k (rev source).

End Vocabulary.

(** ** Shapes of the store *)

Module Shapes.
Import Json Js FastRedact.

(** The serializer reads a built tree back, under any stack of older
    objects and whatever is built afterwards. *)
Definition reads_back (j : json) : Prop :=
  forall h st n more,
    (size j <= n)%nat ->
    (forall x, In x st -> (length (alloc j h).1 <= x)%nat) ->
    to_json n ((alloc j h).1 ++ more)%list st (alloc j h).2 = Ok (Some j).

(** What redaction keeps of a built object at [c] with properties
    [ps2] while it leaves the field [k] alone: the store [H] refers to
    nothing new, the object's references are the original ones, the
    field is the original one and so is everything it leads to. *)
Definition spared (h2 H : list object) (c : loc) (ps2 : list (string * val)) (k : string)
  : Prop :=
  fewer_refs h2 H /\
  (exists psH, H !! c = Some (OObj psH) /\
     (forall k' y, assoc k' psH = Some (VRef y) -> assoc k' ps2 = Some (VRef y)) /\
     assoc k psH = assoc k ps2) /\
  (forall v x, assoc k ps2 = Some v -> reach h2 v x -> H !! x = h2 !! x).

(** A path through plain objects of the store, and the value it ends at. *)
Fixpoint chain (H : list object) (v : val) (path : list string) (final : val) : Prop :=
  match path with
  | [] => v = final
  | k :: path' =>
      exists l ps next,
        v = VRef l /\ H !! l = Some (OObj ps) /\ assoc k ps = Some next /\
        chain H next path' final
  end.

(** Every reference held in [H] is held at the same place in [h2]. *)
Definition same_refs (h2 H : list object) : Prop :=
  forall l k y, get H (VRef l) k = Ok (VRef y) -> get h2 (VRef l) k = Ok (VRef y).

(** A value of which the model of the library knows what it answers:
    no function and no BigInt. *)
Definition plain_value (w : val) : Prop :=
  match w with
  | VFun _ | VBigInt _ => False
  | _ => True
  end.

(** A value that leads to no function and no BigInt, as [JSON.parse]
    builds them. *)
Definition data (h : list object) (x : val) : Prop :=
  plain_value x /\
  forall l o w, reach h x l -> h !! l = Some o -> In w (fields o) -> plain_value w.

(** [h'] is [h] with values of some objects replaced by primitive
    values that are no BigInt: the objects are the same in number and
    in kind, with the same keys. *)
Definition censored (h h' : list object) : Prop :=
  forall l o', h' !! l = Some o' ->
    exists o, h !! l = Some o /\
      forall w, In w (fields o') -> In w (fields o) \/ exists a, w = of_atom a.

(** The objects that [alloc] builds hold no function and no BigInt. *)
Definition builds_data (j : json) : Prop :=
  forall h, plain_value (alloc j h).2 /\
    exists new, (alloc j h).1 = (h ++ new)%list /\
                Forall (fun o => Forall plain_value (fields o)) new.

End Shapes.

(** ** Sample stores and rule sets *)

Module Samples.
Import Json Js FastRedact Logging.

Definition rules : ExtendedRedactOptions :=
  {| paths := [["password"]; ["req"; "headers"; "authorization"]];
     censor := None; serialize := None; strict := None; remove := None;
     globalReplace := None |}.

(** A request with its headers, and a record that refers to it. *)
Definition store : heap :=
  [OObj [("authorization", VStr "Bearer x"); ("host", VStr "a")];
   OObj [("headers", VRef 0); ("url", VStr "/")];
   OObj [("v", VNum 0); ("level", VNum 30); ("msg", VStr "hi"); ("user", VStr "a");
         ("password", VStr "secret"); ("req", VRef 1); ("extra", VUndefined)]].

Definition record : loc := 2%nat.

(** The fields of a second record for the same request. *)
Definition second_fields : list (string * val) :=
  [("level", VNum 30); ("msg", VStr "again"); ("req", VRef 1)].

(** A [globalReplace] that returns a record with a [level] of its own. *)
Definition injecting : ExtendedRedactOptions :=
  {| paths := []; censor := None; serialize := None; strict := None; remove := None;
     globalReplace := Some (fun _ => print (JObj [("level", JNum 99)])) |}.

(** A [globalReplace] that returns the JSON number [1], with and
    without a path rule. *)
Definition flattening (ps : list (list string)) : ExtendedRedactOptions :=
  {| paths := ps; censor := None; serialize := None; strict := None; remove := None;
     globalReplace := Some (fun _ => "1") |}.

Definition no_env : environment := fun _ => None.

Definition service_env : environment :=
  fun k => if String.eqb k "GAE_SERVICE" then Some "svc" else None.

(** The redactor the model compiles for [rules]. *)
Definition sample_redact : redactor := Model.redact (redact_options (Some rules)).

(** An [err] serializer that passes its argument through. *)
Definition plain_err : serializer := fun h v => Ok (h, v).

(** bunyan's [_emit], here a function that writes nothing. *)
Definition quiet : emitter := fun h logRecord => Ok (h, VUndefined).

(** The logger built under [service_env] at level [debug] with [rules]. *)
Definition service_logger : Logger :=
  {| name := "svc";
     streams := [LoggingBunyanStream true false (LevelName "debug")];
     serializers := createDetailedRequestSerializers plain_err;
     _emit := emit_apply quiet sample_redact (Some rules) |}.

(** The logger built without environment, rules or a usable level. *)
Definition default_logger : Logger :=
  {| name := "default";
     streams := [PrettyStdoutStream "short" (LevelName "info")];
     serializers := createDetailedRequestSerializers plain_err;
     _emit := emit_apply quiet (Model.redact (redact_options None)) None |}.

Definition function_env : environment :=
  fun k => if String.eqb k "K_SERVICE" then Some "fn" else None.

(** The keys exported by @google-cloud/logging-bunyan. *)
Definition trace_key : string := "logging.googleapis.com/trace".
Definition span_key : string := "logging.googleapis.com/spanId".
Definition sampled_key : string := "logging.googleapis.com/trace_sampled".

(** The [httpRequest] of a request for [/a?b]. *)
Definition http_store : heap := [OObj [("requestUrl", VStr "/a?b"); ("status", VNum 200)]].

(** The store after its completion record is built under [function_env]. *)
Definition completion_store : heap :=
  [OObj [("requestUrl", VStr "/a?b"); ("status", VNum 200)];
   OObj [("requestUrl", VStr "/fn/a?b"); ("status", VNum 200)];
   OObj [("httpRequest", VRef 1); (trace_key, VStr "t"); (span_key, VUndefined);
         (sampled_key, VUndefined)];
   OObj [("req", VStr "req"); ("res", VStr "res"); ("httpRequest", VRef 1);
         (trace_key, VStr "t"); (span_key, VUndefined); (sampled_key, VUndefined)]].

(** The logger built under [function_env] without options. *)
Definition function_logger : Logger :=
  {| name := "fn";
     streams := [LoggingBunyanStream true false (LevelName "info")];
     serializers := createDetailedRequestSerializers plain_err;
     _emit := emit_apply quiet (Model.redact (redact_options None)) None |}.

(** [logger.child], here a function that returns the bound fields. *)
Definition bound_fields : heap -> val -> bool -> result (heap * val) :=
  fun h fields simple => Ok (h, fields).

(** A request and its connection. *)
Definition request_store : heap :=
  [OObj [("remoteAddress", VStr "10.0.0.1"); ("remotePort", VNum 443)];
   OObj [("method", VStr "GET"); ("url", VStr "/x"); ("connection", VRef 0)]].

(** The store after the request is summarized. *)
Definition summary_store : heap :=
  request_store ++
  [OObj [("method", VStr "GET"); ("url", VStr "/x"); ("query", VUndefined);
         ("body", VUndefined); ("headers", VUndefined); ("remoteAddress", VStr "10.0.0.1");
         ("remotePort", VNum 443)]].

(** The store and the copy of the record of [store]. *)
Definition copied_store : heap :=
  store ++
  [OObj [("authorization", VStr "Bearer x"); ("host", VStr "a")];
   OObj [("headers", VRef 3); ("url", VStr "/")];
   OObj [("msg", VStr "hi"); ("user", VStr "a"); ("password", VStr "secret");
         ("req", VRef 4)]].

(** The tree of the record of [store] that is handed to the redactor. *)
Definition record_tree : json :=
  JObj [("msg", JStr "hi"); ("user", JStr "a"); ("password", JStr "secret");
        ("req", JObj [("headers", JObj [("authorization", JStr "Bearer x");
                                        ("host", JStr "a")]);
                      ("url", JStr "/")])].

(** Rules with a [globalReplace] that returns the empty object. *)
Definition dropping : ExtendedRedactOptions :=
  {| paths := [["password"]]; censor := None; serialize := None; strict := None;
     remove := None; globalReplace := Some (fun _ => "{}") |}.

(** A response. *)
Definition response_store : heap :=
  [OObj [("statusCode", VNum 200); ("_header", VStr "HTTP/1.1 200 OK")]].

(** A record that holds an object which refers to itself. *)
Definition cyclic_store : heap :=
  [OObj [("self", VRef 0)]; OObj [("level", VNum 30); ("msg", VStr "hi"); ("user", VRef 0)]].

(** bunyan's [Logger.createLogger], here one that accepts every level. *)
Definition bunyan : string -> list Stream -> Serializers -> result emitter :=
  fun name streams serializers => Ok quiet.

(** Some properties of the built-in prototypes of objects, arrays,
    strings, numbers and booleans. *)
Definition builtins : list object :=
  [OObj [("constructor", VFun "Object"); ("toString", VFun "toString");
         ("valueOf", VFun "valueOf"); ("hasOwnProperty", VFun "hasOwnProperty")];
   OObj [("constructor", VFun "Array"); ("push", VFun "push"); ("slice", VFun "slice")];
   OObj [("constructor", VFun "String"); ("trim", VFun "trim")];
   OObj [("constructor", VFun "Number"); ("toFixed", VFun "toFixed")];
   OObj [("constructor", VFun "Boolean")]].

(** [store] with the prototypes behind it, and where they are. *)
Definition realm_store : heap := (store ++ builtins)%list.

Definition sample_realm : Model.realm :=
  {| Model.ObjectPrototype := 3; Model.ArrayPrototype := 4; Model.StringPrototype := 5;
     Model.NumberPrototype := 6; Model.BooleanPrototype := 7 |}.

(** Rules with a path through the prototype of the payload. *)
Definition polluting : ExtendedRedactOptions :=
  {| paths := [["__proto__"; "valueOf"]]; censor := None; serialize := None; strict := None;
     remove := None; globalReplace := None |}.

(** Rules with a path that names an inherited property of the payload. *)
Definition shadowing : ExtendedRedactOptions :=
  {| paths := [["constructor"]]; censor := None; serialize := None; strict := None;
     remove := None; globalReplace := None |}.

(** Rules with a path that names a core field. *)
Definition leveling : ExtendedRedactOptions :=
  {| paths := [["level"]; ["password"]]; censor := None; serialize := None; strict := None;
     remove := None; globalReplace := None |}.

(** Rules that ask for the redacted properties to be removed. *)
Definition removing : ExtendedRedactOptions :=
  {| paths := [["password"]]; censor := None; serialize := None; strict := None;
     remove := Some true; globalReplace := None |}.

(** A [globalReplace] that returns a text with a repeated key. *)
Definition repeating : ExtendedRedactOptions :=
  {| paths := []; censor := None; serialize := None; strict := None; remove := None;
     globalReplace := Some (fun _ => "{" ++ print_string "a" ++ ":1," ++ print_string "a" ++ ":2}") |}.

End Samples.

(** * Properties *)

(** ** JSON text: [JSON.parse] inverts [JSON.stringify] *)

Module JsonFacts.
Import Json.

Example print_example :
  print (JArr [JNum (-12); JNull; JBool true; JArr []; JObj []]) = "[-12,null,true,[],{}]".
Proof. reflexivity. Qed.

Example print_string_example :
  print (JObj [("a", JStr "x")])
  = String "{" (String dquote (String "a" (String dquote (String ":"
      (String dquote (String "x" (String dquote "}"))))))).
Proof. reflexivity. Qed.

Example parse_example :
  parse " [ 1, 20 ,[true , null], {} ] "
  = Ok (JArr [JNum 1; JNum 20; JArr [JBool true; JNull]; JObj []]).
Proof. vm_compute. reflexivity. Qed.

(** A repeated key keeps its place and takes the later value. *)
Example parse_repeated_key :
  parse (String "{" (print_string "a" ++ ":1," ++ print_string "b" ++ ":2,"
                       ++ print_string "a" ++ ":3}"))
  = Ok (JObj [("a", JNum 3); ("b", JNum 2)]).
Proof. vm_compute. reflexivity. Qed.

Example parse_rejects_bare_word : parse "[REDACTED]" = Err SyntaxError.
Proof. vm_compute. reflexivity. Qed.

Example parse_rejects_leading_zero : parse "01" = Err SyntaxError.
Proof. vm_compute. reflexivity. Qed.

Lemma parse_chars_escape_char c r :
  parse_chars (escape_char c ++ r) =
  let* (str, r') := parse_chars r in Ok (String c str, r').
Proof.
  destruct c as [[] [] [] [] [] [] [] []]; reflexivity.
Qed.

Lemma append_assoc (a b c : string) : (a ++ b) ++ c = a ++ (b ++ c).
Proof. induction a; simpl; congruence. Qed.

Lemma parse_chars_escape s rest :
  parse_chars (escape s ++ String dquote rest) = Ok (s, rest).
Proof.
  induction s as [|c s IH]; [reflexivity|].
  simpl escape. rewrite append_assoc, parse_chars_escape_char, IH. reflexivity.
Qed.

Lemma take_digits_uint d rest :
  match rest with "" => true | String c _ => negb (is_digit c) end = true ->
  take_digits (NilEmpty.string_of_uint d ++ rest) = (NilEmpty.string_of_uint d, rest).
Proof.
  intros Hrest. induction d; simpl; rewrite ?IHd; try reflexivity.
  destruct rest as [|c r]; [reflexivity|]. simpl.
  apply negb_true_iff in Hrest. rewrite Hrest. reflexivity.
Qed.

Lemma uint_eqb_refl d : uint_eqb d d = true.
Proof. unfold uint_eqb. destruct (Decimal.uint_eq_dec d d); congruence. Qed.

Lemma canonical_to_uint n : canonical (N.to_uint n) = true.
Proof.
  unfold canonical.
  assert (Hn : Decimal.unorm (N.to_uint n) = N.to_uint n).
  { rewrite <- (DecimalN.Unsigned.of_to n) at 2. symmetry. apply DecimalN.Unsigned.to_of. }
  rewrite Hn, uint_eqb_refl, andb_true_r.
  unfold uint_eqb. destruct (Decimal.uint_eq_dec (N.to_uint n) Decimal.Nil) as [E|]; [|reflexivity].
  destruct n; [discriminate E|]. exfalso. exact (DecimalPos.Unsigned.to_uint_nonnil _ E).
Qed.

Lemma ends_value_digit rest :
  ends_value rest = true ->
  match rest with "" => true | String c _ => negb (is_digit c) end = true.
Proof. destruct rest; simpl; [reflexivity|]. intros H. apply andb_true_iff in H. tauto. Qed.

Lemma ends_value_fraction rest : ends_value rest = true -> starts_fraction rest = false.
Proof.
  destruct rest; [reflexivity|]. unfold ends_value.
  intros H. apply andb_true_iff in H. destruct H as [_ H]. apply negb_true_iff in H. exact H.
Qed.

Lemma parse_unsigned_print n rest :
  ends_value rest = true ->
  parse_unsigned (NilEmpty.string_of_uint (N.to_uint n) ++ rest) = Ok (n, rest).
Proof.
  intros H. unfold parse_unsigned.
  rewrite take_digits_uint by (apply ends_value_digit; exact H).
  rewrite NilEmpty.usu, canonical_to_uint, (ends_value_fraction _ H).
  rewrite DecimalN.Unsigned.of_to. reflexivity.
Qed.

Lemma string_of_uint_opens d : d <> Decimal.Nil -> opens_digit (NilEmpty.string_of_uint d).
Proof.
  intros Hd. destruct d; [congruence| ..]; simpl; eexists _, _; (split; [reflexivity|]); simpl; tauto.
Qed.

Lemma to_uint_nonnil n : N.to_uint n <> Decimal.Nil.
Proof. destruct n; [discriminate|]. apply DecimalPos.Unsigned.to_uint_nonnil. Qed.

Lemma parse_number_digit s rest :
  opens_digit s ->
  parse_number (s ++ rest) = let* (n, r) := parse_unsigned (s ++ rest) in Ok (Z.of_N n, r).
Proof.
  intros (c & s' & -> & Hc). simpl in Hc.
  repeat (destruct Hc as [<- | Hc]; [reflexivity|]). destruct Hc.
Qed.

Lemma parse_number_print z rest :
  ends_value rest = true ->
  parse_number (print_number z ++ rest) = Ok (z, rest).
Proof.
  intros H. destruct z as [|p|p].
  - change (print_number 0) with (NilEmpty.string_of_uint (N.to_uint 0)).
    rewrite parse_number_digit by (apply string_of_uint_opens, to_uint_nonnil).
    rewrite parse_unsigned_print by exact H. reflexivity.
  - change (print_number (Z.pos p)) with (NilEmpty.string_of_uint (N.to_uint (N.pos p))).
    rewrite parse_number_digit by (apply string_of_uint_opens, to_uint_nonnil).
    rewrite parse_unsigned_print by exact H. reflexivity.
  - change (print_number (Z.neg p) ++ rest)
      with (String "-" (NilEmpty.string_of_uint (N.to_uint (N.pos p)) ++ rest)).
    unfold parse_number. rewrite parse_unsigned_print by exact H. reflexivity.
Qed.

Lemma print_number_opens z : opens_value (print_number z).
Proof.
  destruct z as [|p|p].
  - eexists _, _. split; [reflexivity|]. simpl; tauto.
  - destruct (string_of_uint_opens (N.to_uint (N.pos p)) (to_uint_nonnil _)) as (c & s' & E & Hc).
    exists c, s'. split; [exact E|]. simpl in *. tauto.
  - eexists _, _. split; [reflexivity|]. simpl; tauto.
Qed.

Lemma print_opens j : opens_value (print j).
Proof.
  destruct j as [|[]|n|s|[|x l]|[|[k x] l]]; try apply print_number_opens;
    (eexists _, _; split; [reflexivity|]; simpl; tauto).
Qed.

Lemma parse_value_number n z rest :
  parse_value (S n) (print_number z ++ rest) =
  let* (z', r) := parse_number (print_number z ++ rest) in Ok (JNum z', r).
Proof.
  assert (H : forall s, (opens_digit s \/ exists s', s = String "-" s') ->
     parse_value (S n) (s ++ rest) = let* (z', r) := parse_number (s ++ rest) in Ok (JNum z', r)).
  { intros s [(c & s' & -> & Hc) | (s' & ->)]; [|reflexivity].
    simpl in Hc. repeat (destruct Hc as [<- | Hc]; [reflexivity|]). destruct Hc. }
  apply H. destruct z as [|p|p].
  - left. apply (string_of_uint_opens (N.to_uint 0)), to_uint_nonnil.
  - left. apply (string_of_uint_opens (N.to_uint (N.pos p))), to_uint_nonnil.
  - right. eexists. reflexivity.
Qed.

(** No value starts with white space or a closing bracket. *)
Lemma skip_ws_opens s r : opens_value s -> skip_ws (s ++ r) = s ++ r.
Proof.
  intros (c & s' & -> & Hc). simpl in Hc.
  repeat (destruct Hc as [<- | Hc]; [reflexivity|]). destruct Hc.
Qed.

Lemma not_closing_opens s r : opens_value s -> strip_prefix "]" (s ++ r) = None.
Proof.
  intros (c & s' & -> & Hc). simpl in Hc.
  repeat (destruct Hc as [<- | Hc]; [reflexivity|]). destruct Hc.
Qed.

Lemma print_array x l :
  print (JArr (x :: l)) = String "[" (print x ++ print_items_tail l).
Proof. reflexivity. Qed.

Lemma print_object k x l :
  print (JObj ((k, x) :: l))
  = String "{" (print_string k ++ String ":" (print x ++ print_members_tail l)).
Proof. reflexivity. Qed.

Lemma parse_value_array n r :
  parse_value (S n) (String "[" r) =
  match strip_prefix "]" (skip_ws r) with
  | Some r' => Ok (JArr [], r')
  | None => let* (j, r1) := parse_value n r in
            let* (js, r2) := parse_elements n r1 in Ok (JArr (j :: js), r2)
  end.
Proof. reflexivity. Qed.

Lemma parse_value_object n r :
  parse_value (S n) (String "{" r) =
  match strip_prefix "}" (skip_ws r) with
  | Some r' => Ok (JObj [], r')
  | None => let* (m, r1) := parse_member (parse_value n) r in
            let* (ms, r2) := parse_members n r1 in Ok (JObj (build_members (m :: ms)), r2)
  end.
Proof. reflexivity. Qed.

Lemma parse_elements_comma n r :
  parse_elements (S n) (String "," r) =
  let* (j, r1) := parse_value n r in
  let* (js, r2) := parse_elements n r1 in Ok (j :: js, r2).
Proof. reflexivity. Qed.

Lemma parse_members_comma n r :
  parse_members (S n) (String "," r) =
  let* (m, r1) := parse_member (parse_value n) r in
  let* (ms, r2) := parse_members n r1 in Ok (m :: ms, r2).
Proof. reflexivity. Qed.

Lemma parse_member_quote pv r :
  parse_member pv (String dquote r) =
  let* (k, r1) := parse_chars r in
  match strip_prefix ":" (skip_ws r1) with
  | Some r2 => let* (j, r3) := pv r2 in Ok ((k, j), r3)
  | None => Err SyntaxError
  end.
Proof. reflexivity. Qed.

Lemma parse_member_print pv k x r :
  pv (print x ++ r) = Ok (x, r) ->
  parse_member pv (print_string k ++ String ":" (print x ++ r)) = Ok ((k, x), r).
Proof.
  intros Hpv. unfold print_string. cbn [append].
  rewrite parse_member_quote, append_assoc. cbn [append].
  rewrite parse_chars_escape. cbn [rbind].
  change (strip_prefix ":" (skip_ws (String ":" (print x ++ r)))) with (Some (print x ++ r)).
  cbv iota beta. rewrite Hpv. reflexivity.
Qed.

Lemma ends_value_items l rest : ends_value (print_items_tail l ++ rest) = true.
Proof. destruct l; reflexivity. Qed.

Lemma ends_value_members l rest : ends_value (print_members_tail l ++ rest) = true.
Proof. destruct l as [|[k x] l]; reflexivity. Qed.

Lemma set_member_fresh {A} k (v : A) acc :
  existsb (String.eqb k) (map fst acc) = false ->
  set_member k v acc = (acc ++ [(k, v)])%list.
Proof.
  induction acc as [|[k' v'] acc IH]; simpl; [reflexivity|].
  intros H. apply orb_false_iff in H. destruct H as [H1 H2].
  rewrite String.eqb_sym, H1, IH by exact H2. reflexivity.
Qed.

Lemma existsb_app_false {A} (f : A -> bool) l1 l2 :
  existsb f (l1 ++ l2)%list = false <-> existsb f l1 = false /\ existsb f l2 = false.
Proof. rewrite existsb_app, orb_false_iff. tauto. Qed.

Lemma build_members_distinct_gen {A} (l acc : list (string * A)) :
  distinct (map fst (acc ++ l)%list) = true ->
  fold_left (fun acc kv => set_member (fst kv) (snd kv) acc) l acc = (acc ++ l)%list.
Proof.
  revert acc. induction l as [|[k v] l IH]; intros acc H; simpl.
  - rewrite app_nil_r. reflexivity.
  - rewrite set_member_fresh.
    + rewrite IH; rewrite <- app_assoc; [reflexivity | exact H].
    + clear IH. induction acc as [|[k' v'] acc IHa]; [reflexivity|].
      simpl in H |- *. apply andb_true_iff in H. destruct H as [H1 H2].
      apply negb_true_iff in H1. rewrite map_app in H1.
      apply existsb_app_false in H1. destruct H1 as [_ H1]. simpl in H1.
      apply orb_false_iff in H1. destruct H1 as [H1 _].
      rewrite String.eqb_sym, H1. simpl. apply IHa, H2.
Qed.

Lemma build_members_distinct {A} (l : list (string * A)) :
  distinct (map fst l) = true -> build_members l = l.
Proof. intros H. apply (build_members_distinct_gen l []). exact H. Qed.

Lemma parse_print_value j :
  unique_keys j = true ->
  forall fuel rest, (size j < fuel)%nat -> ends_value rest = true ->
  parse_value fuel (print j ++ rest) = Ok (j, rest).
Proof.
  induction j as [|b|z|s|items IH|members IH] using json_ind; intros Hu fuel rest Hf Hr;
    (destruct fuel as [|n]; [lia|]).
  - reflexivity.
  - destruct b; reflexivity.
  - change (print (JNum z)) with (print_number z).
    rewrite parse_value_number, parse_number_print by exact Hr. reflexivity.
  - change (parse_value (S n) (print (JStr s) ++ rest))
      with (let* (str, r') := parse_chars ((escape s ++ String dquote "") ++ rest) in
            Ok (JStr str, r')).
    rewrite append_assoc. simpl append at 2. rewrite parse_chars_escape. reflexivity.
  - destruct items as [|x l]; [reflexivity|].
    rewrite print_array. cbn [append]. rewrite parse_value_array, append_assoc.
    rewrite skip_ws_opens, not_closing_opens by apply print_opens.
    simpl in Hu, Hf. apply andb_true_iff in Hu. destruct Hu as [Hx Hl].
    inversion IH as [|? ? IHx IHl]; subst.
    rewrite IHx by (try apply ends_value_items; try exact Hx; lia). cbn [rbind].
    assert (Hel : forall l, Forall (fun j => unique_keys j = true ->
                forall fuel rest, (size j < fuel)%nat -> ends_value rest = true ->
                parse_value fuel (print j ++ rest) = Ok (j, rest)) l ->
              forallb unique_keys l = true ->
              forall n, (fold_right (fun x n => S (size x + n)) O l < n)%nat ->
              parse_elements n (print_items_tail l ++ rest) = Ok (l, rest)).
    { clear. intros l IH. induction IH as [|y l IHy _ IHl]; intros Hu n Hn;
        (destruct n as [|n]; [lia|]); [reflexivity|].
      simpl in Hu, Hn. apply andb_true_iff in Hu. destruct Hu as [Hy Hl].
      cbn [print_items_tail append]. rewrite parse_elements_comma, append_assoc.
      rewrite IHy by (try apply ends_value_items; try exact Hy; lia). cbn [rbind].
      rewrite IHl by (try exact Hl; lia). reflexivity. }
    rewrite (Hel l IHl Hl) by lia. reflexivity.
  - destruct members as [|[k x] l]; [reflexivity|].
    rewrite print_object. cbn [append]. rewrite parse_value_object.
    assert (Hq : strip_prefix "}"
                   (skip_ws ((print_string k ++ String ":" (print x ++ print_members_tail l))
                             ++ rest)) = None) by reflexivity.
    rewrite Hq.
    rewrite !append_assoc. cbn [append]. rewrite !append_assoc.
    simpl in Hu, Hf. apply andb_true_iff in Hu. destruct Hu as [Hd Hu].
    apply andb_true_iff in Hu. destruct Hu as [Hx Hl].
    inversion IH as [|? ? IHx IHl]; subst. simpl in IHx.
    rewrite parse_member_print
      by (apply IHx; try apply ends_value_members; try exact Hx; lia).
    cbn [rbind].
    assert (Hel : forall l, Forall (fun kv => unique_keys (snd kv) = true ->
                forall fuel rest, (size (snd kv) < fuel)%nat -> ends_value rest = true ->
                parse_value fuel (print (snd kv) ++ rest) = Ok (snd kv, rest)) l ->
              forallb (fun kv => unique_keys (snd kv)) l = true ->
              forall n, (fold_right (fun kv n => S (size (snd kv) + n)) O l < n)%nat ->
              parse_members n (print_members_tail l ++ rest) = Ok (l, rest)).
    { clear. intros l IH. induction IH as [|[k y] l IHy _ IHl]; intros Hu n Hn;
        (destruct n as [|n]; [lia|]); [reflexivity|].
      simpl in Hu, Hn, IHy. apply andb_true_iff in Hu. destruct Hu as [Hy Hl].
      cbn [print_members_tail append]. rewrite parse_members_comma, !append_assoc.
      cbn [append]. rewrite !append_assoc.
      rewrite parse_member_print
        by (apply IHy; try apply ends_value_members; try exact Hy; lia).
      cbn [rbind].
      rewrite IHl by (try exact Hl; lia). reflexivity. }
    rewrite (Hel l IHl Hl) by lia. cbn [rbind].
    rewrite build_members_distinct by exact Hd. reflexivity.
Qed.

Lemma length_append (a b : string) :
  String.length (a ++ b) = (String.length a + String.length b)%nat.
Proof. induction a; simpl; congruence. Qed.

Lemma length_opens s : opens_value s -> (1 <= String.length s)%nat.
Proof. intros (c & s' & -> & _). simpl. lia. Qed.

Lemma size_le_length j : (size j <= String.length (print j))%nat.
Proof.
  induction j as [|b|z|s|items IH|members IH] using json_ind.
  - simpl. lia.
  - destruct b; simpl; lia.
  - apply (length_opens (print (JNum z))), print_opens.
  - simpl. lia.
  - destruct items as [|x l]; [simpl; lia|].
    rewrite print_array. inversion IH as [|? ? IHx IHl]; subst.
    cbn [size fold_right String.length]. rewrite length_append.
    assert (fold_right (fun x n => S (size x + n)) O l
            < String.length (print_items_tail l))%nat; [|lia].
    clear -IHl. induction IHl as [|y l Hy _ IHl]; cbn [fold_right print_items_tail String.length];
      [lia|]. rewrite length_append. lia.
  - destruct members as [|[k x] l]; [simpl; lia|].
    rewrite print_object. inversion IH as [|? ? IHx IHl]; subst. simpl in IHx.
    cbn [size fold_right String.length snd]. rewrite !length_append.
    cbn [String.length]. rewrite length_append.
    assert (fold_right (fun kv n => S (size (snd kv) + n)) O l
            < String.length (print_members_tail l))%nat; [|lia].
    clear -IHl. induction IHl as [|[k y] l Hy _ IHl];
      cbn [fold_right print_members_tail String.length snd]; [lia|].
    rewrite !length_append. cbn [String.length]. rewrite length_append. simpl in Hy. lia.
Qed.

Lemma append_empty_r (a : string) : a ++ "" = a.
Proof. induction a; simpl; congruence. Qed.

(** [JSON.parse] inverts [JSON.stringify] on trees without repeated keys. *)
Lemma parse_print j : unique_keys j = true -> parse (print j) = Ok j.
Proof.
  intros Hu. unfold parse.
  rewrite <- (append_empty_r (print j)) at 2.
  rewrite parse_print_value; try assumption; try reflexivity.
  pose proof (size_le_length j). lia.
Qed.


(** *** [JSON.parse] is total *)

Lemma skip_ws_length s : (String.length (skip_ws s) <= String.length s)%nat.
Proof. induction s as [|c s IH]; simpl; [lia|]. destruct (is_ws c); simpl; lia. Qed.

Lemma strip_prefix_length w s r :
  strip_prefix w s = Some r -> String.length s = (String.length w + String.length r)%nat.
Proof.
  revert s. induction w as [|a w IH]; intros s H; simpl in H.
  - injection H as <-. reflexivity.
  - destruct s as [|b s]; [discriminate|]. destruct (Ascii.eqb a b); [|discriminate].
    simpl. rewrite (IH _ H). reflexivity.
Qed.

Lemma take_digits_length s d r :
  take_digits s = (d, r) -> String.length s = (String.length d + String.length r)%nat.
Proof.
  revert d r. induction s as [|c s IH]; intros d r H; simpl in H.
  - injection H as <- <-. reflexivity.
  - destruct (is_digit c).
    + destruct (take_digits s) as [d' r'] eqn:E. injection H as <- <-.
      simpl. rewrite (IH _ _ eq_refl). reflexivity.
    + injection H as <- <-. reflexivity.
Qed.

Lemma parse_unsigned_length s n r :
  parse_unsigned s = Ok (n, r) -> (String.length r <= String.length s)%nat.
Proof.
  unfold parse_unsigned. destruct (take_digits s) as [d r'] eqn:E.
  destruct (NilEmpty.uint_of_string d); [|discriminate].
  destruct (canonical u); [|discriminate]. destruct (starts_fraction r'); [discriminate|].
  intros [= <- <-]. rewrite (take_digits_length _ _ _ E). lia.
Qed.

Lemma parse_unsigned_digit c s n r :
  is_digit c = true -> parse_unsigned (String c s) = Ok (n, r) ->
  (String.length r <= String.length s)%nat.
Proof.
  intros Hc. unfold parse_unsigned. simpl. rewrite Hc.
  destruct (take_digits s) as [d r'] eqn:E.
  destruct (NilEmpty.uint_of_string _); [|discriminate].
  destruct (canonical u); [|discriminate]. destruct (starts_fraction r'); [discriminate|].
  intros [= <- <-]. rewrite (take_digits_length _ _ _ E). lia.
Qed.

Lemma parse_number_length s z r :
  starts_number s = true -> parse_number s = Ok (z, r) ->
  (String.length r < String.length s)%nat.
Proof.
  destruct s as [|c s]; [discriminate|]. unfold starts_number. intros Hc Hp.
  destruct (Ascii.eqb c "-") eqn:Em.
  - apply Ascii.eqb_eq in Em. subst c.
    change (parse_number (String "-" s))
      with (let* (n, r) := parse_unsigned s in Ok ((- Z.of_N n)%Z, r)) in Hp.
    destruct (parse_unsigned s) as [[n r']|e] eqn:E; [|discriminate].
    injection Hp as <- <-. apply parse_unsigned_length in E. simpl. lia.
  - cbn [orb] in Hc.
    assert (Hq : parse_number (String c s) =
                 let* (n, r) := parse_unsigned (String c s) in Ok (Z.of_N n, r)).
    { unfold parse_number. destruct c as [[] [] [] [] [] [] [] []]; try reflexivity.
      discriminate Em. }
    rewrite Hq in Hp. destruct (parse_unsigned (String c s)) as [[n r']|e] eqn:E; [|discriminate].
    injection Hp as <- <-. apply (parse_unsigned_digit _ _ _ _ Hc) in E. simpl. lia.
Qed.

Lemma parse_unsigned_fuel s : parse_unsigned s <> Err OutOfFuel.
Proof.
  unfold parse_unsigned. destruct (take_digits s) as [d r].
  destruct (NilEmpty.uint_of_string d); [|discriminate].
  destruct (canonical u); [|discriminate]. destruct (starts_fraction r); discriminate.
Qed.

Lemma parse_number_fuel s : parse_number s <> Err OutOfFuel.
Proof.
  assert (H : forall s' (f : N -> Z),
            (let* (n, r) := parse_unsigned s' in Ok (f n, r)) <> Err OutOfFuel).
  { intros s' f. pose proof (parse_unsigned_fuel s') as Hs.
    destruct (parse_unsigned s') as [[n r]|e]; [discriminate|]. simpl. congruence. }
  unfold parse_number. destruct s as [|c s]; [apply (H "" Z.of_N)|].
  destruct c as [[] [] [] [] [] [] [] []]; try apply (H _ Z.of_N).
  apply (H s (fun n => (- Z.of_N n)%Z)).
Qed.

(** A string literal is read in one pass: no fuel, and something is consumed. *)
Lemma parse_chars_total n :
  forall s, (String.length s <= n)%nat ->
    parse_chars s <> Err OutOfFuel /\
    forall str r, parse_chars s = Ok (str, r) -> (String.length r < String.length s)%nat.
Proof.
  induction n as [|n IH]; intros s Hs.
  - destruct s; [|simpl in Hs; lia]. split; [discriminate|]. intros str r [=].
  - destruct s as [|c s]; [split; [discriminate|intros str r [=]]|]. simpl in Hs.
    assert (Hrec : forall s' (f : string -> string), (String.length s' <= String.length s)%nat ->
              (let* (str, r) := parse_chars s' in Ok (f str, r)) <> Err OutOfFuel /\
              forall str r, (let* (str, r) := parse_chars s' in Ok (f str, r)) = Ok (str, r) ->
                            (String.length r < String.length (String c s))%nat).
    { intros s' f Hs'. destruct (IH s') as [Hf Hl]; [lia|].
      destruct (parse_chars s') as [[str' r']|e]; simpl.
      - split; [discriminate|]. intros str r [= <- <-]. specialize (Hl _ _ eq_refl). lia.
      - split; [congruence|]. intros str r [=]. }
    cbn [parse_chars].
    destruct (Ascii.eqb c dquote); [split; [discriminate|intros str r [= <- <-]; simpl; lia]|].
    destruct (Ascii.eqb c "\").
    + destruct s as [|e s]; [split; [discriminate|intros str r [=]]|].
      destruct (unescape e) as [c'|]; [apply Hrec; simpl; lia|].
      destruct (Ascii.eqb e "u"); [|split; [discriminate|intros str r [=]]].
      destruct s as [|h1 [|h2 [|h3 [|h4 s5]]]]; try (split; [discriminate|intros str r [=]]).
      destruct (hex4 h1 h2 h3 h4) as [m|]; [|split; [discriminate|intros str r [=]]].
      destruct (m <? 256)%N; [apply Hrec; simpl; lia|split; [discriminate|intros str r [=]]].
    + destruct (N_of_ascii c <? 32)%N; [split; [discriminate|intros str r [=]]|].
      apply Hrec. lia.
Qed.

Lemma parse_chars_fuel s : parse_chars s <> Err OutOfFuel.
Proof. apply (parse_chars_total (String.length s)). lia. Qed.

Lemma parse_chars_length s str r :
  parse_chars s = Ok (str, r) -> (String.length r < String.length s)%nat.
Proof. apply (parse_chars_total (String.length s)). lia. Qed.

Lemma consumes_fail {A} (p : string -> result (A * string)) s e :
  p s = Err e -> e <> OutOfFuel -> consumes p s.
Proof. intros Hp He. split; [congruence|]. intros a r. rewrite Hp. discriminate. Qed.

Lemma consumes_done {A} (p : string -> result (A * string)) s a r :
  p s = Ok (a, r) -> (String.length r < String.length s)%nat -> consumes p s.
Proof.
  intros Hp Hl. split; [congruence|]. intros a' r'. rewrite Hp. intros [= <- <-]. exact Hl.
Qed.

Ltac no_result := split; [first [discriminate | congruence] | intros ? ? [=]].

Lemma parse_member_consumes pv s :
  (forall s', (String.length s' < String.length s)%nat -> consumes pv s') ->
  consumes (parse_member pv) s.
Proof.
  intros Hpv. pose proof (skip_ws_length s) as Hws. unfold consumes, parse_member.
  destruct (strip_prefix (String dquote "") (skip_ws s)) as [r|] eqn:E1; [|no_result].
  apply strip_prefix_length in E1. simpl in E1.
  pose proof (parse_chars_fuel r) as Hcf.
  destruct (parse_chars r) as [[k r1]|e] eqn:E2; cbn [rbind]; [|no_result].
  pose proof (parse_chars_length _ _ _ E2) as H2. pose proof (skip_ws_length r1) as Hws1.
  destruct (strip_prefix ":" (skip_ws r1)) as [r2|] eqn:E3; [|no_result].
  apply strip_prefix_length in E3. simpl in E3.
  destruct (Hpv r2) as [Hf Hl]; [lia|].
  destruct (pv r2) as [[j r3]|e]; cbn [rbind]; [|no_result].
  split; [discriminate|]. intros a r' [= <- <-]. specialize (Hl _ _ eq_refl). lia.
Qed.

Lemma parse_value_step n s :
  parse_value (S n) s =
  let s1 := skip_ws s in
  match strip_prefix "null" s1 with
  | Some r => Ok (JNull, r)
  | None =>
  match strip_prefix "true" s1 with
  | Some r => Ok (JBool true, r)
  | None =>
  match strip_prefix "false" s1 with
  | Some r => Ok (JBool false, r)
  | None =>
  match strip_prefix (String dquote "") s1 with
  | Some r => let* (str, r') := parse_chars r in Ok (JStr str, r')
  | None =>
  match strip_prefix "[" s1 with
  | Some r =>
      match strip_prefix "]" (skip_ws r) with
      | Some r' => Ok (JArr [], r')
      | None =>
          let* (j, r1) := parse_value n r in
          let* (js, r2) := parse_elements n r1 in
          Ok (JArr (j :: js), r2)
      end
  | None =>
  match strip_prefix "{" s1 with
  | Some r =>
      match strip_prefix "}" (skip_ws r) with
      | Some r' => Ok (JObj [], r')
      | None =>
          let* (m, r1) := parse_member (parse_value n) r in
          let* (ms, r2) := parse_members n r1 in
          Ok (JObj (build_members (m :: ms)), r2)
      end
  | None =>
      if starts_number s1 then
        let* (z, r') := parse_number s1 in Ok (JNum z, r')
      else Err SyntaxError
  end end end end end end.
Proof. reflexivity. Qed.

Lemma parse_elements_step n s :
  parse_elements (S n) s =
  match strip_prefix "]" (skip_ws s) with
  | Some r => Ok ([], r)
  | None =>
      match strip_prefix "," (skip_ws s) with
      | Some r =>
          let* (j, r1) := parse_value n r in
          let* (js, r2) := parse_elements n r1 in
          Ok (j :: js, r2)
      | None => Err SyntaxError
      end
  end.
Proof. reflexivity. Qed.

Lemma parse_members_step n s :
  parse_members (S n) s =
  match strip_prefix "}" (skip_ws s) with
  | Some r => Ok ([], r)
  | None =>
      match strip_prefix "," (skip_ws s) with
      | Some r =>
          let* (m, r1) := parse_member (parse_value n) r in
          let* (ms, r2) := parse_members n r1 in
          Ok (m :: ms, r2)
      | None => Err SyntaxError
      end
  end.
Proof. reflexivity. Qed.

(** Every recursive call of the parser is on a shorter text: with more
    fuel than characters it never runs out. *)
Lemma parser_consumes n :
  forall s, (String.length s < n)%nat ->
    consumes (parse_value n) s /\ consumes (parse_elements n) s /\ consumes (parse_members n) s.
Proof.
  induction n as [|n IH]; intros s Hs; [lia|].
  pose proof (skip_ws_length s) as Hws.
  assert (Hv : forall r, (String.length r < String.length s)%nat -> consumes (parse_value n) r)
    by (intros r Hr; apply IH; lia).
  assert (He : forall r, (String.length r < String.length s)%nat -> consumes (parse_elements n) r)
    by (intros r Hr; apply IH; lia).
  assert (Hm : forall r, (String.length r < String.length s)%nat -> consumes (parse_members n) r)
    by (intros r Hr; apply IH; lia).
  assert (Hmem : forall r, (String.length r < String.length s)%nat ->
                           consumes (parse_member (parse_value n)) r).
  { intros r Hr. apply parse_member_consumes. intros s' Hs'. apply Hv. lia. }
  split; [|split]; unfold consumes.
  - rewrite parse_value_step. cbv zeta.
    destruct (strip_prefix "null" (skip_ws s)) as [r|] eqn:E1.
    { apply strip_prefix_length in E1. simpl in E1.
      split; [discriminate|]. intros a r' [= <- <-]. lia. }
    destruct (strip_prefix "true" (skip_ws s)) as [r|] eqn:E2.
    { apply strip_prefix_length in E2. simpl in E2.
      split; [discriminate|]. intros a r' [= <- <-]. lia. }
    destruct (strip_prefix "false" (skip_ws s)) as [r|] eqn:E3.
    { apply strip_prefix_length in E3. simpl in E3.
      split; [discriminate|]. intros a r' [= <- <-]. lia. }
    destruct (strip_prefix (String dquote "") (skip_ws s)) as [r|] eqn:E4.
    { apply strip_prefix_length in E4. simpl in E4.
      pose proof (parse_chars_fuel r) as Hcf.
      destruct (parse_chars r) as [[str r1]|e] eqn:Ec; cbn [rbind]; [|no_result].
      pose proof (parse_chars_length _ _ _ Ec).
      split; [discriminate|]. intros a r' [= <- <-]. lia. }
    destruct (strip_prefix "[" (skip_ws s)) as [r|] eqn:E5.
    { apply strip_prefix_length in E5. simpl in E5. pose proof (skip_ws_length r) as Hwr.
      destruct (strip_prefix "]" (skip_ws r)) as [r'|] eqn:E6.
      { apply strip_prefix_length in E6. simpl in E6.
        split; [discriminate|]. intros a r0 [= <- <-]. lia. }
      destruct (Hv r) as [Hf Hl]; [lia|].
      destruct (parse_value n r) as [[j r1]|e]; cbn [rbind]; [|no_result].
      specialize (Hl _ _ eq_refl).
      destruct (He r1) as [Hf1 Hl1]; [lia|].
      destruct (parse_elements n r1) as [[js r2]|e]; cbn [rbind]; [|no_result].
      specialize (Hl1 _ _ eq_refl).
      split; [discriminate|]. intros a r0 [= <- <-]. lia. }
    destruct (strip_prefix "{" (skip_ws s)) as [r|] eqn:E7.
    { apply strip_prefix_length in E7. simpl in E7. pose proof (skip_ws_length r) as Hwr.
      destruct (strip_prefix "}" (skip_ws r)) as [r'|] eqn:E8.
      { apply strip_prefix_length in E8. simpl in E8.
        split; [discriminate|]. intros a r0 [= <- <-]. lia. }
      destruct (Hmem r) as [Hf Hl]; [lia|].
      destruct (parse_member (parse_value n) r) as [[m r1]|e]; cbn [rbind]; [|no_result].
      specialize (Hl _ _ eq_refl).
      destruct (Hm r1) as [Hf1 Hl1]; [lia|].
      destruct (parse_members n r1) as [[ms r2]|e]; cbn [rbind]; [|no_result].
      specialize (Hl1 _ _ eq_refl).
      split; [discriminate|]. intros a r0 [= <- <-]. lia. }
    destruct (starts_number (skip_ws s)) eqn:En; [|no_result].
    pose proof (parse_number_fuel (skip_ws s)) as Hnf.
    destruct (parse_number (skip_ws s)) as [[z r]|e] eqn:Ez; cbn [rbind]; [|no_result].
    pose proof (parse_number_length _ _ _ En Ez).
    split; [discriminate|]. intros a r' [= <- <-]. lia.
  - rewrite parse_elements_step.
    destruct (strip_prefix "]" (skip_ws s)) as [r|] eqn:E1.
    { apply strip_prefix_length in E1. simpl in E1.
      split; [discriminate|]. intros a r' [= <- <-]. lia. }
    destruct (strip_prefix "," (skip_ws s)) as [r|] eqn:E2; [|no_result].
    apply strip_prefix_length in E2. simpl in E2.
    destruct (Hv r) as [Hf Hl]; [lia|].
    destruct (parse_value n r) as [[j r1]|e]; cbn [rbind]; [|no_result].
    specialize (Hl _ _ eq_refl).
    destruct (He r1) as [Hf1 Hl1]; [lia|].
    destruct (parse_elements n r1) as [[js r2]|e]; cbn [rbind]; [|no_result].
    specialize (Hl1 _ _ eq_refl).
    split; [discriminate|]. intros a r0 [= <- <-]. lia.
  - rewrite parse_members_step.
    destruct (strip_prefix "}" (skip_ws s)) as [r|] eqn:E1.
    { apply strip_prefix_length in E1. simpl in E1.
      split; [discriminate|]. intros a r' [= <- <-]. lia. }
    destruct (strip_prefix "," (skip_ws s)) as [r|] eqn:E2; [|no_result].
    apply strip_prefix_length in E2. simpl in E2.
    destruct (Hmem r) as [Hf Hl]; [lia|].
    destruct (parse_member (parse_value n) r) as [[m r1]|e]; cbn [rbind]; [|no_result].
    specialize (Hl _ _ eq_refl).
    destruct (Hm r1) as [Hf1 Hl1]; [lia|].
    destruct (parse_members n r1) as [[ms r2]|e]; cbn [rbind]; [|no_result].
    specialize (Hl1 _ _ eq_refl).
    split; [discriminate|]. intros a r0 [= <- <-]. lia.
Qed.

(** [JSON.parse] is total: it never runs out of fuel. *)
Lemma parse_fuel s : parse s <> Err OutOfFuel.
Proof.
  unfold parse. destruct (parser_consumes (S (String.length s)) s) as [[Hf _] _]; [lia|].
  destruct (parse_value (S (String.length s)) s) as [[j r]|e]; cbn [rbind]; [|congruence].
  destruct (String.eqb (skip_ws r) ""); discriminate.
Qed.

End JsonFacts.

(** ** The serializer table *)

Module SerializerFacts.
Import Json Js FastRedact Logging Vocabulary.

Lemma truthy_not_nullish v : truthy v = true -> nullish v = false.
Proof. destruct v; simpl; congruence. Qed.

Lemma get_read h v k : nullish v = false -> get h v k = Ok (read h v k).
Proof.
  intros Hv. unfold read. destruct v; try discriminate Hv; simpl; try reflexivity.
  - destruct (String.eqb k "length"); reflexivity.
  - destruct (h !! l) as [[ps|es]|]; try reflexivity.
    destruct (String.eqb k "length"); reflexivity.
Qed.

(** C6, as amended: the guard of [serializers.req] is truthiness. The
    input is returned unchanged when it is falsy or its [connection] is
    falsy (absent, [null], [0], ...); otherwise the result is a new object
    with exactly the seven fields of [request_summary], [url] being
    [originalUrl] when that is truthy and [url] otherwise. The serializer
    never throws. *)
Theorem req_serializer_spec (h : heap) (req : val) :
  req_serializer h req =
  if truthy req && truthy (read h req "connection")
  then Ok (alloc_object h (request_summary h req))
  else Ok (h, req).
Proof.
  unfold req_serializer, request_summary.
  destruct (truthy req) eqn:Hreq; [|reflexivity]. cbn [negb andb].
  pose proof (truthy_not_nullish _ Hreq) as Hn.
  rewrite (get_read h req "connection" Hn). cbn [rbind].
  destruct (truthy (read h req "connection")) eqn:Hc; [|reflexivity]. cbn [negb].
  pose proof (truthy_not_nullish _ Hc) as Hnc.
  rewrite !(get_read h req _ Hn). cbn [rbind].
  destruct (truthy (read h req "originalUrl"));
    rewrite ?(get_read h req _ Hn); cbn [rbind];
    rewrite !(get_read h _ _ Hnc); reflexivity.
Qed.

(** C6 as stated fails: an object that has a [connection] property whose
    value is falsy is returned as it is, not summarized. *)
Lemma req_serializer_falsy_connection :
  let h := [OObj [("connection", VNum 0); ("method", VStr "GET"); ("url", VStr "/x")]] in
  has_key "connection" (own_props h (VRef 0)) = true /\
  req_serializer h (VRef 0) = Ok (h, VRef 0) /\
  req_serializer h (VRef 0) <> Ok (alloc_object h (request_summary h (VRef 0))).
Proof. cbv zeta. split; [reflexivity|]. split; [reflexivity|]. discriminate. Qed.

(** C7, as amended: the guard of [serializers.res] is truthiness. The
    input is returned unchanged when it is falsy or its [statusCode] is
    falsy (absent, [0], ...); otherwise the result is a new object with
    exactly [statusCode] and [header], the latter read from [_header].
    The serializer never throws. *)
Theorem res_serializer_spec (h : heap) (res : val) :
  res_serializer h res =
  if truthy res && truthy (read h res "statusCode")
  then Ok (alloc_object h (response_summary h res))
  else Ok (h, res).
Proof.
  unfold res_serializer, response_summary.
  destruct (truthy res) eqn:Hres; [|reflexivity]. cbn [negb andb].
  pose proof (truthy_not_nullish _ Hres) as Hn.
  rewrite (get_read h res "statusCode" Hn). cbn [rbind].
  destruct (truthy (read h res "statusCode")); [|reflexivity]. cbn [negb].
  rewrite (get_read h res _ Hn). reflexivity.
Qed.

(** C7 as stated fails: an object whose status code is [0] has a status
    code and is returned as it is. *)
Lemma res_serializer_zero_status :
  let h := [OObj [("statusCode", VNum 0); ("_header", VStr "HTTP/1.1 0")]] in
  has_key "statusCode" (own_props h (VRef 0)) = true /\
  res_serializer h (VRef 0) = Ok (h, VRef 0) /\
  res_serializer h (VRef 0) <> Ok (alloc_object h (response_summary h (VRef 0))).
Proof. cbv zeta. split; [reflexivity|]. split; [reflexivity|]. discriminate. Qed.

End SerializerFacts.

(** ** Objects as ordered key lists *)

Module ObjectFacts.
Import Json Js JsonFacts.
Local Open Scope list_scope.

Lemma eqb_neq_false (a b : string) : a <> b -> String.eqb a b = false.
Proof. intros Hab. apply String.eqb_neq. exact Hab. Qed.

Lemma assoc_set_member_eq {A} k (v : A) l : assoc k (set_member k v l) = Some v.
Proof.
  induction l as [|[k' v'] l IH]; simpl.
  - rewrite String.eqb_refl. reflexivity.
  - destruct (String.eqb k' k) eqn:E; simpl; [rewrite String.eqb_refl|rewrite E]; auto.
Qed.

Lemma assoc_set_member_ne {A} k k' (v : A) l :
  k <> k' -> assoc k' (set_member k v l) = assoc k' l.
Proof.
  intros Hne. induction l as [|[k0 v0] l IH]; simpl.
  - rewrite eqb_neq_false by exact Hne. reflexivity.
  - destruct (String.eqb k0 k) eqn:E; simpl.
    + apply String.eqb_eq in E. subst k0. rewrite eqb_neq_false by exact Hne. reflexivity.
    + destruct (String.eqb k0 k'); [reflexivity | exact IH].
Qed.

Lemma has_key_set_member {A} k k' (v : A) l :
  has_key k' (set_member k v l) = has_key k' l || String.eqb k' k.
Proof.
  unfold has_key. induction l as [|[k0 v0] l IH]; simpl.
  - rewrite orb_false_r. reflexivity.
  - destruct (String.eqb k0 k) eqn:E; simpl.
    + apply String.eqb_eq in E. subst k0.
      destruct (String.eqb k' k); simpl; [reflexivity|]. rewrite orb_false_r. reflexivity.
    + rewrite IH. rewrite orb_assoc. reflexivity.
Qed.

Lemma keys_set_member_existing {A} k (v : A) l :
  has_key k l = true -> map fst (set_member k v l) = map fst l.
Proof.
  unfold has_key. induction l as [|[k0 v0] l IH]; simpl; [discriminate|].
  destruct (String.eqb k0 k) eqn:E; simpl.
  - apply String.eqb_eq in E. subst. reflexivity.
  - rewrite String.eqb_sym, E. simpl. intros Hl. rewrite IH by exact Hl. reflexivity.
Qed.

Lemma has_key_assoc {A} k (l : list (string * A)) :
  has_key k l = true <-> exists v, assoc k l = Some v.
Proof.
  unfold has_key. induction l as [|[k0 v0] l IH]; simpl.
  - split; [discriminate | intros [v Hv]; discriminate].
  - rewrite (String.eqb_sym k k0). destruct (String.eqb k0 k); simpl.
    + split; eauto.
    + exact IH.
Qed.

Lemma has_key_assign_props k target source :
  has_key k target = true -> has_key k (assign_props target source) = true.
Proof.
  unfold assign_props. revert target.
  induction source as [|[k' v'] source IH]; intros target Hk; simpl; [exact Hk|].
  apply IH. rewrite has_key_set_member, Hk. reflexivity.
Qed.

Lemma assoc_assign_props_other k target source :
  has_key k source = false -> assoc k (assign_props target source) = assoc k target.
Proof.
  unfold assign_props. revert target.
  induction source as [|[k' v'] source IH]; intros target Hk; simpl; [reflexivity|].
  unfold has_key in Hk. simpl in Hk. apply orb_false_iff in Hk. destruct Hk as [Hk Hs].
  rewrite IH by exact Hs. apply assoc_set_member_ne.
  intros ->. rewrite String.eqb_refl in Hk. discriminate.
Qed.

Lemma assign_props_distinct target source :
  distinct (map fst (target ++ source)%list) = true ->
  assign_props target source = (target ++ source)%list.
Proof. apply build_members_distinct_gen. Qed.

End ObjectFacts.

(** ** The completion record of the request-logging middleware *)

Module MiddlewareFacts.
Import Json Js FastRedact Logging Vocabulary SerializerFacts ObjectFacts.
Local Open Scope list_scope.

Section completion_record.
Variables T S M : string.
Hypothesis keys_distinct : distinct ["req"; "res"; "httpRequest"; T; S; M] = true.

Lemma inner_keys_distinct : distinct ["httpRequest"; T; S; M] = true.
Proof.
  pose proof keys_distinct as H. cbn [distinct] in H.
  apply andb_true_iff in H. destruct H as [_ H].
  apply andb_true_iff in H. destruct H as [_ H]. exact H.
Qed.

Lemma fields_shape env h req res httpRequest trace span sampled h' fields :
  request_log_fields T S M env h req res httpRequest trace span sampled = Ok (h', fields) ->
  match nonempty (env "K_SERVICE") with
  | Some fn =>
      exists url,
        prefixed_url fn (read h httpRequest "requestUrl") = Ok url /\
        h' !! length h = Some (OObj (set_member "requestUrl" url (own_props h httpRequest))) /\
        own_props h' fields =
          [("req", req); ("res", res); ("httpRequest", VRef (length h));
           (T, trace); (S, span); (M, sampled)]
  | None => own_props h' fields = [("req", req); ("res", res)]
  end.
Proof.
  unfold request_log_fields, nonempty, read.
  destruct (get h httpRequest "requestUrl") as [requestUrl|e]; [|discriminate].
  cbn [rbind].
  assert (Hplain : forall (hh : heap) ps, own_props (hh ++ [OObj ps]) (VRef (length hh)) = ps).
  { intros hh ps. unfold own_props. rewrite list_lookup_middle by reflexivity. reflexivity. }
  destruct (env "K_SERVICE") as [fn|];
    [destruct (String.eqb fn "")|];
    try (intros [= <- <-]; apply Hplain).
  destruct (prefixed_url fn requestUrl) as [url|e]; [|discriminate].
  cbn [rbind alloc_object].
  rewrite (assign_props_distinct [] _) by exact inner_keys_distinct.
  rewrite assign_props_distinct by exact keys_distinct.
  cbn [app]. intros [= <- <-].
  exists url. split; [reflexivity|]. split.
  - rewrite <- !app_assoc. cbn [app]. rewrite list_lookup_middle by reflexivity. reflexivity.
  - apply Hplain.
Qed.
End completion_record.

(** C9, as amended: the record passed to [logger.info] holds [httpRequest]
    and the trace, span and sampled keys exactly when [K_SERVICE] is set
    to a non-empty value (the keys being distinct from one another and
    from [req], [res] and [httpRequest]). In that case [httpRequest] is a
    copy of the given one in which [requestUrl] is prefixed with [/] and
    the function name when it is a string that starts with [/] and does
    not already start with that prefix, and is carried unchanged
    otherwise; every other field of the copy is the original's. *)
Theorem completion_record_spec (T S M : string) (env : environment) (h : heap)
    (req res httpRequest trace span sampled : val) (h' : heap) (fields : val) :
  distinct ["req"; "res"; "httpRequest"; T; S; M] = true ->
  request_log_fields T S M env h req res httpRequest trace span sampled = Ok (h', fields) ->
  (forall k, In k ["httpRequest"; T; S; M] ->
     has_key k (own_props h' fields) = true <-> exists fn, nonempty (env "K_SERVICE") = Some fn)
  /\ (forall fn, nonempty (env "K_SERVICE") = Some fn ->
      exists l,
        assoc "httpRequest" (own_props h' fields) = Some (VRef l) /\
        (forall k, k <> "requestUrl" ->
           assoc k (own_props h' (VRef l)) = assoc k (own_props h httpRequest)) /\
        (forall u, read h httpRequest "requestUrl" = VStr u ->
           String.prefix "/" u = true -> String.prefix ("/" ++ fn)%string u = false ->
           assoc "requestUrl" (own_props h' (VRef l)) = Some (VStr ("/" ++ fn ++ u)%string)) /\
        ((forall u, read h httpRequest "requestUrl" = VStr u ->
            String.prefix "/" u = false \/ String.prefix ("/" ++ fn)%string u = true) ->
         assoc "requestUrl" (own_props h' (VRef l)) = Some (read h httpRequest "requestUrl"))).
Proof.
  intros Hd Hrun. pose proof (fields_shape T S M Hd _ _ _ _ _ _ _ _ _ _ Hrun) as Hs.
  destruct (nonempty (env "K_SERVICE")) as [fn|] eqn:Hk.
  - destruct Hs as (url & Hurl & Hcopy & Hfields). split.
    + intros k Hin. split; [eauto|]. intros _. rewrite Hfields.
      unfold has_key. cbn [map fst existsb]. simpl in Hin.
      destruct Hin as [<-|[<-|[<-|[<-|[]]]]]; rewrite String.eqb_refl, ?orb_true_r; reflexivity.
    + intros fn' [= <-]. exists (length h). rewrite Hfields.
      split; [reflexivity|].
      assert (Hown : own_props h' (VRef (length h))
                     = set_member "requestUrl" url (own_props h httpRequest)).
      { unfold own_props at 1. rewrite Hcopy. reflexivity. }
      rewrite Hown.
      split; [intros k Hne; apply assoc_set_member_ne; congruence|].
      rewrite assoc_set_member_eq. unfold prefixed_url in Hurl. split.
      * intros u Hu Hp Hq. rewrite Hu in Hurl. cbv beta iota in Hurl.
        rewrite Hp, Hq in Hurl. cbn [andb negb] in Hurl. congruence.
      * intros Hno. revert Hurl Hno.
        destruct (read h httpRequest "requestUrl") as [| | | |u| | |]; intros Hurl Hno;
          cbv beta iota in Hurl; try congruence.
        destruct (Hno u eq_refl) as [Hp|Hq]; [rewrite Hp in Hurl|rewrite Hq, andb_false_r in Hurl];
          cbn [andb negb] in Hurl; congruence.
  - split.
    + intros k Hin. split; [|intros [fn Hfn]; discriminate]. rewrite Hs.
      pose proof Hd as Hd'. cbn [distinct existsb] in Hd'.
      apply andb_true_iff in Hd'. destruct Hd' as [Hreq Hd'].
      apply andb_true_iff in Hd'. destruct Hd' as [Hres _].
      apply negb_true_iff, orb_false_iff in Hreq. destruct Hreq as [_ Hreq].
      apply negb_true_iff in Hres.
      unfold has_key. cbn [map fst existsb]. intros Hk'. exfalso.
      apply orb_true_iff in Hk'. rewrite orb_false_r in Hk'.
      simpl in Hin. destruct Hin as [<-|[<-|[<-|[<-|[]]]]]; try (destruct Hk'; discriminate).
      all: repeat (apply orb_false_iff in Hreq; destruct Hreq as [? Hreq]).
      all: repeat (apply orb_false_iff in Hres; destruct Hres as [? Hres]).
      all: destruct Hk' as [Hk'|Hk']; rewrite String.eqb_sym in Hk'; congruence.
    + intros fn Hfn. discriminate.
Qed.

(** The theorem at a request for [/a?b] under [K_SERVICE=fn]. *)
Lemma completion_record_witness :
  let h := [OObj [("requestUrl", VStr "/a?b"); ("status", VNum 200)]] in
  exists h' fields,
    request_log_fields "logging.googleapis.com/trace" "logging.googleapis.com/spanId"
      "logging.googleapis.com/trace_sampled" Samples.function_env h (VStr "req") (VStr "res")
      (VRef 0) (VStr "t") VUndefined VUndefined = Ok (h', fields)
    /\ has_key "httpRequest" (own_props h' fields) = true.
Proof.
  cbv zeta. eexists _, _. split; [vm_compute; reflexivity|].
  refine (proj2 (proj1 (completion_record_spec
            "logging.googleapis.com/trace" "logging.googleapis.com/spanId"
            "logging.googleapis.com/trace_sampled" Samples.function_env
            [OObj [("requestUrl", VStr "/a?b"); ("status", VNum 200)]]
            (VStr "req") (VStr "res") (VRef 0) (VStr "t") VUndefined VUndefined _ _ _ _)
            "httpRequest" _) _).
  - vm_compute; reflexivity.
  - vm_compute; reflexivity.
  - left. reflexivity.
  - exists "fn". reflexivity.
Defined.

(** C9 as stated fails: under [K_SERVICE=fn] a request URL that does not
    start with [/] lacks the prefix [/fn] and is still not rewritten. *)
Lemma absolute_url_not_prefixed :
  let h := [OObj [("requestUrl", VStr "https://example.com/a")]] in
  String.prefix "/fn" "https://example.com/a" = false /\
  exists h' fields,
    request_log_fields "logging.googleapis.com/trace" "logging.googleapis.com/spanId"
      "logging.googleapis.com/trace_sampled" Samples.function_env h (VStr "req") (VStr "res")
      (VRef 0) (VStr "t") VUndefined VUndefined = Ok (h', fields)
    /\ read h' (read h' fields "httpRequest") "requestUrl" = VStr "https://example.com/a".
Proof. cbv zeta. split; [reflexivity|]. eexists _, _. split; reflexivity. Qed.

End MiddlewareFacts.

(** ** The store: allocation, reachability, serialization *)

Module StoreFacts.
Import Json Js JsonFacts ObjectFacts.
Local Open Scope list_scope.

Lemma in_range_mono lo hi lo' hi' v :
  in_range lo hi v -> (lo' <= lo)%nat -> (hi <= hi')%nat -> in_range lo' hi' v.
Proof. destruct v; simpl; auto. lia. Qed.

Lemma fresh_objects_mono lo hi lo' hi' new :
  fresh_objects lo hi new -> (lo' <= lo)%nat -> (hi <= hi')%nat -> fresh_objects lo' hi' new.
Proof.
  unfold fresh_objects. intros H Hlo Hhi. eapply Forall_impl; [exact H|].
  intros o Ho. eapply Forall_impl; [exact Ho|]. intros v Hv. eapply in_range_mono; eauto.
Qed.

Lemma alloc_array items h :
  alloc (JArr items) h = let '(h1, vs) := alloc_items items h in alloc_object h1 (OArr vs).
Proof. reflexivity. Qed.

Lemma alloc_members_eq members h :
  alloc (JObj members) h = let '(h1, ps) := alloc_members members h in alloc_object h1 (OObj ps).
Proof. reflexivity. Qed.

Lemma alloc_items_fresh items :
  Forall alloc_ok items ->
  forall h h' vs, alloc_items items h = (h', vs) ->
    exists new, h' = h ++ new /\ Forall (in_range (length h) (length h')) vs /\
                fresh_objects (length h) (length h') new.
Proof.
  induction 1 as [|x items Hx _ IH]; intros h h' vs Ha; simpl in Ha.
  - injection Ha as <- <-. exists []. rewrite app_nil_r. repeat split; constructor.
  - destruct (alloc x h) as [h1 v] eqn:E1. destruct (alloc_items items h1) as [h2 vs'] eqn:E2.
    injection Ha as <- <-.
    destruct (Hx _ _ _ E1) as (n1 & -> & Hv & Hn1).
    destruct (IH _ _ _ E2) as (n2 & -> & Hvs & Hn2).
    exists (n1 ++ n2). rewrite app_assoc. split; [reflexivity|].
    rewrite !length_app in *. split.
    + constructor; [eapply in_range_mono; [exact Hv|lia..]|].
      eapply Forall_impl; [exact Hvs|]. intros w Hw. eapply in_range_mono; [exact Hw|lia..].
    + apply Forall_app. split; (eapply fresh_objects_mono; [eassumption|lia..]).
Qed.

Lemma alloc_members_fresh members :
  Forall (fun kv => alloc_ok (snd kv)) members ->
  forall h h' ps, alloc_members members h = (h', ps) ->
    map fst ps = map fst members /\
    exists new, h' = h ++ new /\ Forall (in_range (length h) (length h')) (map snd ps) /\
                fresh_objects (length h) (length h') new.
Proof.
  induction 1 as [|[k x] members Hx _ IH]; intros h h' ps Ha; simpl in Ha.
  - injection Ha as <- <-. split; [reflexivity|].
    exists []. rewrite app_nil_r. repeat split; constructor.
  - destruct (alloc x h) as [h1 v] eqn:E1. destruct (alloc_members members h1) as [h2 ps'] eqn:E2.
    injection Ha as <- <-. simpl in Hx.
    destruct (Hx _ _ _ E1) as (n1 & -> & Hv & Hn1).
    destruct (IH _ _ _ E2) as (Hk & n2 & -> & Hvs & Hn2).
    split; [simpl; congruence|].
    exists (n1 ++ n2). rewrite app_assoc. split; [reflexivity|].
    rewrite !length_app in *. split.
    + simpl. constructor; [eapply in_range_mono; [exact Hv|lia..]|].
      eapply Forall_impl; [exact Hvs|]. intros w Hw. eapply in_range_mono; [exact Hw|lia..].
    + apply Forall_app. split; (eapply fresh_objects_mono; [eassumption|lia..]).
Qed.

Lemma alloc_fresh j : alloc_ok j.
Proof.
  induction j as [|b|z|s|items IH|members IH] using json_ind; intros h h' v Ha;
    try (injection Ha as <- <-; exists []; rewrite app_nil_r; repeat split; constructor).
  - rewrite alloc_array in Ha. destruct (alloc_items items h) as [h1 vs] eqn:E.
    unfold alloc_object in Ha. injection Ha as <- <-.
    destruct (alloc_items_fresh _ IH _ _ _ E) as (new & -> & Hvs & Hnew).
    exists (new ++ [OArr vs]). rewrite app_assoc. split; [reflexivity|].
    rewrite !length_app in *. simpl. split; [lia|].
    apply Forall_app. split; [eapply fresh_objects_mono; [eassumption|lia..]|].
    constructor; [|constructor]. simpl.
    eapply Forall_impl; [exact Hvs|]. intros w Hw. eapply in_range_mono; [exact Hw|lia..].
  - rewrite alloc_members_eq in Ha. destruct (alloc_members members h) as [h1 ps] eqn:E.
    unfold alloc_object in Ha. injection Ha as <- <-.
    destruct (alloc_members_fresh _ IH _ _ _ E) as (_ & new & -> & Hvs & Hnew).
    exists (new ++ [OObj ps]). rewrite app_assoc. split; [reflexivity|].
    rewrite !length_app in *. simpl. split; [lia|].
    apply Forall_app. split; [eapply fresh_objects_mono; [eassumption|lia..]|].
    constructor; [|constructor]. simpl.
    eapply Forall_impl; [exact Hvs|]. intros w Hw. eapply in_range_mono; [exact Hw|lia..].
Qed.

(** Everything reachable from a freshly built tree is fresh. *)
Lemma reach_fresh h new v l :
  in_range (length h) (length (h ++ new)) v ->
  fresh_objects (length h) (length (h ++ new)) new ->
  reach (h ++ new) v l -> (length h <= l)%nat.
Proof.
  intros Hv Hnew Hr. induction Hr as [l|v l l' o Hr IH Ho Hin].
  - simpl in Hv. lia.
  - specialize (IH Hv). rewrite lookup_app_r in Ho by exact IH.
    unfold fresh_objects in Hnew. rewrite Forall_forall in Hnew.
    apply list_elem_of_lookup_2 in Ho.
    specialize (Hnew _ Ho). rewrite Forall_forall in Hnew.
    apply list_elem_of_In in Hin.
    specialize (Hnew _ Hin). simpl in Hnew. lia.
Qed.

Lemma alloc_reach_fresh j h h' v l :
  alloc j h = (h', v) -> reach h' v l -> (length h <= l)%nat.
Proof.
  intros Ha Hr. destruct (alloc_fresh j _ _ _ Ha) as (new & -> & Hv & Hnew).
  eapply reach_fresh; eassumption.
Qed.

Lemma alloc_extends j h h' v : alloc j h = (h', v) -> exists new, h' = h ++ new.
Proof. intros Ha. destruct (alloc_fresh j _ _ _ Ha) as (new & -> & _). eauto. Qed.

(** *** Serialization reads only what is reachable *)

Lemma ser_props_ext f g ps :
  (forall v, In v (map snd ps) -> f v = g v) -> ser_props f ps = ser_props g ps.
Proof.
  induction ps as [|[k v] ps IH]; intros H; simpl; [reflexivity|].
  rewrite (H v) by (left; reflexivity). rewrite IH; [reflexivity|].
  intros w Hw. apply H. right. exact Hw.
Qed.

Lemma ser_elems_ext f g es :
  (forall v, In v es -> f v = g v) -> ser_elems f es = ser_elems g es.
Proof.
  induction es as [|v es IH]; intros H; simpl; [reflexivity|].
  rewrite (H v) by (left; reflexivity). rewrite IH; [reflexivity|].
  intros w Hw. apply H. right. exact Hw.
Qed.

Lemma reach_child h l o v l' :
  h !! l = Some o -> In v (fields o) -> reach h v l' -> reach h (VRef l) l'.
Proof.
  intros Ho Hin Hr. induction Hr as [l'|v l1 l2 o' Hr IH Ho' Hin'].
  - eapply reach_step; [apply reach_here|exact Ho|exact Hin].
  - eapply reach_step; [apply IH; exact Hin|exact Ho'|exact Hin'].
Qed.

Lemma to_json_ref n h st l :
  to_json (S n) h st (VRef l) =
  if mem l st then Err circular
  else match h !! l with
       | Some (OObj ps) =>
           let* kvs := ser_object (to_json n h (l :: st)) ps in Ok (Some (JObj kvs))
       | Some (OArr es) =>
           let* js := ser_elems (to_json n h (l :: st)) es in Ok (Some (JArr js))
       | None => Ok None
       end.
Proof. reflexivity. Qed.

Lemma ser_object_ext f g ps :
  (forall v, In v (map snd ps) -> f v = g v) -> ser_object f ps = ser_object g ps.
Proof. intros H. unfold ser_object. destruct (has_toJSON ps); [reflexivity|]. apply ser_props_ext, H. Qed.

Lemma ser_object_ok f ps kvs :
  ser_object f ps = Ok kvs -> has_toJSON ps = false /\ ser_props f ps = Ok kvs.
Proof. unfold ser_object. destruct (has_toJSON ps); [discriminate|auto]. Qed.

Lemma ser_object_plain f ps : has_toJSON ps = false -> ser_object f ps = ser_props f ps.
Proof. unfold ser_object. intros ->. reflexivity. Qed.

Lemma to_json_frame n h h' :
  forall st v, (forall l, reach h v l -> h' !! l = h !! l) ->
  to_json n h' st v = to_json n h st v.
Proof.
  induction n as [|n IH]; intros st v H; destruct v; try reflexivity; simpl;
    destruct (mem l st); try reflexivity.
  rewrite (H l (reach_here h l)).
  destruct (h !! l) as [[ps|es]|] eqn:E; try reflexivity.
  - rewrite (ser_object_ext (to_json n h' (l :: st)) (to_json n h (l :: st))); [reflexivity|].
    intros w Hw. apply IH. intros l' Hr. apply H. eapply reach_child; eauto.
  - rewrite (ser_elems_ext (to_json n h' (l :: st)) (to_json n h (l :: st))); [reflexivity|].
    intros w Hw. apply IH. intros l' Hr. apply H. eapply reach_child; eauto.
Qed.

(** *** Fuel *)

Lemma ser_props_mono f g ps r :
  ser_props f ps = r -> r <> Err OutOfFuel ->
  (forall v r', In v (map snd ps) -> f v = r' -> r' <> Err OutOfFuel -> g v = r') ->
  ser_props g ps = r.
Proof.
  revert r. induction ps as [|[k v] ps IH]; intros r Hr Hne H; simpl in *; [exact Hr|].
  assert (IH' : forall r0, ser_props f ps = r0 -> r0 <> Err OutOfFuel -> ser_props g ps = r0).
  { intros r0 H1 H2. apply IH; auto. }
  destruct (f v) as [oj|e] eqn:Ef.
  - assert (Hg : g v = Ok oj) by (apply H; [left; reflexivity|exact Ef|discriminate]).
    rewrite Hg. cbn [rbind] in *.
    destruct (ser_props f ps) as [rest|e] eqn:Er.
    + rewrite (IH' (Ok rest)); [exact Hr|reflexivity|discriminate].
    + rewrite (IH' (Err e)); [exact Hr|reflexivity|]. cbn [rbind] in Hr. congruence.
  - assert (Hg : g v = Err e).
    { apply H; [left; reflexivity|exact Ef|]. cbn [rbind] in Hr. congruence. }
    rewrite Hg. exact Hr.
Qed.

Lemma ser_elems_mono f g es r :
  ser_elems f es = r -> r <> Err OutOfFuel ->
  (forall v r', In v es -> f v = r' -> r' <> Err OutOfFuel -> g v = r') ->
  ser_elems g es = r.
Proof.
  revert r. induction es as [|v es IH]; intros r Hr Hne H; simpl in *; [exact Hr|].
  assert (IH' : forall r0, ser_elems f es = r0 -> r0 <> Err OutOfFuel -> ser_elems g es = r0).
  { intros r0 H1 H2. apply IH; auto. }
  destruct (f v) as [oj|e] eqn:Ef.
  - assert (Hg : g v = Ok oj) by (apply H; [left; reflexivity|exact Ef|discriminate]).
    rewrite Hg. cbn [rbind] in *.
    destruct (ser_elems f es) as [rest|e] eqn:Er.
    + rewrite (IH' (Ok rest)); [exact Hr|reflexivity|discriminate].
    + rewrite (IH' (Err e)); [exact Hr|reflexivity|]. cbn [rbind] in Hr. congruence.
  - assert (Hg : g v = Err e).
    { apply H; [left; reflexivity|exact Ef|]. cbn [rbind] in Hr. congruence. }
    rewrite Hg. exact Hr.
Qed.

Lemma to_json_more_fuel n h :
  forall st v r, to_json n h st v = r -> r <> Err OutOfFuel -> to_json (S n) h st v = r.
Proof.
  induction n as [|n IH]; intros st v r Hr Hne; destruct v; try exact Hr.
  - simpl in *. destruct (mem l st); congruence.
  - rewrite to_json_ref in Hr. rewrite (to_json_ref (S n)).
    destruct (mem l st); [exact Hr|].
    destruct (h !! l) as [[ps|es]|]; [| |exact Hr].
    + unfold ser_object in *. destruct (has_toJSON ps); [exact Hr|].
      destruct (ser_props (to_json n h (l :: st)) ps) as [kvs|e] eqn:E; cbn [rbind] in Hr; subst r.
      * rewrite (ser_props_mono _ (to_json (S n) h (l :: st)) _ _ E);
          [reflexivity|discriminate|intros; apply IH; auto].
      * rewrite (ser_props_mono _ (to_json (S n) h (l :: st)) _ _ E);
          [reflexivity|congruence|intros; apply IH; auto].
    + destruct (ser_elems (to_json n h (l :: st)) es) as [kvs|e] eqn:E; cbn [rbind] in Hr; subst r.
      * rewrite (ser_elems_mono _ (to_json (S n) h (l :: st)) _ _ E);
          [reflexivity|discriminate|intros; apply IH; auto].
      * rewrite (ser_elems_mono _ (to_json (S n) h (l :: st)) _ _ E);
          [reflexivity|congruence|intros; apply IH; auto].
Qed.

Lemma to_json_fuel_le n m h st v r :
  (n <= m)%nat -> to_json n h st v = r -> r <> Err OutOfFuel -> to_json m h st v = r.
Proof.
  induction 1 as [|m Hle IH]; intros Hr Hne; [exact Hr|].
  apply to_json_more_fuel; auto.
Qed.

Lemma mem_In l st : mem l st = true <-> In l st.
Proof.
  unfold mem. rewrite existsb_exists. split.
  - intros (x & Hx & E). apply Nat.eqb_eq in E. subst. exact Hx.
  - intros H. exists l. split; [exact H|apply Nat.eqb_refl].
Qed.

Lemma ser_props_fuel f ps :
  (forall v, In v (map snd ps) -> f v <> Err OutOfFuel) -> ser_props f ps <> Err OutOfFuel.
Proof.
  induction ps as [|[k v] ps IH]; intros H; simpl; [discriminate|].
  destruct (f v) as [oj|e] eqn:Ef; cbn [rbind].
  - destruct (ser_props f ps) as [rest|e] eqn:Er; cbn [rbind]; [discriminate|].
    apply IH. intros w Hw. apply H. right. exact Hw.
  - intros [= ->]. apply (H v); [left; reflexivity|exact Ef].
Qed.

Lemma ser_elems_fuel f es :
  (forall v, In v es -> f v <> Err OutOfFuel) -> ser_elems f es <> Err OutOfFuel.
Proof.
  induction es as [|v es IH]; intros H; simpl; [discriminate|].
  destruct (f v) as [oj|e] eqn:Ef; cbn [rbind].
  - destruct (ser_elems f es) as [rest|e] eqn:Er; cbn [rbind]; [discriminate|].
    apply IH. intros w Hw. apply H. right. exact Hw.
  - intros [= ->]. apply (H v); [left; reflexivity|exact Ef].
Qed.

Lemma stack_bound (h : list object) st :
  List.NoDup st -> (forall l, In l st -> (l < length h)%nat) -> (length st <= length h)%nat.
Proof.
  intros Hnd Hlt.
  assert (H : (length st <= length (List.seq 0 (length h)))%nat).
  { apply List.NoDup_incl_length; [exact Hnd|].
    intros l Hl. apply List.in_seq. specialize (Hlt l Hl). lia. }
  rewrite List.length_seq in H. exact H.
Qed.

(** The nesting depth is bounded by the number of objects: serialization
    never runs out of fuel. *)
Lemma to_json_fuel n h :
  forall st v, List.NoDup st -> (forall l, In l st -> (l < length h)%nat) ->
  (length h < n + length st)%nat -> to_json n h st v <> Err OutOfFuel.
Proof.
  induction n as [|n IH]; intros st v Hnd Hlt Hn; destruct v; try discriminate; simpl;
    destruct (mem l st) eqn:Hm; try discriminate.
  - pose proof (stack_bound h st Hnd Hlt). lia.
  - destruct (h !! l) as [[ps|es]|] eqn:E; try discriminate.
    + pose proof (lookup_lt_Some _ _ _ E) as Hl.
      unfold ser_object. destruct (has_toJSON ps); [discriminate|].
      destruct (ser_props (to_json n h (l :: st)) ps) as [kvs|e] eqn:Es; [discriminate|].
      cbn [rbind]. intros [= ->]. revert Es. apply ser_props_fuel. intros w _. apply IH.
      * constructor; [|exact Hnd]. intros Hin. apply mem_In in Hin. congruence.
      * intros l' [<-|Hl']; auto.
      * simpl. lia.
    + pose proof (lookup_lt_Some _ _ _ E) as Hl.
      destruct (ser_elems (to_json n h (l :: st)) es) as [kvs|e] eqn:Es; [discriminate|].
      cbn [rbind]. intros [= ->]. revert Es. apply ser_elems_fuel. intros w _. apply IH.
      * constructor; [|exact Hnd]. intros Hin. apply mem_In in Hin. congruence.
      * intros l' [<-|Hl']; auto.
      * simpl. lia.
Qed.

Lemma JSON_stringify_new_fuel h ps : JSON_stringify_new h ps <> Err OutOfFuel.
Proof.
  unfold JSON_stringify_new, ser_object. destruct (has_toJSON ps); [discriminate|].
  destruct (ser_props _ ps) as [kvs|e] eqn:E; [discriminate|]. cbn [rbind].
  intros [= ->]. revert E. apply ser_props_fuel. intros v _. apply to_json_fuel; [constructor|intros l []|simpl; lia].
Qed.

(** A new object serializes to the same text in two stores that agree on
    what its properties reach. *)
Lemma JSON_stringify_new_stable h h' ps :
  (length h <= length h')%nat ->
  (forall v l, In v (map snd ps) -> reach h v l -> h' !! l = h !! l) ->
  JSON_stringify_new h' ps = JSON_stringify_new h ps.
Proof.
  intros Hlen Hsame. unfold JSON_stringify_new.
  rewrite (ser_object_ext _ (to_json (S (length h)) h [])); [reflexivity|].
  intros v Hv. rewrite (to_json_frame _ h h') by (intros l Hr; eapply Hsame; eauto).
  eapply to_json_fuel_le; [|reflexivity|].
  - lia.
  - apply to_json_fuel; [constructor|intros l []|simpl; lia].
Qed.

(** *** Distinct keys survive serialization *)

Lemma has_key_filter {A} (f : string * A -> bool) k ps :
  has_key k (List.filter f ps) = true -> has_key k ps = true.
Proof.
  unfold has_key. induction ps as [|[k' v] ps IH]; simpl; [auto|].
  destruct (f (k', v)); simpl; intros H.
  - apply orb_true_iff in H. apply orb_true_iff. destruct H; auto.
  - apply orb_true_iff. auto.
Qed.

Lemma distinct_filter {A} (f : string * A -> bool) ps :
  distinct (map fst ps) = true -> distinct (map fst (List.filter f ps)) = true.
Proof.
  induction ps as [|[k v] ps IH]; simpl; [auto|]. intros H.
  apply andb_true_iff in H. destruct H as [Hk Hd].
  destruct (f (k, v)); simpl; [|auto].
  rewrite IH by exact Hd. rewrite andb_true_r.
  apply negb_true_iff in Hk. apply negb_true_iff.
  destruct (existsb (String.eqb k) (map fst (List.filter f ps))) eqn:E; [|reflexivity].
  apply (has_key_filter f k ps) in E. unfold has_key in E. congruence.
Qed.

Lemma ser_props_keys f ps kvs :
  ser_props f ps = Ok kvs ->
  (forall k, has_key k kvs = true -> has_key k ps = true) /\
  (distinct (map fst ps) = true -> distinct (map fst kvs) = true) /\
  Forall (fun kj => exists v, In v (map snd ps) /\ f v = Ok (Some (snd kj))) kvs.
Proof.
  revert kvs. induction ps as [|[k v] ps IH]; intros kvs H; simpl in H.
  - injection H as <-. repeat split; auto.
  - destruct (f v) as [oj|e] eqn:Ef; [|discriminate]. cbn [rbind] in H.
    destruct (ser_props f ps) as [rest|e] eqn:Er; [|discriminate]. cbn [rbind] in H.
    injection H as <-. destruct (IH rest eq_refl) as (Hk & Hd & Hall).
    assert (Hall' : Forall (fun kj => exists v0, In v0 (map snd ((k, v) :: ps)) /\
                                        f v0 = Ok (Some (snd kj))) rest).
    { eapply Forall_impl; [exact Hall|]. intros kj (w & Hw & Hf). exists w. split; [right|]; auto. }
    destruct oj as [j|].
    + split; [|split].
      * intros k'. unfold has_key in *. simpl. intros H. apply orb_true_iff in H.
        apply orb_true_iff. destruct H; auto.
      * simpl. intros H. apply andb_true_iff in H. destruct H as [H1 H2].
        rewrite Hd by exact H2. rewrite andb_true_r.
        apply negb_true_iff in H1. apply negb_true_iff.
        destruct (existsb (String.eqb k) (map fst rest)) eqn:E; [|reflexivity].
        apply Hk in E. unfold has_key in E. congruence.
      * constructor; [|exact Hall']. exists v. split; [left; reflexivity|exact Ef].
    + split; [|split].
      * intros k' H. apply Hk in H. unfold has_key in *. simpl. rewrite H. apply orb_true_r.
      * simpl. intros H. apply andb_true_iff in H. destruct H as [_ H2]. auto.
      * exact Hall'.
Qed.

Lemma ser_elems_items f es js :
  ser_elems f es = Ok js ->
  Forall (fun j => j = JNull \/ exists v, In v es /\ f v = Ok (Some j)) js.
Proof.
  revert js. induction es as [|v es IH]; intros js H; simpl in H.
  - injection H as <-. constructor.
  - destruct (f v) as [oj|e] eqn:Ef; [|discriminate]. cbn [rbind] in H.
    destruct (ser_elems f es) as [rest|e] eqn:Er; [|discriminate]. cbn [rbind] in H.
    injection H as <-. constructor.
    + destruct oj as [j|]; [right|left; reflexivity]. exists v. split; [left; reflexivity|exact Ef].
    + eapply Forall_impl; [exact (IH rest eq_refl)|].
      intros j [->|(w & Hw & Hf)]; [left; reflexivity|right]. exists w. split; [right|]; auto.
Qed.

Lemma store_ok_lookup h l o :
  store_ok h = true -> h !! l = Some o -> object_ok (length h) o = true.
Proof.
  unfold store_ok. intros H Ho. rewrite forallb_forall in H. apply H.
  apply list_elem_of_In. eapply list_elem_of_lookup_2. exact Ho.
Qed.

Lemma to_json_unique_keys h :
  store_ok h = true ->
  forall n st v j, to_json n h st v = Ok (Some j) -> unique_keys j = true.
Proof.
  intros Hok. induction n as [|n IH]; intros st v j H; destruct v;
    try (injection H as <-; reflexivity); try discriminate.
  - simpl in H. destruct (mem l st); discriminate.
  - rewrite to_json_ref in H. destruct (mem l st); [discriminate|].
    destruct (h !! l) as [[ps|es]|] eqn:E; [| |discriminate].
    + destruct (ser_object (to_json n h (l :: st)) ps) as [kvs|e] eqn:Es; [|discriminate].
      apply ser_object_ok in Es. destruct Es as [_ Es].
      injection H as <-. destruct (ser_props_keys _ _ _ Es) as (_ & Hd & Hall).
      pose proof (store_ok_lookup _ _ _ Hok E) as Ho. simpl in Ho.
      apply andb_true_iff in Ho. destruct Ho as [Ho _].
      simpl. rewrite Hd by exact Ho. simpl.
      apply forallb_forall. intros kj Hkj. rewrite Forall_forall in Hall.
      apply list_elem_of_In in Hkj.
      destruct (Hall kj Hkj) as (w & _ & Hw). eapply IH. exact Hw.
    + destruct (ser_elems (to_json n h (l :: st)) es) as [js|e] eqn:Es; [|discriminate].
      injection H as <-. pose proof (ser_elems_items _ _ _ Es) as Hall.
      simpl. apply forallb_forall. intros j Hj. rewrite Forall_forall in Hall.
      apply list_elem_of_In in Hj.
      destruct (Hall j Hj) as [->|(w & _ & Hw)]; [reflexivity|]. eapply IH. exact Hw.
Qed.

(** The text of a new object parses back to the tree it was printed from. *)
Lemma JSON_stringify_new_parse h ps text :
  store_ok h = true -> distinct (map fst ps) = true ->
  JSON_stringify_new h ps = Ok text ->
  exists kvs, text = print (JObj kvs) /\ parse text = Ok (JObj kvs) /\
              forall k, has_key k kvs = true -> has_key k ps = true.
Proof.
  intros Hok Hd. unfold JSON_stringify_new.
  destruct (ser_object _ ps) as [kvs|e] eqn:Es; [|discriminate]. cbn [rbind].
  apply ser_object_ok in Es. destruct Es as [_ Es].
  intros Ht. assert (Ht' : text = print (JObj kvs)) by congruence. clear Ht. subst text.
  exists kvs. destruct (ser_props_keys _ _ _ Es) as (Hk & Hdk & Hall).
  split; [reflexivity|]. split; [|exact Hk].
  apply parse_print. simpl. rewrite Hdk by exact Hd. simpl.
  apply forallb_forall. intros kj Hkj. rewrite Forall_forall in Hall.
  apply list_elem_of_In in Hkj.
  destruct (Hall kj Hkj) as (w & _ & Hw). eapply to_json_unique_keys; eauto.
Qed.

End StoreFacts.

(** ** The model of fast-redact *)

Module ModelFacts.
Import Json Js JsonFacts ObjectFacts StoreFacts FastRedact.
Local Open Scope list_scope.

Lemma fewer_refs_refl h : fewer_refs h h.
Proof. intros l o Ho. eauto. Qed.

Lemma fewer_refs_trans h1 h2 h3 : fewer_refs h1 h2 -> fewer_refs h2 h3 -> fewer_refs h1 h3.
Proof.
  intros H12 H23 l o3 Ho3. destruct (H23 _ _ Ho3) as (o2 & Ho2 & H2).
  destruct (H12 _ _ Ho2) as (o1 & Ho1 & H1). eauto.
Qed.

Lemma reach_fewer_refs h h' v l : fewer_refs h h' -> reach h' v l -> reach h v l.
Proof.
  intros Hf Hr. induction Hr as [l|v l l' o' Hr IH Ho' Hin]; [constructor|].
  destruct (Hf _ _ Ho') as (o & Ho & Hsub). eapply reach_step; eauto.
Qed.

Lemma reach_is_ref h v l : reach h v l -> exists l0, v = VRef l0.
Proof. induction 1; eauto. Qed.

Lemma assoc_In {A} k (ps : list (string * A)) v : assoc k ps = Some v -> In v (map snd ps).
Proof.
  induction ps as [|[k' v'] ps IH]; simpl; [discriminate|].
  destruct (String.eqb k' k); [intros [= ->]; auto|auto].
Qed.

Lemma get_reach h o k next l : get h o k = Ok next -> reach h next l -> reach h o l.
Proof.
  intros Hg Hr. destruct (reach_is_ref _ _ _ Hr) as [l1 ->].
  destruct o; simpl in Hg; try discriminate; try (injection Hg as [=]; discriminate).
  - destruct (String.eqb k "length"); [discriminate|].
    injection Hg as Hg. destruct (index_of_key k) as [i|]; [|discriminate]. simpl in Hg.
    destruct (chars s !! i) as [c|] eqn:E; [|discriminate]. simpl in Hg. subst c.
    exfalso. apply list_elem_of_lookup_2, list_elem_of_In in E. clear -E.
    induction s; simpl in E; [auto|]. destruct E; [discriminate|auto].
  - destruct (h !! l0) as [[ps|es]|] eqn:E; try discriminate.
    + injection Hg as Hg. destruct (assoc k ps) as [v|] eqn:Ea; [|discriminate]. simpl in Hg.
      subst v. eapply reach_child; [exact E| |exact Hr]. simpl. eapply assoc_In. exact Ea.
    + destruct (String.eqb k "length"); [discriminate|].
      injection Hg as Hg. destruct (index_of_key k) as [i|]; [|discriminate]. simpl in Hg.
      destruct (es !! i) as [c|] eqn:Ei; [|discriminate]. simpl in Hg. subst c.
      eapply reach_child; [exact E| |exact Hr]. simpl.
      apply list_elem_of_In. eapply list_elem_of_lookup_2. exact Ei.
Qed.

Lemma of_atom_not_ref a l : of_atom a <> VRef l.
Proof. destruct a; discriminate. Qed.

Lemma In_insert_atom (es : list val) i a l :
  In (VRef l) (<[i := of_atom a]> es) -> In (VRef l) es.
Proof.
  revert i. induction es as [|e es IH]; intros i H; [destruct i; exact H|].
  destruct i; simpl in H.
  - destruct H as [H|H]; [exfalso; eapply of_atom_not_ref; eauto|right; exact H].
  - destruct H as [H|H]; [left; exact H|right; eapply IH; eauto].
Qed.

Lemma In_set_member_atom k a (ps : list (string * val)) l :
  has_key k ps = true ->
  In (VRef l) (map snd (set_member k (of_atom a) ps)) -> In (VRef l) (map snd ps).
Proof.
  unfold has_key. induction ps as [|[k' v'] ps IH]; simpl; [discriminate|].
  rewrite (String.eqb_sym k k'). destruct (String.eqb k' k); simpl.
  - intros _ [H|H]; [exfalso; eapply of_atom_not_ref; eauto|auto].
  - intros Hk [H|H]; auto.
Qed.

Lemma set_existing_spec h o k a :
  let h' := Model.set_existing h o k (of_atom a) in
  (forall l, o <> VRef l -> h' !! l = h !! l) /\
  fewer_refs h h' /\
  (forall l, map fst (own_props h' (VRef l)) = map fst (own_props h (VRef l))).
Proof.
  cbv zeta. unfold Model.set_existing.
  destruct o as [| | | | | | |l0];
    try (split; [reflexivity|split; [apply fewer_refs_refl|reflexivity]]).
  destruct (h !! l0) as [[ps|es]|] eqn:E;
    try (split; [reflexivity|split; [apply fewer_refs_refl|reflexivity]]).
  - destruct (has_key k ps) eqn:Hk;
      try (split; [reflexivity|split; [apply fewer_refs_refl|reflexivity]]).
    split; [|split].
    + intros l Hl. apply list_lookup_insert_ne. congruence.
    + intros l o' Ho'. destruct (decide (l0 = l)) as [->|Hne].
      * rewrite list_lookup_insert_eq in Ho' by (eapply lookup_lt_Some; eauto).
        injection Ho' as <-. exists (OObj ps). split; [exact E|].
        simpl. intros l'. apply In_set_member_atom. exact Hk.
      * rewrite list_lookup_insert_ne in Ho' by exact Hne. eauto.
    + intros l. unfold own_props. destruct (decide (l0 = l)) as [->|Hne].
      * rewrite list_lookup_insert_eq by (eapply lookup_lt_Some; eauto). rewrite E.
        apply keys_set_member_existing. exact Hk.
      * rewrite list_lookup_insert_ne by exact Hne. reflexivity.
  - destruct (index_of_key k) as [i|];
      try (split; [reflexivity|split; [apply fewer_refs_refl|reflexivity]]).
    split; [|split].
    + intros l Hl. apply list_lookup_insert_ne. congruence.
    + intros l o' Ho'. destruct (decide (l0 = l)) as [->|Hne].
      * rewrite list_lookup_insert_eq in Ho' by (eapply lookup_lt_Some; eauto).
        injection Ho' as <-. exists (OArr es). split; [exact E|].
        simpl. intros l'. apply In_insert_atom.
      * rewrite list_lookup_insert_ne in Ho' by exact Hne. eauto.
    + intros l. unfold own_props. destruct (decide (l0 = l)) as [->|Hne].
      * rewrite list_lookup_insert_eq by (eapply lookup_lt_Some; eauto). rewrite E.
        assert (Hkeys : forall (a b : list val) n, length a = length b ->
                  map fst (indexed_from n a) = map fst (indexed_from n b)).
        { clear. induction a as [|x a IH]; intros [|y b] n Hl; try discriminate; [reflexivity|].
          simpl. f_equal. apply IH. simpl in Hl. lia. }
        apply Hkeys. apply length_insert.
      * rewrite list_lookup_insert_ne by exact Hne. reflexivity.
Qed.

Lemma redact_path_spec cens path :
  forall h o,
    let h' := Model.redact_path cens h o path in
    (forall l, ~ reach h o l -> h' !! l = h !! l) /\
    fewer_refs h h' /\
    (forall l, map fst (own_props h' (VRef l)) = map fst (own_props h (VRef l))).
Proof.
  cbv zeta. induction path as [|k path IH]; intros h o.
  - split; [reflexivity|split; [apply fewer_refs_refl|reflexivity]].
  - assert (Hid : (forall l, ~ reach h o l -> h !! l = h !! l) /\ fewer_refs h h /\
                  (forall l, map fst (own_props h (VRef l)) = map fst (own_props h (VRef l))))
      by (split; [reflexivity|split; [apply fewer_refs_refl|reflexivity]]).
    destruct path as [|k' path'].
    + simpl. destruct (get h o k) as [cur|e]; [|exact Hid].
      destruct (nullish cur); [exact Hid|].
      destruct (set_existing_spec h o k (cens cur)) as (Hf & Hs & Hk).
      split; [|split; assumption].
      intros l Hl. apply Hf. intros ->. apply Hl. constructor.
    + change (Model.redact_path cens h o (k :: k' :: path'))
        with (match get h o k with
              | Ok next => if truthy next then Model.redact_path cens h next (k' :: path') else h
              | Err _ => h
              end).
      destruct (get h o k) as [next|e] eqn:Hg; [|exact Hid].
      destruct (truthy next); [|exact Hid].
      destruct (IH h next) as (Hf & Hs & Hk). split; [|split; assumption].
      intros l Hl. apply Hf. intros Hr. apply Hl. eapply get_reach; eauto.
Qed.

Lemma redact_paths_spec cens paths :
  forall h0 h o,
    fewer_refs h0 h -> (forall l, ~ reach h0 o l -> h !! l = h0 !! l) ->
    (forall l, map fst (own_props h (VRef l)) = map fst (own_props h0 (VRef l))) ->
    let h' := fold_left (fun h' p => Model.redact_path cens h' o p) paths h in
    (forall l, ~ reach h0 o l -> h' !! l = h0 !! l) /\
    (forall l, map fst (own_props h' (VRef l)) = map fst (own_props h0 (VRef l))).
Proof.
  cbv zeta. induction paths as [|p paths IH]; intros h0 h o Hs Hf Hk; simpl; [auto|].
  destruct (redact_path_spec cens p h o) as (Hf1 & Hs1 & Hk1).
  apply IH.
  - eapply fewer_refs_trans; eauto.
  - intros l Hl. rewrite Hf1; [auto|]. intros Hr. apply Hl. eapply reach_fewer_refs; eauto.
  - intros l. rewrite Hk1. apply Hk.
Qed.

Lemma own_props_keys_store h h' v :
  (forall l, map fst (own_props h' (VRef l)) = map fst (own_props h (VRef l))) ->
  map fst (own_props h' v) = map fst (own_props h v).
Proof. intros H. destruct v; try reflexivity. apply H. Qed.

Lemma model_run o r h v h' v' :
  serialize o = Some (SerializeBool false) ->
  Model.fastRedact o = Ok r -> r h v = Ok (h', v') ->
  v' = v /\
  (forall l, ~ reach h v l -> h' !! l = h !! l) /\
  map fst (own_props h' v) = map fst (own_props h v).
Proof.
  intros Hs Hc Hr. unfold Model.fastRedact in Hc.
  destruct (_ && _); [discriminate|]. injection Hc as <-.
  unfold Model.redact, Model.finish in Hr. rewrite Hs in Hr.
  destruct (paths o) as [|p ps].
  - injection Hr as <- <-. auto.
  - destruct (Model.primitive v).
    + destruct (default true (strict o)); [discriminate|]. injection Hr as <- <-. auto.
    + injection Hr as <- <-. split; [reflexivity|].
      destruct (redact_paths_spec (Model.censor_fn o) (p :: ps) h h v) as (Hf & Hk);
        [apply fewer_refs_refl|reflexivity|reflexivity|].
      split; [exact Hf|]. apply own_props_keys_store. exact Hk.
Qed.

(** *** The model does not depend on where the copy lives *)

Lemma moved_length h N : length (moved h N) = (length h + length N)%nat.
Proof. unfold moved. rewrite length_app, length_map. reflexivity. Qed.

Lemma moved_lookup h N l : moved h N !! (l + length h)%nat = shift_object (length h) <$> N !! l.
Proof.
  unfold moved. rewrite lookup_app_r by lia.
  replace (l + length h - length h)%nat with l by lia. apply list_lookup_fmap.
Qed.

Lemma moved_snoc h N o :
  moved h N ++ [shift_object (length h) o] = moved h (N ++ [o]).
Proof. unfold moved. rewrite map_app, app_assoc. reflexivity. Qed.

Lemma alloc_items_moved h items :
  Forall (fun j => forall N, alloc j (moved h N)
                     = (moved h (alloc j N).1, shift (length h) (alloc j N).2)) items ->
  forall N, alloc_items items (moved h N)
            = (moved h (alloc_items items N).1, map (shift (length h)) (alloc_items items N).2).
Proof.
  induction 1 as [|x items Hx _ IH]; intros N; simpl; [reflexivity|].
  rewrite Hx. destruct (alloc x N) as [N1 v]. simpl. rewrite IH.
  destruct (alloc_items items N1) as [N2 vs]. reflexivity.
Qed.

Lemma alloc_members_moved h members :
  Forall (fun kv => forall N, alloc (snd kv) (moved h N)
                     = (moved h (alloc (snd kv) N).1, shift (length h) (alloc (snd kv) N).2))
         members ->
  forall N, alloc_members members (moved h N)
            = (moved h (alloc_members members N).1,
               shift_props (length h) (alloc_members members N).2).
Proof.
  induction 1 as [|[k x] members Hx _ IH]; intros N; simpl; [reflexivity|].
  simpl in Hx. rewrite Hx. destruct (alloc x N) as [N1 v]. simpl. rewrite IH.
  destruct (alloc_members members N1) as [N2 ps]. reflexivity.
Qed.

(** Building a tree in a longer store builds the same objects further on. *)
Lemma alloc_moved h j :
  forall N, alloc j (moved h N) = (moved h (alloc j N).1, shift (length h) (alloc j N).2).
Proof.
  induction j as [|b|z|s|items IH|members IH] using json_ind; intros N; try reflexivity.
  - rewrite !alloc_array. rewrite (alloc_items_moved h items IH).
    destruct (alloc_items items N) as [N1 vs]. unfold alloc_object. simpl.
    rewrite moved_length. rewrite <- moved_snoc. simpl. f_equal. f_equal. lia.
  - rewrite !alloc_members_eq. rewrite (alloc_members_moved h members IH).
    destruct (alloc_members members N) as [N1 ps]. unfold alloc_object. simpl.
    rewrite moved_length. rewrite <- moved_snoc. simpl. f_equal. f_equal. lia.
Qed.

Lemma truthy_shift d v : truthy (shift d v) = truthy v.
Proof. destruct v; reflexivity. Qed.

Lemma nullish_shift d v : nullish (shift d v) = nullish v.
Proof. destruct v; reflexivity. Qed.

Lemma to_atom_shift d v : to_atom (shift d v) = to_atom v.
Proof. destruct v; reflexivity. Qed.

Lemma shift_of_atom d a : shift d (of_atom a) = of_atom a.
Proof. destruct a; reflexivity. Qed.

Lemma primitive_shift d v : Model.primitive (shift d v) = Model.primitive v.
Proof. destruct v; reflexivity. Qed.

Lemma assoc_shift_props d k ps : assoc k (shift_props d ps) = shift d <$> assoc k ps.
Proof.
  induction ps as [|[k' v] ps IH]; simpl; [reflexivity|].
  destruct (String.eqb k' k); [reflexivity|exact IH].
Qed.

Lemma has_key_shift_props d k ps : has_key k (shift_props d ps) = has_key k ps.
Proof.
  unfold has_key, shift_props. rewrite map_map. reflexivity.
Qed.

Lemma set_member_shift_props d k a ps :
  set_member k (of_atom a) (shift_props d ps) = shift_props d (set_member k (of_atom a) ps).
Proof.
  induction ps as [|[k' v] ps IH]; simpl.
  - rewrite shift_of_atom. reflexivity.
  - destruct (String.eqb k' k); simpl; [rewrite shift_of_atom; reflexivity|].
    rewrite IH. reflexivity.
Qed.

Lemma chars_shift d s i : shift d (default VUndefined (chars s !! i)) = default VUndefined (chars s !! i).
Proof.
  revert i. induction s as [|c s IH]; intros i; [destruct i; reflexivity|].
  destruct i; simpl; [reflexivity|apply IH].
Qed.

Lemma get_moved h N v k :
  get (moved h N) (shift (length h) v) k = shift_result (length h) (get N v k).
Proof.
  destruct v; try reflexivity.
  - simpl. destruct (String.eqb k "length"); [reflexivity|]. simpl.
    destruct (index_of_key k) as [i|]; simpl; [|reflexivity].
    rewrite chars_shift. reflexivity.
  - simpl. rewrite moved_lookup. destruct (N !! l) as [[ps|es]|]; simpl; try reflexivity.
    + rewrite assoc_shift_props.
      destruct (assoc k ps); reflexivity.
    + rewrite length_map. destruct (String.eqb k "length"); [reflexivity|]. simpl.
      destruct (index_of_key k) as [i|]; simpl; [|reflexivity].
      rewrite list_lookup_fmap. destruct (es !! i); reflexivity.
Qed.

Lemma moved_insert h N l o :
  <[(l + length h)%nat := shift_object (length h) o]> (moved h N) = moved h (<[l := o]> N).
Proof.
  unfold moved. rewrite insert_app_r_alt by lia.
  replace (l + length h - length h)%nat with l by lia.
  rewrite list_fmap_insert. reflexivity.
Qed.

Lemma set_existing_moved h N o k a :
  Model.set_existing (moved h N) (shift (length h) o) k (of_atom a)
  = moved h (Model.set_existing N o k (of_atom a)).
Proof.
  destruct o; try reflexivity. simpl. rewrite moved_lookup.
  destruct (N !! l) as [[ps|es]|]; simpl; try reflexivity.
  - rewrite has_key_shift_props.
    destruct (has_key k ps); [|reflexivity].
    rewrite set_member_shift_props. apply (moved_insert h N l (OObj _)).
  - destruct (index_of_key k) as [i|]; [|reflexivity].
    rewrite <- (shift_of_atom (length h) a) at 1. rewrite <- list_fmap_insert.
    apply (moved_insert h N l (OArr _)).
Qed.

Lemma redact_path_moved o path :
  forall h N v,
    Model.redact_path (Model.censor_fn o) (moved h N) (shift (length h) v) path
    = moved h (Model.redact_path (Model.censor_fn o) N v path).
Proof.
  assert (Hcens : forall d cur, Model.censor_fn o (shift d cur) = Model.censor_fn o cur).
  { intros d cur. unfold Model.censor_fn.
    destruct (remove o) as [[]|]; destruct (censor o) as [[c|f]|]; try reflexivity;
      rewrite to_atom_shift; reflexivity. }
  induction path as [|k path IH]; intros h N v; [reflexivity|].
  destruct path as [|k' path'].
  - simpl. rewrite get_moved. destruct (get N v k) as [cur|e]; simpl; [|reflexivity].
    rewrite nullish_shift. destruct (nullish cur); [reflexivity|].
    rewrite Hcens. apply set_existing_moved.
  - change (Model.redact_path (Model.censor_fn o) (moved h N) (shift (length h) v)
              (k :: k' :: path'))
      with (match get (moved h N) (shift (length h) v) k with
            | Ok next => if truthy next
                         then Model.redact_path (Model.censor_fn o) (moved h N) next (k' :: path')
                         else moved h N
            | Err _ => moved h N
            end).
    change (Model.redact_path (Model.censor_fn o) N v (k :: k' :: path'))
      with (match get N v k with
            | Ok next => if truthy next
                         then Model.redact_path (Model.censor_fn o) N next (k' :: path')
                         else N
            | Err _ => N
            end).
    rewrite get_moved. destruct (get N v k) as [next|e]; simpl; [|reflexivity].
    rewrite truthy_shift. destruct (truthy next); [apply IH|reflexivity].
Qed.

Lemma redact_paths_moved o paths :
  forall h N v,
    fold_left (fun h' p => Model.redact_path (Model.censor_fn o) h' (shift (length h) v) p)
      paths (moved h N)
    = moved h (fold_left (fun h' p => Model.redact_path (Model.censor_fn o) h' v p) paths N).
Proof.
  induction paths as [|p paths IH]; intros h N v; simpl; [reflexivity|].
  rewrite redact_path_moved. apply IH.
Qed.

Lemma mem_shift d l st : mem (l + d) (map (fun x => x + d)%nat st) = mem l st.
Proof.
  unfold mem. induction st as [|x st IH]; simpl; [reflexivity|]. rewrite IH.
  f_equal. destruct (Nat.eqb_spec l x), (Nat.eqb_spec (l + d) (x + d)); auto; lia.
Qed.

Lemma ser_props_shift f d ps :
  ser_props f (shift_props d ps) = ser_props (fun v => f (shift d v)) ps.
Proof.
  induction ps as [|[k v] ps IH]; simpl; [reflexivity|]. rewrite IH. reflexivity.
Qed.

Lemma ser_elems_shift f d es :
  ser_elems f (map (shift d) es) = ser_elems (fun v => f (shift d v)) es.
Proof.
  induction es as [|v es IH]; simpl; [reflexivity|]. rewrite IH. reflexivity.
Qed.

Lemma has_toJSON_shift d ps : has_toJSON (shift_props d ps) = has_toJSON ps.
Proof.
  unfold has_toJSON. induction ps as [|[k v] ps IH]; [reflexivity|]. simpl.
  destruct (String.eqb k "toJSON"); [destruct v; reflexivity|exact IH].
Qed.

Lemma ser_object_shift f d ps :
  ser_object f (shift_props d ps) = ser_object (fun v => f (shift d v)) ps.
Proof. unfold ser_object. rewrite has_toJSON_shift, ser_props_shift. reflexivity. Qed.

Lemma to_json_moved h N n :
  forall st v,
    to_json n (moved h N) (map (fun x => x + length h)%nat st) (shift (length h) v)
    = to_json n N st v.
Proof.
  induction n as [|n IH]; intros st v; destruct v; try reflexivity.
  - simpl. rewrite mem_shift. reflexivity.
  - change (shift (length h) (VRef l)) with (VRef (l + length h)).
    rewrite !to_json_ref, mem_shift. destruct (mem l st); [reflexivity|].
    rewrite moved_lookup. destruct (N !! l) as [[ps|es]|]; simpl; try reflexivity.
    + rewrite ser_object_shift.
      rewrite (ser_object_ext _ (to_json n N (l :: st))); [reflexivity|].
      intros w _. apply (IH (l :: st)).
    + rewrite ser_elems_shift.
      rewrite (ser_elems_ext _ (to_json n N (l :: st))); [reflexivity|].
      intros w _. apply (IH (l :: st)).
Qed.

Lemma view_moved h N v : view (moved h N) (shift (length h) v) = view N v.
Proof.
  unfold view. rewrite (to_json_moved h N _ [] v).
  eapply to_json_fuel_le; [|reflexivity|].
  - rewrite moved_length. lia.
  - apply to_json_fuel; [constructor|intros l []|simpl; lia].
Qed.

Lemma moved_nil h : moved h [] = h.
Proof. unfold moved. apply app_nil_r. Qed.

(** On a fresh copy the model's redactor does the same in every store. *)
Lemma model_local o r j h1 h2 :
  serialize o = Some (SerializeBool false) ->
  Model.fastRedact o = Ok r ->
  redaction r j h1 = redaction r j h2.
Proof.
  intros Hs Hc. unfold Model.fastRedact in Hc.
  destruct (_ && _); [discriminate|]. injection Hc as <-.
  assert (H : forall h, redaction (Model.redact o) j h = redaction (Model.redact o) j []).
  { intros h. unfold redaction. rewrite <- (moved_nil h) at 1. rewrite alloc_moved.
    destruct (alloc j []) as [N v]. cbn [fst snd].
    unfold Model.redact, Model.finish. rewrite Hs.
    destruct (paths o) as [|p ps]; cbn [rbind]; [apply view_moved|].
    rewrite primitive_shift. destruct (Model.primitive v).
    - destruct (default true (strict o)); [reflexivity|]. cbn [rbind]. apply view_moved.
    - cbn [rbind]. rewrite redact_paths_moved. apply view_moved. }
  rewrite (H h1), (H h2). reflexivity.
Qed.

(** *** Every object stays an object with its keys *)

Lemma set_existing_objects h o k a l ps :
  h !! l = Some (OObj ps) ->
  exists ps', Model.set_existing h o k (of_atom a) !! l = Some (OObj ps') /\
              map fst ps' = map fst ps.
Proof.
  intros Hl. unfold Model.set_existing. destruct o as [| | | | | | |l0]; eauto.
  destruct (h !! l0) as [[ps0|es]|] eqn:E; eauto.
  - destruct (has_key k ps0) eqn:Hk; eauto.
    destruct (decide (l0 = l)) as [->|Hne].
    + rewrite list_lookup_insert_eq by (eapply lookup_lt_Some; eauto).
      assert (ps0 = ps) by congruence. subst ps0.
      eexists. split; [reflexivity|]. apply keys_set_member_existing. exact Hk.
    + rewrite list_lookup_insert_ne by exact Hne. eauto.
  - destruct (index_of_key k) as [i|]; eauto.
    rewrite list_lookup_insert_ne by congruence. eauto.
Qed.

Lemma redact_path_objects cens path :
  forall h o l ps,
    h !! l = Some (OObj ps) ->
    exists ps', Model.redact_path cens h o path !! l = Some (OObj ps') /\
                map fst ps' = map fst ps.
Proof.
  induction path as [|k path IH]; intros h o l ps Hl; [simpl; eauto|].
  destruct path as [|k' path'].
  - simpl. destruct (get h o k) as [cur|e]; [|eauto].
    destruct (nullish cur); [eauto|]. apply set_existing_objects. exact Hl.
  - change (Model.redact_path cens h o (k :: k' :: path'))
      with (match get h o k with
            | Ok next => if truthy next then Model.redact_path cens h next (k' :: path') else h
            | Err _ => h
            end).
    destruct (get h o k) as [next|e]; [|eauto]. destruct (truthy next); [|eauto].
    apply IH. exact Hl.
Qed.

Lemma redact_paths_objects cens paths :
  forall h o l ps,
    h !! l = Some (OObj ps) ->
    exists ps', fold_left (fun h' p => Model.redact_path cens h' o p) paths h !! l
                = Some (OObj ps') /\
                map fst ps' = map fst ps.
Proof.
  induction paths as [|p paths IH]; intros h o l ps Hl; [simpl; eauto|]. simpl.
  destruct (redact_path_objects cens p h o l ps Hl) as (ps1 & H1 & Hk1).
  destruct (IH _ o l ps1 H1) as (ps' & H' & Hk'). exists ps'. split; [exact H'|congruence].
Qed.

Lemma model_keeps_objects o r h v h' v' l ps :
  serialize o = Some (SerializeBool false) ->
  Model.fastRedact o = Ok r -> r h v = Ok (h', v') ->
  h !! l = Some (OObj ps) ->
  exists ps', h' !! l = Some (OObj ps') /\ map fst ps' = map fst ps.
Proof.
  intros Hs Hc Hr Hl. unfold Model.fastRedact in Hc.
  destruct (_ && _); [discriminate|]. injection Hc as <-.
  unfold Model.redact, Model.finish in Hr. rewrite Hs in Hr.
  destruct (paths o) as [|p ps0].
  - injection Hr as <- <-. eauto.
  - destruct (Model.primitive v).
    + destruct (default true (strict o)); [discriminate|]. injection Hr as <- <-. eauto.
    + injection Hr as <- <-.
      exact (redact_paths_objects (Model.censor_fn o) (p :: ps0) h v l ps Hl).
Qed.

Lemma has_key_keys {A B} k (l1 : list (string * A)) (l2 : list (string * B)) :
  map fst l1 = map fst l2 -> has_key k l1 = has_key k l2.
Proof. unfold has_key. intros ->. reflexivity. Qed.

#[export] Instance model_library : Library.
Proof.
  refine {| fastRedact := Model.fastRedact |}.
  - intros o r h v h' v' Hs Hc Hr. exact (proj1 (model_run o r h v h' v' Hs Hc Hr)).
  - intros o r h v h' v' l ps Hs Hc Hr Hl.
    destruct (model_keeps_objects o r h v h' v' l ps Hs Hc Hr Hl) as (ps' & H' & Hk).
    exists ps'. split; [exact H'|]. intros k Hkey. rewrite (has_key_keys k ps' ps Hk). exact Hkey.
Defined.

End ModelFacts.

(** ** The model of fast-redact through the prototypes *)

Module RealmFacts.
Import Json Js JsonFacts ObjectFacts StoreFacts FastRedact ModelFacts Vocabulary Shapes.
Local Open Scope string_scope.
Local Open Scope list_scope.

(** *** Reading and writing within own properties *)

Lemma get_own h v k :
  nullish v = false -> get h v k = Ok (default VUndefined (Model.own h v k)).
Proof.
  destruct v; try discriminate; intros _; try reflexivity; simpl.
  - destruct (String.eqb k "length"); reflexivity.
  - destruct (h !! l) as [[ps|es]|]; try reflexivity.
    destruct (String.eqb k "length"); reflexivity.
Qed.

Lemma chain_prototypes R h v p :
  In p (Model.lookup_chain R h v) -> In p (Model.prototypes R).
Proof.
  unfold Model.lookup_chain, Model.prototypes.
  destruct (Model.prototype R h v) as [q|] eqn:E; [|intros []].
  assert (Hq : In q (Model.prototypes R)).
  { unfold Model.prototype in E. unfold Model.prototypes.
    destruct v; try discriminate; try (injection E as <-; simpl; tauto).
    destruct (Nat.eqb l (Model.ObjectPrototype R)); [discriminate|].
    destruct (h !! l) as [[ps|es]|]; injection E as <-; simpl; tauto. }
  destruct (Nat.eqb q (Model.ObjectPrototype R)).
  - intros [<-|[]]. exact Hq.
  - intros [<-|[<-|[]]]; [exact Hq|simpl; tauto].
Qed.

Lemma not_inherited R h k :
  inherited R h k = false ->
  String.eqb k "__proto__" = false /\
  forall p, In p (Model.prototypes R) -> Model.own h (VRef p) k = None.
Proof.
  unfold inherited. intros H. apply orb_false_iff in H. destruct H as [Hk Hex].
  split; [exact Hk|]. intros p Hp.
  destruct (Model.own h (VRef p) k) as [x|] eqn:E; [|reflexivity].
  exfalso. assert (Ht : existsb (fun p => is_some (Model.own h (VRef p) k)) (Model.prototypes R) = true).
  { apply existsb_exists. exists p. split; [exact Hp|]. rewrite E. reflexivity. }
  congruence.
Qed.

Lemma inherited_from_none h k ps :
  (forall p, In p ps -> Model.own h (VRef p) k = None) -> Model.inherited_from h ps k = None.
Proof.
  induction ps as [|p ps IH]; intros H; [reflexivity|]. cbn [Model.inherited_from].
  rewrite (H p) by (left; reflexivity). apply IH. intros q Hq. apply H. right. exact Hq.
Qed.

Lemma plain_key_inv R h k :
  plain_key R h k = true -> inherited R h k = false /\ String.eqb k "length" = false.
Proof.
  unfold plain_key. intros H. apply andb_true_iff in H. destruct H as [H1 H2].
  apply negb_true_iff in H1. apply negb_true_iff in H2. auto.
Qed.

(** A key that is not inherited is looked up in the value alone. *)
Lemma lookup_get R h v k :
  plain_key R h k = true -> plain_value v -> Model.lookup R h v k = get h v k.
Proof.
  intros Hk Hv. apply plain_key_inv in Hk. destruct Hk as [Hk _].
  destruct (not_inherited _ _ _ Hk) as [Hproto Hnone].
  assert (Hchain : Model.inherited_from h (Model.lookup_chain R h v) k = None).
  { apply inherited_from_none. intros p Hp. apply Hnone. eapply chain_prototypes. exact Hp. }
  destruct v; try reflexivity; try (destruct Hv);
    unfold Model.lookup; rewrite Hchain, Hproto, get_own by reflexivity;
    match goal with |- context [Model.own ?h ?v ?k] => destruct (Model.own h v k) end;
    reflexivity.
Qed.

Lemma has_key_assoc_some {A} k (ps : list (string * A)) v :
  assoc k ps = Some v -> has_key k ps = true.
Proof. intros H. apply has_key_assoc. eauto. Qed.

(** Where the value is there, the assignment overwrites it. *)
Lemma assign_set h v k cur x :
  String.eqb k "length" = false -> plain_value v ->
  get h v k = Ok cur -> nullish cur = false ->
  Model.assign h v k x = Ok (Model.set_existing h v k x).
Proof.
  intros Hlen Hv Hg Hcur. destruct v; try (destruct Hv); try discriminate; try reflexivity.
  simpl in Hg. unfold Model.assign, Model.set_existing.
  destruct (h !! l) as [[ps|es]|] eqn:E.
  - injection Hg as Hg. destruct (assoc k ps) as [c|] eqn:Ea;
      [|simpl in Hg; subst cur; discriminate].
    rewrite (has_key_assoc_some _ _ _ Ea). rewrite andb_false_r. reflexivity.
  - rewrite Hlen in Hg. injection Hg as Hg.
    destruct (index_of_key k) as [i|]; [|simpl in Hg; subst cur; discriminate].
    simpl in Hg. destruct (es !! i) as [c|] eqn:Ei; [|simpl in Hg; subst cur; discriminate].
    apply lookup_lt_Some in Ei. apply Nat.ltb_lt in Ei. rewrite Ei. reflexivity.
  - reflexivity.
Qed.

Lemma atom_eqb_eq a b : Model.atom_eqb a b = true -> a = b.
Proof.
  destruct a, b; simpl; try discriminate; try reflexivity; intros H.
  - apply Bool.eqb_prop in H. congruence.
  - apply Z.eqb_eq in H. congruence.
  - apply String.eqb_eq in H. congruence.
Qed.

Lemma of_to_atom v a : to_atom v = Some a -> of_atom a = v.
Proof. destruct v; simpl; intros [= <-]; reflexivity. Qed.

Lemma censor_value_fn o c cur : Model.censor_value o = Some c -> Model.censor_fn o cur = c.
Proof.
  unfold Model.censor_value, Model.censor_fn.
  destruct (remove o) as [[|]|]; destruct (censor o) as [[c'|f]|]; congruence.
Qed.

Lemma set_member_same {A} k (v : A) ps : assoc k ps = Some v -> set_member k v ps = ps.
Proof.
  induction ps as [|[k' v'] ps IH]; [discriminate|]. simpl.
  destruct (String.eqb k' k) eqn:E.
  - intros [= ->]. apply String.eqb_eq in E. subst k'. reflexivity.
  - intros H. rewrite IH by exact H. reflexivity.
Qed.

(** Writing the value that is there changes nothing. *)
Lemma set_existing_same h v k cur :
  get h v k = Ok cur -> nullish cur = false -> Model.set_existing h v k cur = h.
Proof.
  intros Hg Hcur. destruct v; try reflexivity. simpl in Hg. unfold Model.set_existing.
  destruct (h !! l) as [[ps|es]|] eqn:E; [| |reflexivity].
  - injection Hg as Hg. destruct (assoc k ps) as [c|] eqn:Ea;
      [|simpl in Hg; subst cur; discriminate].
    simpl in Hg. subst c. rewrite (has_key_assoc_some _ _ _ Ea), (set_member_same _ _ _ Ea).
    apply list_insert_id. exact E.
  - destruct (String.eqb k "length") eqn:Hlen.
    + apply String.eqb_eq in Hlen. subst k. reflexivity.
    + injection Hg as Hg. destruct (index_of_key k) as [i|]; [|reflexivity].
      simpl in Hg. destruct (es !! i) as [c|] eqn:Ei; [|simpl in Hg; subst cur; discriminate].
      simpl in Hg. subst c. rewrite (list_insert_id es i cur Ei). apply list_insert_id. exact E.
Qed.

Lemma precensored_same o h v k cur :
  Model.precensored o cur = true -> get h v k = Ok cur -> nullish cur = false ->
  Model.set_existing h v k (of_atom (Model.censor_fn o cur)) = h.
Proof.
  unfold Model.precensored. intros Hp Hg Hcur.
  destruct (Model.censor_value o) as [c|] eqn:Ec; [|discriminate].
  destruct (to_atom cur) as [a|] eqn:Ea; [|discriminate].
  apply atom_eqb_eq in Hp. subst a.
  rewrite (censor_value_fn _ _ cur Ec), (of_to_atom _ _ Ea).
  eapply set_existing_same; eauto.
Qed.

(** *** What redaction keeps of the store *)

Lemma censored_refl h : censored h h.
Proof. intros l o Ho. exists o. auto. Qed.

Lemma censored_trans h1 h2 h3 : censored h1 h2 -> censored h2 h3 -> censored h1 h3.
Proof.
  intros H12 H23 l o3 Ho3. destruct (H23 _ _ Ho3) as (o2 & Ho2 & H2).
  destruct (H12 _ _ Ho2) as (o1 & Ho1 & H1). exists o1. split; [exact Ho1|].
  intros w Hw. destruct (H2 w Hw) as [Hw2|Ha]; [auto|auto].
Qed.

Lemma In_set_member_values {A} k (x : A) ps w :
  In w (map snd (set_member k x ps)) -> In w (map snd ps) \/ w = x.
Proof.
  induction ps as [|[k' v'] ps IH]; simpl.
  - intros [<-|[]]. auto.
  - destruct (String.eqb k' k); simpl; intros [<-|H]; auto.
    destruct (IH H); auto.
Qed.

Lemma In_insert_values {A} i (x : A) es w : In w (<[i := x]> es) -> In w es \/ w = x.
Proof.
  revert i. induction es as [|e es IH]; intros i H; [destruct i; destruct H|].
  destruct i; simpl in H.
  - destruct H as [<-|H]; auto. left. right. exact H.
  - destruct H as [<-|H]; [left; left; reflexivity|]. destruct (IH _ H); auto. left. right. auto.
Qed.

Lemma set_existing_censored h o k a : censored h (Model.set_existing h o k (of_atom a)).
Proof.
  unfold Model.set_existing. destruct o as [| | | | | | |l0]; try apply censored_refl.
  destruct (h !! l0) as [[ps|es]|] eqn:E; try apply censored_refl.
  - destruct (has_key k ps); [|apply censored_refl].
    intros l o' Ho'. destruct (decide (l0 = l)) as [->|Hne].
    + rewrite list_lookup_insert_eq in Ho' by (eapply lookup_lt_Some; eauto).
      injection Ho' as <-. exists (OObj ps). split; [exact E|]. simpl. intros w Hw.
      destruct (In_set_member_values _ _ _ _ Hw); eauto.
    + rewrite list_lookup_insert_ne in Ho' by exact Hne. exists o'. auto.
  - destruct (index_of_key k) as [i|]; [|apply censored_refl].
    intros l o' Ho'. destruct (decide (l0 = l)) as [->|Hne].
    + rewrite list_lookup_insert_eq in Ho' by (eapply lookup_lt_Some; eauto).
      injection Ho' as <-. exists (OArr es). split; [exact E|]. simpl. intros w Hw.
      destruct (In_insert_values _ _ _ _ Hw); eauto.
    + rewrite list_lookup_insert_ne in Ho' by exact Hne. exists o'. auto.
Qed.

Lemma redact_path_censored cens path : forall h o, censored h (Model.redact_path cens h o path).
Proof.
  induction path as [|k path IH]; intros h o; [apply censored_refl|].
  destruct path as [|k' path'].
  - simpl. destruct (get h o k) as [cur|e]; [|apply censored_refl].
    destruct (nullish cur); [apply censored_refl|apply set_existing_censored].
  - change (Model.redact_path cens h o (k :: k' :: path'))
      with (match get h o k with
            | Ok next => if truthy next then Model.redact_path cens h next (k' :: path') else h
            | Err _ => h
            end).
    destruct (get h o k) as [next|e]; [|apply censored_refl].
    destruct (truthy next); [apply IH|apply censored_refl].
Qed.

Lemma censored_fewer_refs h h' : censored h h' -> fewer_refs h h'.
Proof.
  intros Hc l o' Ho'. destruct (Hc _ _ Ho') as (o & Ho & Hsub). exists o. split; [exact Ho|].
  intros l' Hin. destruct (Hsub _ Hin) as [H|[a Ha]]; [exact H|].
  exfalso. symmetry in Ha. eapply of_atom_not_ref. exact Ha.
Qed.

Lemma plain_atom a : plain_value (of_atom a).
Proof. destruct a; exact I. Qed.

Lemma data_censored h h' x : censored h h' -> data h x -> data h' x.
Proof.
  intros Hc [Hx Hall]. split; [exact Hx|]. intros l o' w Hr Ho' Hw.
  destruct (Hc _ _ Ho') as (o & Ho & Hsub).
  destruct (Hsub _ Hw) as [Hin|[a ->]]; [|apply plain_atom].
  eapply Hall; [|exact Ho|exact Hin]. eapply reach_fewer_refs; [|exact Hr].
  apply censored_fewer_refs. exact Hc.
Qed.

Lemma chars_plain s i w : chars s !! i = Some w -> plain_value w.
Proof.
  revert i. induction s as [|c s IH]; intros i H; [destruct i; discriminate|].
  destruct i; simpl in H; [injection H as <-; exact I|eauto].
Qed.

(** What a value of a tree answers is a value of the tree. *)
Lemma data_get h x k next : data h x -> get h x k = Ok next -> data h next.
Proof.
  intros [Hx Hall] Hg. split.
  - destruct x; simpl in Hg; try discriminate; try (injection Hg as <-; exact I).
    + destruct (String.eqb k "length"); injection Hg as <-; [exact I|].
      destruct (index_of_key k) as [i|]; [|exact I]. simpl.
      destruct (chars s !! i) as [c|] eqn:E; [|exact I]. simpl. eapply chars_plain. exact E.
    + destruct (h !! l) as [[ps|es]|] eqn:E; try (injection Hg as <-; exact I).
      * injection Hg as <-. destruct (assoc k ps) as [c|] eqn:Ea; [|exact I]. simpl.
        eapply (Hall l (OObj ps) c); [apply reach_here|exact E|].
        simpl. eapply assoc_In. exact Ea.
      * destruct (String.eqb k "length"); injection Hg as <-; [exact I|].
        destruct (index_of_key k) as [i|]; [|exact I]. simpl.
        destruct (es !! i) as [c|] eqn:Ei; [|exact I]. simpl.
        eapply (Hall l (OArr es) c); [apply reach_here|exact E|].
        simpl. apply list_elem_of_In. eapply list_elem_of_lookup_2. exact Ei.
  - intros l o w Hr Ho Hw. eapply Hall; [|exact Ho|exact Hw]. eapply get_reach; eauto.
Qed.

Lemma truthy_value_not_nullish v : truthy v = true -> nullish v = false.
Proof. destruct v; simpl; congruence. Qed.

(** *** The keys of the prototypes do not change *)

Lemma set_existing_own h o k a p k' :
  is_some (Model.own (Model.set_existing h o k (of_atom a)) (VRef p) k')
  = is_some (Model.own h (VRef p) k').
Proof.
  unfold Model.set_existing. destruct o as [| | | | | | |l0]; try reflexivity.
  destruct (h !! l0) as [[ps|es]|] eqn:E; try reflexivity.
  - destruct (has_key k ps) eqn:Hk; [|reflexivity].
    unfold Model.own. destruct (decide (l0 = p)) as [->|Hne].
    + rewrite list_lookup_insert_eq by (eapply lookup_lt_Some; eauto). rewrite E.
      destruct (String.eqb k k') eqn:Ek.
      * apply String.eqb_eq in Ek. subst k'. rewrite assoc_set_member_eq.
        apply has_key_assoc in Hk. destruct Hk as [c ->]. reflexivity.
      * rewrite assoc_set_member_ne; [reflexivity|]. intros ->. rewrite String.eqb_refl in Ek.
        discriminate.
    + rewrite list_lookup_insert_ne by exact Hne. reflexivity.
  - destruct (index_of_key k) as [i|]; [|reflexivity].
    unfold Model.own. destruct (decide (l0 = p)) as [->|Hne].
    + rewrite list_lookup_insert_eq by (eapply lookup_lt_Some; eauto). rewrite E.
      rewrite length_insert. destruct (String.eqb k' "length"); [reflexivity|].
      destruct (index_of_key k') as [i'|]; [|reflexivity]. simpl.
      destruct (es !! i') as [c|] eqn:Ei.
      * assert (Hs : is_Some (<[i := of_atom a]> es !! i')).
        { apply lookup_lt_is_Some. rewrite length_insert. eapply lookup_lt_Some. exact Ei. }
        destruct Hs as [c' ->]. reflexivity.
      * assert (Hn : <[i := of_atom a]> es !! i' = None).
        { apply lookup_ge_None. rewrite length_insert. apply lookup_ge_None. exact Ei. }
        rewrite Hn. reflexivity.
    + rewrite list_lookup_insert_ne by exact Hne. reflexivity.
Qed.

Lemma redact_path_own cens path p k' :
  forall h o,
    is_some (Model.own (Model.redact_path cens h o path) (VRef p) k')
    = is_some (Model.own h (VRef p) k').
Proof.
  induction path as [|k path IH]; intros h o; [reflexivity|].
  destruct path as [|k0 path'].
  - simpl. destruct (get h o k) as [cur|e]; [|reflexivity].
    destruct (nullish cur); [reflexivity|apply set_existing_own].
  - change (Model.redact_path cens h o (k :: k0 :: path'))
      with (match get h o k with
            | Ok next => if truthy next then Model.redact_path cens h next (k0 :: path') else h
            | Err _ => h
            end).
    destruct (get h o k) as [next|e]; [|reflexivity].
    destruct (truthy next); [apply IH|reflexivity].
Qed.

Lemma inherited_ext R h h' :
  (forall p k, is_some (Model.own h' (VRef p) k) = is_some (Model.own h (VRef p) k)) ->
  forall k, inherited R h' k = inherited R h k.
Proof.
  intros H k. unfold inherited. f_equal.
  induction (Model.prototypes R) as [|p ps IH]; [reflexivity|]. cbn [existsb].
  rewrite H, IH. reflexivity.
Qed.

Lemma plain_keys_ext R h h' ks :
  (forall p k, is_some (Model.own h' (VRef p) k) = is_some (Model.own h (VRef p) k)) ->
  forallb (plain_key R h') ks = forallb (plain_key R h) ks.
Proof.
  intros H. induction ks as [|k ks IH]; [reflexivity|]. simpl.
  unfold plain_key at 1 3. rewrite (inherited_ext R h h' H), IH. reflexivity.
Qed.

(** *** Paths within own properties are followed alike *)

Lemma redact_path_in_eq R o path :
  forall h v,
    forallb (plain_key R h) path = true -> data h v -> nullish v = false ->
    Model.redact_path_in R o h v path = Ok (Model.redact_path (Model.censor_fn o) h v path).
Proof.
  induction path as [|k path IH]; intros h v Hks Hv Hn; [reflexivity|].
  simpl in Hks. apply andb_true_iff in Hks. destruct Hks as [Hk Hks].
  pose proof (lookup_get R h v k Hk (proj1 Hv)) as Hl.
  pose proof (get_own h v k Hn) as Hg.
  destruct path as [|k' path'].
  - simpl. rewrite Hl, Hg. cbn [rbind].
    set (cur := default VUndefined (Model.own h v k)) in *.
    destruct (nullish cur) eqn:Hcur; [reflexivity|]. cbn [orb].
    destruct (Model.precensored o cur) eqn:Hp.
    + rewrite (precensored_same o h v k cur Hp Hg Hcur). reflexivity.
    + apply (assign_set h v k cur); [|exact (proj1 Hv)|exact Hg|exact Hcur].
      apply plain_key_inv in Hk. tauto.
  - change (Model.redact_path_in R o h v (k :: k' :: path'))
      with (let* next := Model.lookup R h v k in
            if truthy next then Model.redact_path_in R o h next (k' :: path') else Ok h).
    change (Model.redact_path (Model.censor_fn o) h v (k :: k' :: path'))
      with (match get h v k with
            | Ok next =>
                if truthy next then Model.redact_path (Model.censor_fn o) h next (k' :: path')
                else h
            | Err _ => h
            end).
    rewrite Hl, Hg. cbn [rbind].
    set (next := default VUndefined (Model.own h v k)) in *.
    destruct (truthy next) eqn:Ht; [|reflexivity].
    apply IH; [exact Hks|eapply data_get; eauto|apply truthy_value_not_nullish; exact Ht].
Qed.

Lemma redact_paths_in_eq R o ps :
  forall h x,
    forallb (forallb (plain_key R h)) ps = true -> data h x -> nullish x = false ->
    Model.redact_paths_in R o h x ps
    = Ok (fold_left (fun h' p => Model.redact_path (Model.censor_fn o) h' x p) ps h).
Proof.
  induction ps as [|p ps IH]; intros h x Hps Hx Hn; [reflexivity|].
  simpl in Hps. apply andb_true_iff in Hps. destruct Hps as [Hp Hps].
  simpl. rewrite (redact_path_in_eq R o p h x Hp Hx Hn). cbn [rbind].
  apply IH; [|eapply data_censored; [apply redact_path_censored|exact Hx]|exact Hn].
  rewrite <- Hps. clear. induction ps as [|q ps IH]; [reflexivity|]. simpl.
  rewrite IH. f_equal. apply plain_keys_ext. intros p0 k. apply redact_path_own.
Qed.

(** On a value that leads to no function and no BigInt, under rules
    whose paths stay within own properties, the library through the
    prototypes is the library within own properties. *)
Lemma redact_in_eq R o h x :
  plain_paths R h o = true -> data h x -> Model.redact_in R o h x = Model.redact o h x.
Proof.
  unfold plain_paths, Model.redact_in, Model.redact. intros Hps Hx.
  destruct (paths o) as [|p ps]; [reflexivity|].
  destruct (Model.primitive x) eqn:Hprim; [reflexivity|].
  rewrite (redact_paths_in_eq R o (p :: ps) h x Hps Hx); [reflexivity|].
  destruct x; try discriminate Hprim; reflexivity.
Qed.

(** *** Built trees *)

Lemma own_app h new p k :
  (p < length h)%nat -> Model.own (h ++ new) (VRef p) k = Model.own h (VRef p) k.
Proof. intros Hp. unfold Model.own. rewrite lookup_app_l by exact Hp. reflexivity. Qed.

Lemma inherited_app R h new k :
  realm_in R h = true -> inherited R (h ++ new) k = inherited R h k.
Proof.
  unfold realm_in, inherited. intros Hin. f_equal.
  induction (Model.prototypes R) as [|p ps IH]; [reflexivity|]. cbn [existsb forallb] in Hin |- *.
  apply andb_true_iff in Hin. destruct Hin as [Hp Hin]. apply Nat.ltb_lt in Hp.
  rewrite own_app by exact Hp. rewrite IH by exact Hin. reflexivity.
Qed.

Lemma plain_paths_app R h new o :
  realm_in R h = true -> plain_paths R (h ++ new) o = plain_paths R h o.
Proof.
  intros Hin. unfold plain_paths. induction (paths o) as [|p ps IH]; [reflexivity|].
  simpl. rewrite IH. f_equal. clear IH. induction p as [|k p IH]; [reflexivity|]. simpl.
  unfold plain_key at 1 3. rewrite inherited_app by exact Hin. rewrite IH. reflexivity.
Qed.

Lemma alloc_items_data items :
  Forall builds_data items ->
  forall h, Forall plain_value (alloc_items items h).2 /\
    exists new, (alloc_items items h).1 = h ++ new /\
                Forall (fun o => Forall plain_value (fields o)) new.
Proof.
  induction 1 as [|x items Hx _ IH]; intros h; simpl.
  - split; [constructor|]. exists []. rewrite app_nil_r. split; [reflexivity|constructor].
  - destruct (Hx h) as (Hv & n1 & E1 & Hn1).
    destruct (alloc x h) as [h1 v]. simpl in *. subst h1.
    destruct (IH (h ++ n1)) as (Hvs & n2 & E2 & Hn2).
    destruct (alloc_items items (h ++ n1)) as [h2 vs]. simpl in *. subst h2.
    split; [constructor; assumption|]. exists (n1 ++ n2). rewrite app_assoc.
    split; [reflexivity|]. apply Forall_app. auto.
Qed.

Lemma alloc_members_data (members : list (string * json)) :
  Forall (fun kv => builds_data (snd kv)) members ->
  forall h, Forall plain_value (map snd (alloc_members members h).2) /\
    exists new, (alloc_members members h).1 = h ++ new /\
                Forall (fun o => Forall plain_value (fields o)) new.
Proof.
  induction 1 as [|[k x] members Hx _ IH]; intros h; simpl.
  - split; [constructor|]. exists []. rewrite app_nil_r. split; [reflexivity|constructor].
  - simpl in Hx. destruct (Hx h) as (Hv & n1 & E1 & Hn1).
    destruct (alloc x h) as [h1 v]. simpl in *. subst h1.
    destruct (IH (h ++ n1)) as (Hvs & n2 & E2 & Hn2).
    destruct (alloc_members members (h ++ n1)) as [h2 vs]. simpl in *. subst h2.
    split; [constructor; assumption|]. exists (n1 ++ n2). rewrite app_assoc.
    split; [reflexivity|]. apply Forall_app. auto.
Qed.

Lemma alloc_builds_data j : builds_data j.
Proof.
  induction j as [|b|z|s|items IH|members IH] using json_ind; intros h;
    try (split; [exact I|]; exists []; rewrite app_nil_r; split; [reflexivity|constructor]).
  - rewrite alloc_array. destruct (alloc_items_data _ IH h) as (Hvs & new & E & Hnew).
    destruct (alloc_items items h) as [h1 vs]. simpl in *. subst h1.
    split; [exact I|]. exists (new ++ [OArr vs]). rewrite app_assoc. split; [reflexivity|].
    apply Forall_app. split; [exact Hnew|]. constructor; [exact Hvs|constructor].
  - rewrite alloc_members_eq. destruct (alloc_members_data _ IH h) as (Hvs & new & E & Hnew).
    destruct (alloc_members members h) as [h1 ps]. simpl in *. subst h1.
    split; [exact I|]. exists (new ++ [OObj ps]). rewrite app_assoc. split; [reflexivity|].
    apply Forall_app. split; [exact Hnew|]. constructor; [exact Hvs|constructor].
Qed.

Lemma data_alloc j h : data (alloc j h).1 (alloc j h).2.
Proof.
  destruct (alloc_builds_data j h) as (Hv & new & E & Hnew). split; [exact Hv|].
  intros l o w Hr Ho Hw.
  assert (Hl : (length h <= l)%nat).
  { apply (alloc_reach_fresh j h (alloc j h).1 (alloc j h).2); [|exact Hr].
    destruct (alloc j h); reflexivity. }
  rewrite E in Ho. rewrite lookup_app_r in Ho by exact Hl.
  rewrite Forall_forall in Hnew. apply list_elem_of_lookup_2 in Ho.
  specialize (Hnew _ Ho). rewrite Forall_forall in Hnew. apply Hnew.
  apply list_elem_of_In. exact Hw.
Qed.

(** On the copy that the interceptor builds, in a store that holds the
    prototypes, rules whose paths stay within own properties are
    followed as within own properties. *)
Lemma redact_in_copy R o j h :
  realm_in R h = true -> plain_paths R h o = true ->
  Model.redact_in R o (alloc j h).1 (alloc j h).2 = Model.redact o (alloc j h).1 (alloc j h).2.
Proof.
  intros Hin Hps. apply redact_in_eq; [|apply data_alloc].
  destruct (alloc_builds_data j h) as (_ & new & E & _). rewrite E.
  rewrite plain_paths_app by exact Hin. exact Hps.
Qed.

(** *** The library through the prototypes keeps every object *)

Lemma has_key_set_member_kept {A} k (x : A) ps k0 :
  has_key k0 ps = true -> has_key k0 (set_member k x ps) = true.
Proof. intros Hk. rewrite has_key_set_member, Hk. reflexivity. Qed.

Lemma assign_objects h v k x h' l ps :
  Model.assign h v k x = Ok h' -> h !! l = Some (OObj ps) ->
  exists ps', h' !! l = Some (OObj ps') /\
              forall k0, has_key k0 ps = true -> has_key k0 ps' = true.
Proof.
  intros Ha Hl. unfold Model.assign in Ha.
  destruct v as [| | | | | | |l0]; try discriminate Ha; try (injection Ha as <-; eauto).
  destruct (h !! l0) as [[ps0|es]|] eqn:E.
  - destruct (String.eqb k "__proto__" && negb (has_key k ps0)).
    + destruct x; try discriminate Ha; injection Ha as <-; eauto.
    + injection Ha as <-. destruct (decide (l0 = l)) as [->|Hne].
      * rewrite list_lookup_insert_eq by (eapply lookup_lt_Some; eauto).
        assert (ps0 = ps) by congruence. subst ps0.
        eexists. split; [reflexivity|]. intros k0. apply has_key_set_member_kept.
      * rewrite list_lookup_insert_ne by exact Hne. eauto.
  - destruct (index_of_key k) as [i|]; [|discriminate].
    destruct (i <? length es)%nat; [|discriminate]. injection Ha as <-.
    destruct (decide (l0 = l)) as [->|Hne]; [congruence|].
    rewrite list_lookup_insert_ne by exact Hne. eauto.
  - injection Ha as <-. eauto.
Qed.

Lemma redact_path_in_objects R o path :
  forall h v h' l ps,
    Model.redact_path_in R o h v path = Ok h' -> h !! l = Some (OObj ps) ->
    exists ps', h' !! l = Some (OObj ps') /\
                forall k0, has_key k0 ps = true -> has_key k0 ps' = true.
Proof.
  induction path as [|k path IH]; intros h v h' l ps Hrun Hl.
  - injection Hrun as <-. eauto.
  - destruct path as [|k' path'].
    + cbn [Model.redact_path_in] in Hrun.
      destruct (Model.lookup R h v k) as [cur|e]; [|discriminate]. cbn [rbind] in Hrun.
      destruct (nullish cur || Model.precensored o cur).
      * injection Hrun as <-. eauto.
      * eapply assign_objects; eauto.
    + change (Model.redact_path_in R o h v (k :: k' :: path'))
        with (let* next := Model.lookup R h v k in
              if truthy next then Model.redact_path_in R o h next (k' :: path') else Ok h)
        in Hrun.
      destruct (Model.lookup R h v k) as [next|e]; [|discriminate]. cbn [rbind] in Hrun.
      destruct (truthy next); [eapply IH; eauto|]. injection Hrun as <-. eauto.
Qed.

Lemma redact_paths_in_objects R o paths :
  forall h v h' l ps,
    Model.redact_paths_in R o h v paths = Ok h' -> h !! l = Some (OObj ps) ->
    exists ps', h' !! l = Some (OObj ps') /\
                forall k0, has_key k0 ps = true -> has_key k0 ps' = true.
Proof.
  induction paths as [|p paths IH]; intros h v h' l ps Hrun Hl.
  - injection Hrun as <-. eauto.
  - cbn [Model.redact_paths_in] in Hrun.
    destruct (Model.redact_path_in R o h v p) as [h1|e] eqn:E1; [|discriminate].
    cbn [rbind] in Hrun.
    destruct (redact_path_in_objects R o p _ _ _ _ _ E1 Hl) as (ps1 & H1 & Hk1).
    destruct (IH _ _ _ _ _ Hrun H1) as (ps' & H' & Hk'). exists ps'. split; [exact H'|].
    intros k0 Hk0. apply Hk', Hk1, Hk0.
Qed.

(** Whatever the paths, the library through the prototypes meets what
    is asked of the library: it returns its argument, and every object
    stays an object and keeps its keys. *)
#[local] Instance realm_library (R : Model.realm) : Library.
Proof.
  refine {| fastRedact := Model.fastRedact_in R |}.
  - intros o r h v h' v' Hs Hc Hr. unfold Model.fastRedact_in in Hc.
    destruct (_ && _); [discriminate|]. injection Hc as <-.
    unfold Model.redact_in, Model.finish in Hr. rewrite Hs in Hr.
    destruct (paths o) as [|p ps0]; [congruence|].
    destruct (Model.primitive v).
    + destruct (default true (strict o)); [discriminate|]. congruence.
    + destruct (Model.redact_paths_in R o h v (p :: ps0)); [|discriminate].
      cbn [rbind] in Hr. congruence.
  - intros o r h v h' v' l ps Hs Hc Hr Hl. unfold Model.fastRedact_in in Hc.
    destruct (_ && _); [discriminate|]. injection Hc as <-.
    unfold Model.redact_in, Model.finish in Hr. rewrite Hs in Hr.
    destruct (paths o) as [|p ps0]; [injection Hr as <- <-; eauto|].
    destruct (Model.primitive v).
    + destruct (default true (strict o)); [discriminate|]. injection Hr as <- <-. eauto.
    + destruct (Model.redact_paths_in R o h v (p :: ps0)) as [h1|e] eqn:E; [|discriminate].
      cbn [rbind] in Hr. injection Hr as <- <-.
      exact (redact_paths_in_objects R o (p :: ps0) _ _ _ _ _ E Hl).
Defined.

End RealmFacts.

(** ** The emit interceptor *)

Module InterceptorFacts.
Import Json Js JsonFacts ObjectFacts StoreFacts FastRedact Logging Vocabulary SerializerFacts.
Import ModelFacts RealmFacts.
Local Open Scope string_scope.
Local Open Scope list_scope.

Lemma redact_options_serialize cfg : serialize (redact_options cfg) = Some (SerializeBool false).
Proof. destruct cfg; reflexivity. Qed.

Lemma Object_assign_ref h r src h' :
  Object_assign h (VRef r) src = Ok h' ->
  (forall l, l <> r -> h' !! l = h !! l) /\
  (forall ps, h !! r = Some (OObj ps) ->
     h' = <[r := OObj (assign_props ps (assignable ps (own_props h src)))]> h).
Proof.
  unfold Object_assign. destruct (h !! r) as [[ps|es]|] eqn:E.
  - intros [= <-]. split; [|intros ps' [= <-]; reflexivity].
    intros l Hl. apply list_lookup_insert_ne. congruence.
  - destruct (own_props h src); [|discriminate]. intros [= <-]. split; [auto|discriminate].
  - destruct (own_props h src); [|discriminate]. intros [= <-]. split; [auto|discriminate].
Qed.

Lemma Object_assign_length h target src h' :
  Object_assign h target src = Ok h' -> length h' = length h.
Proof.
  unfold Object_assign. destruct target; try (intros [= <-]; reflexivity); try discriminate.
  destruct (h !! l) as [[ps|es]|].
  - intros [= <-]. apply length_insert.
  - destruct (own_props h src); [intros [= <-]; reflexivity|discriminate].
  - destruct (own_props h src); [intros [= <-]; reflexivity|discriminate].
Qed.

Lemma copy_payload_tree cfg h r :
  copy_payload cfg h (VRef r) = let* j := payload_tree cfg h (VRef r) in Ok (alloc j h).
Proof.
  unfold copy_payload, payload_tree, JSON_parse. cbn [nullish].
  destruct (JSON_stringify_new h _) as [text|e]; [|reflexivity]. cbn [rbind].
  destruct (parse _); reflexivity.
Qed.

(** The copy is a tree built in the store. *)
Lemma copy_payload_alloc cfg h v h2 parsed :
  copy_payload cfg h v = Ok (h2, parsed) -> exists j, alloc j h = (h2, parsed).
Proof.
  unfold copy_payload, JSON_parse. destruct (nullish v); [discriminate|].
  destruct (JSON_stringify_new h _) as [text|e]; [|discriminate]. cbn [rbind].
  destruct (parse _) as [j|e]; [|discriminate]. cbn [rbind]. intros [= Ha]. eauto.
Qed.

(** The copy step always comes to a result: the fuel of the serializer
    and of the parser is never used up. *)
Lemma copy_payload_fuel cfg h v : copy_payload cfg h v <> Err OutOfFuel.
Proof.
  unfold copy_payload, JSON_parse. destruct (nullish v); [discriminate|].
  destruct (JSON_stringify_new h _) as [text|e] eqn:Et; cbn [rbind].
  - destruct (parse _) as [j|e] eqn:Ep; cbn [rbind]; [discriminate|].
    intros [= ->]. exact (parse_fuel _ Ep).
  - intros [= ->]. exact (JSON_stringify_new_fuel _ _ Et).
Qed.

Lemma configured_transform_of cfg t : configured_transform cfg t -> t = globalReplace_of cfg.
Proof.
  unfold configured_transform, globalReplace_of. destruct cfg as [c|]; [|auto].
  destruct (globalReplace c); auto.
Qed.

Lemma no_globalReplace_of cfg : no_globalReplace cfg -> globalReplace_of cfg = (fun text => text).
Proof.
  unfold no_globalReplace, globalReplace_of. destruct cfg as [c|]; [|auto]. intros ->. reflexivity.
Qed.

Lemma has_key_rest_of_core k ps : is_core k = true -> has_key k (rest_of ps) = false.
Proof.
  intros Hk. unfold has_key, rest_of. induction ps as [|[k' v] ps IH]; [reflexivity|].
  simpl. destruct (is_core k') eqn:E; simpl; [exact IH|].
  rewrite IH, orb_false_r. apply eqb_neq_false. intros ->. congruence.
Qed.

Lemma has_key_same_keys {A B} k (l1 : list (string * A)) (l2 : list (string * B)) :
  map fst l1 = map fst l2 -> has_key k l1 = has_key k l2.
Proof. unfold has_key. intros ->. reflexivity. Qed.

Lemma alloc_object_keys kvs h h2 parsed :
  alloc (JObj kvs) h = (h2, parsed) -> map fst (own_props h2 parsed) = map fst kvs.
Proof.
  rewrite alloc_members_eq. destruct (alloc_members kvs h) as [h1 ps] eqn:E.
  unfold alloc_object. intros [= <- <-].
  assert (Hall : Forall (fun kv : string * json => alloc_ok (snd kv)) kvs)
    by (apply Forall_forall; intros; apply alloc_fresh).
  destruct (alloc_members_fresh _ Hall _ _ _ E) as (Hk & _).
  unfold own_props. rewrite list_lookup_middle by reflexivity. exact Hk.
Qed.

(** *** What [Object.assign] writes *)

Lemma has_key_assignable k target source :
  has_key k (assignable target source) = true -> has_key k source = true.
Proof. unfold assignable. apply has_key_filter. Qed.

Lemma assoc_assigned_other k target source :
  has_key k source = false ->
  assoc k (assign_props target (assignable target source)) = assoc k target.
Proof.
  intros Hk. apply assoc_assign_props_other.
  destruct (has_key k (assignable target source)) eqn:E; [|reflexivity].
  apply has_key_assignable in E. congruence.
Qed.

Lemma assoc_app {A} k (l1 l2 : list (string * A)) :
  assoc k (l1 ++ l2) = match assoc k l1 with Some v => Some v | None => assoc k l2 end.
Proof.
  induction l1 as [|[k' v] l1 IH]; [reflexivity|]. simpl.
  destruct (String.eqb k' k); [reflexivity|exact IH].
Qed.

(** Every key ends with the value of the last property of that name. *)
Lemma assoc_assign_props_last k source :
  forall target,
    assoc k (assign_props target source)
    = match last_value k source with Some v => Some v | None => assoc k target end.
Proof.
  unfold assign_props, last_value.
  induction source as [|[k0 v0] source IH]; intros target; [reflexivity|].
  simpl. rewrite IH, assoc_app. destruct (assoc k (rev source)) as [v|]; [reflexivity|].
  simpl. destruct (String.eqb k0 k) eqn:E.
  - apply String.eqb_eq in E. subst k0. apply assoc_set_member_eq.
  - apply assoc_set_member_ne. intros ->. rewrite String.eqb_refl in E. discriminate.
Qed.

Lemma assoc_filter {A} (f : string * A -> bool) k l :
  (forall k' v, String.eqb k' k = true -> f (k', v) = true) ->
  assoc k (List.filter f l) = assoc k l.
Proof.
  intros Hf. induction l as [|[k' v] l IH]; [reflexivity|]. simpl.
  destruct (String.eqb k' k) eqn:E.
  - rewrite (Hf k' v E). simpl. rewrite E. reflexivity.
  - destruct (f (k', v)); simpl; [rewrite E|]; exact IH.
Qed.

Lemma last_value_assignable k target source :
  k <> "__proto__" -> last_value k (assignable target source) = last_value k source.
Proof.
  intros Hk. unfold last_value, assignable. rewrite <- List.filter_rev.
  apply assoc_filter. intros k' v E. apply String.eqb_eq in E. subst k'. simpl.
  rewrite (eqb_neq_false _ _ Hk). reflexivity.
Qed.

Lemma assoc_assignable k target source :
  (k = "__proto__" -> has_key "__proto__" target = true) ->
  assoc k (assignable target source) = assoc k source.
Proof.
  intros Hk. unfold assignable. apply assoc_filter. intros k' v E.
  apply String.eqb_eq in E. subst k'. cbn [fst].
  destruct (String.eqb k "__proto__") eqn:Ek; [|reflexivity].
  apply String.eqb_eq in Ek. rewrite (Hk Ek). reflexivity.
Qed.

Lemma assignable_own target source :
  has_key "__proto__" target = true -> assignable target source = source.
Proof.
  intros Hk. unfold assignable. rewrite Hk.
  induction source as [|kv source IH]; [reflexivity|]. simpl.
  rewrite orb_true_r, IH. reflexivity.
Qed.

Lemma has_key_assignable_proto target source :
  has_key "__proto__" target = false -> has_key "__proto__" (assignable target source) = false.
Proof.
  intros Hk. unfold assignable. rewrite Hk. unfold has_key.
  induction source as [|[k v] source IH]; [reflexivity|]. cbn [List.filter fst].
  destruct (String.eqb k "__proto__") eqn:E; cbn [negb orb]; [exact IH|].
  cbn [map fst existsb]. rewrite String.eqb_sym, E. exact IH.
Qed.

(** *** The record minus the reserved fields *)

Lemma without_field_filter k (ps : list (string * val)) :
  without_field k ps = List.filter (fun kv => negb (String.eqb (fst kv) k)) ps.
Proof.
  induction ps as [|[k' v] ps IH]; [reflexivity|]. simpl.
  destruct (String.eqb k' k); simpl; rewrite IH; reflexivity.
Qed.

Lemma filter_twice {A} (f g : A -> bool) l :
  List.filter f (List.filter g l) = List.filter (fun x => g x && f x) l.
Proof.
  induction l as [|x l IH]; [reflexivity|]. simpl.
  destruct (g x); simpl; [destruct (f x)|]; rewrite IH; reflexivity.
Qed.

Lemma without_fields_filter ks (ps : list (string * val)) :
  fold_right without_field ps ks
  = List.filter (fun kv => negb (existsb (String.eqb (fst kv)) ks)) ps.
Proof.
  induction ks as [|k ks IH]; simpl.
  - induction ps as [|kv ps IHps]; [reflexivity|]. simpl. rewrite <- IHps. reflexivity.
  - rewrite IH, without_field_filter, filter_twice. apply List.filter_ext. intros [k' v]. simpl.
    rewrite negb_orb. apply andb_comm.
Qed.

(** [rest] is the record minus the reserved fields. *)
Lemma rest_of_without_reserved ps : rest_of ps = without_reserved ps.
Proof. unfold without_reserved. rewrite without_fields_filter. reflexivity. Qed.

(** *** The interceptor, stage by stage *)

Lemma redact_record_stages redact cfg h r ps :
  h !! r = Some (OObj ps) ->
  redact_record redact cfg h (VRef r) =
  let* text := JSON_stringify_new h (rest_of ps) in
  let* j := parse (globalReplace_of cfg text) in
  let* (h3, payload) := redact (alloc j h).1 (alloc j h).2 in
  Object_assign h3 (VRef r) payload.
Proof.
  intros Hr. unfold redact_record, copy_payload. cbn [nullish].
  unfold own_props at 1. rewrite Hr.
  destruct (JSON_stringify_new h (rest_of ps)) as [text|e]; [|reflexivity]. cbn [rbind].
  unfold JSON_parse.
  destruct (parse (globalReplace_of cfg text)) as [j|e]; [|reflexivity]. cbn [rbind].
  destruct (alloc j h) as [h2 parsed]. reflexivity.
Qed.

Section interceptor.
Context `{Library}.
Variable redactConfig : option ExtendedRedactOptions.
Variable redact : redactor.
Hypothesis compiled : fastRedact (redact_options redactConfig) = Ok redact.

Lemma redact_returns h v h' v' : redact h v = Ok (h', v') -> v' = v.
Proof. eapply returns_argument; [apply redact_options_serialize|exact compiled]. Qed.

Lemma redact_keeps h v h' v' l ps :
  redact h v = Ok (h', v') -> h !! l = Some (OObj ps) ->
  exists ps', h' !! l = Some (OObj ps') /\ forall k, has_key k ps = true -> has_key k ps' = true.
Proof. eapply keeps_objects; [apply redact_options_serialize|exact compiled]. Qed.

(** After the redactor has run on the copy, the record is still an
    object with its keys, and [Object.assign] writes it. *)
Lemma redact_record_assign h r ps j h3 payload :
  h !! r = Some (OObj ps) ->
  redact (alloc j h).1 (alloc j h).2 = Ok (h3, payload) ->
  exists ps3,
    h3 !! r = Some (OObj ps3) /\
    (forall k, has_key k ps = true -> has_key k ps3 = true) /\
    Object_assign h3 (VRef r) payload
    = Ok (<[r := OObj (assign_props ps3 (assignable ps3 (own_props h3 payload)))]> h3).
Proof.
  intros Hr Hred.
  assert (Hr2 : (alloc j h).1 !! r = Some (OObj ps)).
  { destruct (alloc j h) as [h2 parsed] eqn:Ea. destruct (alloc_extends _ _ _ _ Ea) as [new ->].
    simpl. rewrite lookup_app_l by (eapply lookup_lt_Some; eauto). exact Hr. }
  destruct (redact_keeps _ _ _ _ _ _ Hred Hr2) as (ps3 & Hr3 & Hkeys).
  exists ps3. split; [exact Hr3|]. split; [exact Hkeys|].
  unfold Object_assign. rewrite Hr3. reflexivity.
Qed.
End interceptor.


(** C5: the interceptor drops no field. Every key of the record before
    the interceptor runs is a key of the record that is forwarded,
    whatever its value and whatever the rules. *)
Theorem no_field_dropped `{Library} (redactConfig : option ExtendedRedactOptions)
    (redact : redactor) (target : emitter) (h : heap) (r : loc) (ps : list (string * val))
    (h' : heap) :
  fastRedact (redact_options redactConfig) = Ok redact ->
  h !! r = Some (OObj ps) ->
  redact_record redact redactConfig h (VRef r) = Ok h' ->
  emit_apply target redact redactConfig h (VRef r) = target h' (VRef r) /\
  exists ps', h' !! r = Some (OObj ps') /\
              forall k, has_key k ps = true -> has_key k ps' = true.
Proof.
  intros Hc Hr Hrun. split; [unfold emit_apply; rewrite Hrun; reflexivity|].
  rewrite (redact_record_stages _ _ _ _ _ Hr) in Hrun.
  destruct (JSON_stringify_new h (rest_of ps)) as [text|e]; [|discriminate].
  cbn [rbind] in Hrun.
  destruct (parse _) as [j|e]; [|discriminate]. cbn [rbind] in Hrun.
  destruct (redact (alloc j h).1 (alloc j h).2) as [[h3 payload]|e] eqn:Hred; [|discriminate].
  cbn [rbind] in Hrun.
  destruct (redact_record_assign _ _ Hc _ _ _ _ _ _ Hr Hred) as (ps3 & Hr3 & Hkeys & Hassign).
  rewrite Hassign in Hrun. injection Hrun as <-.
  eexists. split; [apply list_lookup_insert_eq; eapply lookup_lt_Some; eauto|].
  intros k Hk. apply has_key_assign_props. apply Hkeys. exact Hk.
Qed.

(** C4, as amended: when the payload does not serialize, when the text
    that [globalReplace] returns does not parse, and also when the
    redactor rejects the parsed value, the exception leaves the
    interceptor and bunyan's [_emit] is not run; otherwise the record
    is redacted and bunyan's [_emit] is run once, on that record. *)
Theorem emit_outcome `{Library} (redactConfig : option ExtendedRedactOptions)
    (redact : redactor) (h : heap) (r : loc) (ps : list (string * val)) :
  fastRedact (redact_options redactConfig) = Ok redact ->
  h !! r = Some (OObj ps) ->
  (forall e, thrown e -> JSON_stringify_new h (rest_of ps) = Err e ->
     forall target, emit_apply target redact redactConfig h (VRef r) = Err e) /\
  (forall text e, thrown e -> JSON_stringify_new h (rest_of ps) = Ok text ->
     parse (globalReplace_of redactConfig text) = Err e ->
     forall target, emit_apply target redact redactConfig h (VRef r) = Err e) /\
  (forall text j e, thrown e -> JSON_stringify_new h (rest_of ps) = Ok text ->
     parse (globalReplace_of redactConfig text) = Ok j ->
     redact (alloc j h).1 (alloc j h).2 = Err e ->
     forall target, emit_apply target redact redactConfig h (VRef r) = Err e) /\
  (forall text j h3 payload, JSON_stringify_new h (rest_of ps) = Ok text ->
     parse (globalReplace_of redactConfig text) = Ok j ->
     redact (alloc j h).1 (alloc j h).2 = Ok (h3, payload) ->
     exists h',
       redact_record redact redactConfig h (VRef r) = Ok h' /\
       forall target,
         emit_apply target redact redactConfig h (VRef r) = target h' (VRef r)).
Proof.
  intros Hc Hr.
  assert (Hrun := redact_record_stages redact redactConfig _ _ _ Hr).
  unfold emit_apply. repeat split.
  - intros e _ He target. rewrite Hrun, He. reflexivity.
  - intros text e _ Ht Hp target. rewrite Hrun, Ht. cbn [rbind]. rewrite Hp. reflexivity.
  - intros text j e _ Ht Hp Hred target. rewrite Hrun, Ht. cbn [rbind]. rewrite Hp.
    cbn [rbind]. rewrite Hred. reflexivity.
  - intros text j h3 payload Ht Hp Hred.
    destruct (redact_record_assign _ _ Hc _ _ _ _ _ _ Hr Hred) as (ps3 & _ & _ & Hassign).
    eexists. split.
    + rewrite Hrun, Ht. cbn [rbind]. rewrite Hp. cbn [rbind]. rewrite Hred. cbn [rbind].
      exact Hassign.
    + intros target. rewrite Hrun, Ht. cbn [rbind]. rewrite Hp. cbn [rbind]. rewrite Hred.
      cbn [rbind]. rewrite Hassign. reflexivity.
Qed.

Lemma sample_compiled : fastRedact (redact_options (Some Samples.rules)) = Ok Samples.sample_redact.
Proof. reflexivity. Qed.

Lemma sample_run :
  redact_record Samples.sample_redact (Some Samples.rules) Samples.store (VRef Samples.record)
  = Ok [OObj [("authorization", VStr "Bearer x"); ("host", VStr "a")];
        OObj [("headers", VRef 0); ("url", VStr "/")];
        OObj [("v", VNum 0); ("level", VNum 30); ("msg", VStr "hi"); ("user", VStr "a");
              ("password", VStr "[REDACTED]"); ("req", VRef 4); ("extra", VUndefined)];
        OObj [("authorization", VStr "[REDACTED]"); ("host", VStr "a")];
        OObj [("headers", VRef 3); ("url", VStr "/")];
        OObj [("msg", VStr "hi"); ("user", VStr "a"); ("password", VStr "[REDACTED]");
              ("req", VRef 4)]].
Proof. vm_compute. reflexivity. Qed.


Lemma no_field_dropped_witness :
  exists h' ps',
    redact_record Samples.sample_redact (Some Samples.rules) Samples.store (VRef Samples.record) = Ok h' /\
    h' !! Samples.record = Some (OObj ps') /\ has_key "extra" ps' = true.
Proof.
  destruct (no_field_dropped (Some Samples.rules) Samples.sample_redact Samples.quiet Samples.store
              Samples.record _ _ sample_compiled eq_refl sample_run) as (_ & ps' & Hps' & Hkeys).
  eexists _, ps'. split; [exact sample_run|]. split; [exact Hps'|].
  apply Hkeys. reflexivity.
Defined.

Lemma emit_outcome_witness :
  exists h', emit_apply Samples.quiet Samples.sample_redact (Some Samples.rules) Samples.store
               (VRef Samples.record) = Samples.quiet h' (VRef Samples.record).
Proof.
  destruct (emit_outcome (Some Samples.rules) Samples.sample_redact Samples.store Samples.record _
              sample_compiled eq_refl) as (_ & _ & _ & Hok).
  destruct (Hok _ _ _ _ ltac:(vm_compute; reflexivity) ltac:(vm_compute; reflexivity)
              ltac:(vm_compute; reflexivity)) as (h' & _ & Hemit).
  exists h'. apply Hemit.
Defined.

(** C1: the interceptor does not keep the core fields of every record,
    though the comment above the destructuring says it preserves them.
    With a [globalReplace] whose output has a [level] member, the
    record comes in with [level] 30 and is forwarded with [level] 99:
    [Object.assign] copies every property of the parsed payload onto
    the record, the core fields included. *)
Lemma globalReplace_overwrites_level :
  exists redact h',
    fastRedact (redact_options (Some Samples.injecting)) = Ok redact /\
    redact_record redact (Some Samples.injecting) Samples.store (VRef Samples.record) = Ok h' /\
    read Samples.store (VRef Samples.record) "level" = VNum 30 /\
    read h' (VRef Samples.record) "level" = VNum 99.
Proof. eexists _, _. repeat split; vm_compute; reflexivity. Qed.

(** C4 as stated fails: the payload serializes and the text returned by
    [globalReplace] is valid JSON, yet with a path rule the call throws
    and nothing is forwarded (the redactor rejects a primitive), while
    without a path rule the same text, which is no structured value, is
    accepted and the record is forwarded. *)
Lemma parsed_primitive_outcomes :
  is_ok (JSON_stringify_new Samples.store
           (rest_of (own_props Samples.store (VRef Samples.record)))) = true /\
  parse "1" = Ok (JNum 1) /\
  (exists redact,
     fastRedact (redact_options (Some (Samples.flattening [["password"]]))) = Ok redact /\
     emit_apply Samples.quiet redact (Some (Samples.flattening [["password"]]))
       Samples.store (VRef Samples.record) = Err RedactError) /\
  (exists redact,
     fastRedact (redact_options (Some (Samples.flattening []))) = Ok redact /\
     emit_apply Samples.quiet redact (Some (Samples.flattening []))
       Samples.store (VRef Samples.record) = Ok (Samples.store, VUndefined)).
Proof.
  split; [vm_compute; reflexivity|]. split; [vm_compute; reflexivity|].
  split; eexists; split; vm_compute; reflexivity.
Qed.

(** *** The library within own properties *)

Section own_properties.
Variable redactConfig : option ExtendedRedactOptions.
Variable redact : redactor.
Hypothesis compiled : Model.fastRedact (redact_options redactConfig) = Ok redact.

Lemma redact_frame h v h' v' l :
  redact h v = Ok (h', v') -> ~ reach h v l -> h' !! l = h !! l.
Proof.
  intros Hr. exact (proj1 (proj2 (model_run _ _ _ _ _ _ (redact_options_serialize _)
                                    compiled Hr)) l).
Qed.

Lemma redact_keys h v h' v' :
  redact h v = Ok (h', v') -> map fst (own_props h' v) = map fst (own_props h v).
Proof.
  intros Hr. exact (proj2 (proj2 (model_run _ _ _ _ _ _ (redact_options_serialize _)
                                    compiled Hr))).
Qed.

(** Redacting the fresh copy leaves the rest of the store alone. *)
Lemma redact_copy_frame j h h3 payload :
  redact (alloc j h).1 (alloc j h).2 = Ok (h3, payload) ->
  payload = (alloc j h).2 /\ forall l, (l < length h)%nat -> h3 !! l = h !! l.
Proof.
  intros Hr. split.
  - exact (proj1 (model_run _ _ _ _ _ _ (redact_options_serialize _) compiled Hr)).
  - destruct (alloc j h) as [h2 parsed] eqn:Ea. simpl in Hr.
    intros l Hl. rewrite (redact_frame _ _ _ _ l Hr).
    + destruct (alloc_extends _ _ _ _ Ea) as [new ->]. apply lookup_app_l. exact Hl.
    + intros Hreach. pose proof (alloc_reach_fresh _ _ _ _ _ Ea Hreach). lia.
Qed.

(** The interceptor, step by step. *)
Lemma redact_record_steps h r ps :
  h !! r = Some (OObj ps) ->
  redact_record redact redactConfig h (VRef r) =
  let* (h3, payload) := spec_payload redact (globalReplace_of redactConfig) h (rest_of ps) in
  Ok (<[r := OObj (assign_props ps (assignable ps (own_props h3 payload)))]> h3).
Proof.
  intros Hr. unfold redact_record, spec_payload, copy_payload. cbn [nullish].
  unfold own_props at 1. rewrite Hr.
  destruct (JSON_stringify_new h (rest_of ps)) as [text|e]; [|reflexivity]. cbn [rbind].
  unfold JSON_parse.
  destruct (parse (globalReplace_of redactConfig text)) as [j|e]; [|reflexivity]. cbn [rbind].
  destruct (alloc j h) as [h2 parsed] eqn:Ea.
  destruct (redact h2 parsed) as [[h3 payload]|e] eqn:Ered; [|reflexivity]. cbn [rbind].
  assert (Hred : redact (alloc j h).1 (alloc j h).2 = Ok (h3, payload)) by (rewrite Ea; exact Ered).
  destruct (redact_copy_frame _ _ _ _ Hred) as [_ Hf].
  unfold Object_assign. rewrite Hf by (eapply lookup_lt_Some; eauto). rewrite Hr. reflexivity.
Qed.

Lemma redact_record_frame h r h' :
  redact_record redact redactConfig h (VRef r) = Ok h' ->
  (forall l, (l < length h)%nat -> l <> r -> h' !! l = h !! l) /\
  (length h <= length h')%nat.
Proof.
  intros Hrun. unfold redact_record in Hrun. rewrite copy_payload_tree in Hrun.
  destruct (payload_tree redactConfig h (VRef r)) as [j|e]; [|discriminate].
  cbn [rbind] in Hrun.
  destruct (redact (alloc j h).1 (alloc j h).2) as [[h3 payload]|e] eqn:Ered.
  - destruct (redact_copy_frame _ _ _ _ Ered) as [_ Hf].
    destruct (alloc j h) as [h2 parsed]. simpl in Ered. rewrite Ered in Hrun.
    cbn [rbind] in Hrun.
    destruct (Object_assign_ref _ _ _ _ Hrun) as [Hother _].
    split; [intros l Hl Hne; rewrite Hother by exact Hne; apply Hf; exact Hl|].
    rewrite (Object_assign_length _ _ _ _ Hrun).
    destruct (length h) as [|n] eqn:En; [lia|].
    assert (Hn : is_Some (h3 !! n)).
    { rewrite Hf by lia. apply lookup_lt_is_Some. lia. }
    apply lookup_lt_is_Some in Hn. lia.
  - destruct (alloc j h) as [h2 parsed]. simpl in Ered. rewrite Ered in Hrun. discriminate.
Qed.
End own_properties.

Lemma reach_value_in_store h v l :
  store_ok h = true -> in_store (length h) v = true -> reach h v l -> (l < length h)%nat.
Proof.
  intros Hok Hv Hr. induction Hr as [l|v l l' o' Hr IH Ho' Hin'].
  - simpl in Hv. apply Nat.ltb_lt. exact Hv.
  - pose proof (store_ok_lookup _ _ _ Hok Ho') as Hobj.
    assert (Hall : forallb (in_store (length h)) (fields o') = true).
    { destruct o'; simpl in Hobj |- *; [apply andb_true_iff in Hobj; tauto|exact Hobj]. }
    rewrite forallb_forall in Hall. specialize (Hall _ Hin'). simpl in Hall.
    apply Nat.ltb_lt. exact Hall.
Qed.

(** Two stores that agree on what a second record refers to give it
    the same tree. *)
Lemma payload_tree_second cfg h h' ps2 :
  store_ok h = true ->
  (length h <= length h')%nat ->
  (forall v, In v (map snd ps2) -> in_store (length h) v = true) ->
  (forall v l, In v (map snd ps2) -> reach h v l -> h' !! l = h !! l) ->
  payload_tree cfg (h' ++ [OObj ps2]) (VRef (length h'))
  = payload_tree cfg (h ++ [OObj ps2]) (VRef (length h)).
Proof.
  intros Hok Hlen Hps2 Hsame. unfold payload_tree, own_props.
  rewrite !list_lookup_middle by reflexivity.
  assert (Hin : forall v, In v (map snd (rest_of ps2)) -> In v (map snd ps2)).
  { intros v Hv. apply in_map_iff in Hv. destruct Hv as ([k w] & <- & Hkw).
    apply in_map_iff. exists (k, w). split; [reflexivity|].
    unfold rest_of in Hkw. apply filter_In in Hkw. tauto. }
  rewrite (JSON_stringify_new_stable h (h' ++ [OObj ps2])).
  - rewrite (JSON_stringify_new_stable h (h ++ [OObj ps2])); [reflexivity| |].
    + rewrite length_app. lia.
    + intros v l Hv Hreach. apply lookup_app_l.
      eapply reach_value_in_store; [exact Hok| |exact Hreach]. apply Hps2, Hin, Hv.
  - rewrite length_app. lia.
  - intros v l Hv Hreach.
    assert (Hl : (l < length h)%nat).
    { eapply reach_value_in_store; [exact Hok| |exact Hreach]. apply Hps2, Hin, Hv. }
    rewrite lookup_app_l by lia. apply (Hsame v l (Hin v Hv) Hreach).
Qed.

(** *** Rules whose paths stay within own properties *)

Lemma fastRedact_in_inv R o redact :
  Model.fastRedact_in R o = Ok redact ->
  redact = Model.redact_in R o /\ Model.fastRedact o = Ok (Model.redact o).
Proof.
  unfold Model.fastRedact_in, Model.fastRedact. destruct (_ && _); [discriminate|].
  intros [= <-]. split; reflexivity.
Qed.

(** Under such rules the interceptor does with the library what it
    does with the library within own properties. *)
Lemma redact_record_in R cfg h v :
  realm_in R h = true -> plain_paths R h (redact_options cfg) = true ->
  redact_record (Model.redact_in R (redact_options cfg)) cfg h v
  = redact_record (Model.redact (redact_options cfg)) cfg h v.
Proof.
  intros Hin Hps. unfold redact_record.
  destruct (copy_payload cfg h v) as [[h2 parsed]|e] eqn:Hcopy; [|reflexivity].
  cbn [rbind]. destruct (copy_payload_alloc _ _ _ _ _ Hcopy) as [j Ha].
  pose proof (redact_in_copy R (redact_options cfg) j h Hin Hps) as E.
  rewrite Ha in E. simpl in E. rewrite E. reflexivity.
Qed.

Lemma within_own R cfg redact h v :
  Model.fastRedact_in R (redact_options cfg) = Ok redact ->
  realm_in R h = true -> plain_paths R h (redact_options cfg) = true ->
  Model.fastRedact (redact_options cfg) = Ok (Model.redact (redact_options cfg)) /\
  redact_record redact cfg h v = redact_record (Model.redact (redact_options cfg)) cfg h v.
Proof.
  intros Hc Hin Hps. destruct (fastRedact_in_inv _ _ _ Hc) as [-> Hown].
  split; [exact Hown|]. apply redact_record_in; assumption.
Qed.

Lemma redaction_in R o j h :
  realm_in R h = true -> plain_paths R h o = true ->
  redaction (Model.redact_in R o) j h = redaction (Model.redact o) j h.
Proof.
  intros Hin Hps. unfold redaction.
  pose proof (redact_in_copy R o j h Hin Hps) as E.
  destruct (alloc j h) as [h2 parsed]. simpl in E. rewrite E. reflexivity.
Qed.

Lemma realm_in_lt R h p : realm_in R h = true -> In p (Model.prototypes R) -> (p < length h)%nat.
Proof.
  unfold realm_in. rewrite forallb_forall. intros H Hp. apply Nat.ltb_lt. exact (H p Hp).
Qed.

Lemma realm_in_longer R h h' :
  realm_in R h = true -> (length h <= length h')%nat -> realm_in R h' = true.
Proof.
  unfold realm_in. rewrite !forallb_forall. intros H Hlen p Hp.
  specialize (H p Hp). apply Nat.ltb_lt in H. apply Nat.ltb_lt. lia.
Qed.

(** What is inherited depends on the prototypes only. *)
Lemma plain_paths_same R h h' o :
  (forall p, In p (Model.prototypes R) -> h' !! p = h !! p) ->
  plain_paths R h' o = plain_paths R h o.
Proof.
  intros Hsame. unfold plain_paths.
  assert (Hk : forall k, plain_key R h' k = plain_key R h k).
  { intros k. unfold plain_key, inherited. do 3 f_equal.
    induction (Model.prototypes R) as [|p ps IH]; [reflexivity|]. cbn [existsb].
    rewrite IH by (intros q Hq; apply Hsame; right; exact Hq). f_equal.
    unfold Model.own. rewrite (Hsame p) by (left; reflexivity). reflexivity. }
  induction (paths o) as [|p ps IH]; [reflexivity|]. cbn [forallb]. rewrite IH. f_equal.
  clear IH. induction p as [|k p IH]; [reflexivity|]. cbn [forallb]. rewrite Hk, IH. reflexivity.
Qed.


Lemma realm_compiled :
  Model.fastRedact_in Samples.sample_realm (redact_options (Some Samples.rules))
  = Ok (Model.redact_in Samples.sample_realm (redact_options (Some Samples.rules))).
Proof. reflexivity. Qed.

Lemma realm_run :
  redact_record (Model.redact_in Samples.sample_realm (redact_options (Some Samples.rules)))
    (Some Samples.rules) Samples.realm_store (VRef Samples.record)
  = Ok ([OObj [("authorization", VStr "Bearer x"); ("host", VStr "a")];
         OObj [("headers", VRef 0); ("url", VStr "/")];
         OObj [("v", VNum 0); ("level", VNum 30); ("msg", VStr "hi"); ("user", VStr "a");
               ("password", VStr "[REDACTED]"); ("req", VRef 9); ("extra", VUndefined)]]
        ++ Samples.builtins ++
        [OObj [("authorization", VStr "[REDACTED]"); ("host", VStr "a")];
         OObj [("headers", VRef 8); ("url", VStr "/")];
         OObj [("msg", VStr "hi"); ("user", VStr "a"); ("password", VStr "[REDACTED]");
               ("req", VRef 9)]]).
Proof. vm_compute. reflexivity. Qed.

(** The sample request does not refer to the record that carries it. *)
Lemma sample_request_apart l : reach Samples.realm_store (VRef 1) l -> (l < 2)%nat.
Proof.
  intros Hreach. remember (VRef 1) as v eqn:Ev. induction Hreach as [l|v l l' o Hreach IH Ho Hin].
  - injection Ev as ->. lia.
  - specialize (IH Ev). destruct l as [|[|l]]; [| |lia]; injection Ho as <-; simpl in Hin.
    + destruct Hin as [|[|[]]]; discriminate.
    + destruct Hin as [[= <-]|[|[]]]; [lia|discriminate].
Qed.


(** The second record of the witness, redacted after the first. *)
Example second_record_redacted :
  exists h',
    redact_record (Model.redact_in Samples.sample_realm (redact_options (Some Samples.rules)))
      (Some Samples.rules) Samples.realm_store (VRef Samples.record) = Ok h' /\
    redacted_payload (Model.redact_in Samples.sample_realm (redact_options (Some Samples.rules)))
      (Some Samples.rules) (h' ++ [OObj Samples.second_fields]) (VRef (length h'))
    = Ok (Some (JObj [("msg", JStr "again");
                      ("req", JObj [("headers", JObj [("authorization", JStr "[REDACTED]");
                                                      ("host", JStr "a")]);
                                    ("url", JStr "/")])])).
Proof. eexists. split; [exact realm_run|]. vm_compute. reflexivity. Qed.

(** Without the copy the caller's objects would change: the redactor run
    on the record itself rewrites the headers the caller holds. *)
Example redact_in_place_mutates :
  exists h', Samples.sample_redact Samples.store (VRef Samples.record) = Ok (h', VRef Samples.record) /\
             h' !! 0%nat = Some (OObj [("authorization", VStr "[REDACTED]"); ("host", VStr "a")]).
Proof. eexists. split; vm_compute; reflexivity. Qed.


(** A path that names an inherited property is followed as well: with
    the path [constructor] the forwarded record has a field that the
    record that came in did not have. *)
Example inherited_path_adds_field :
  exists h' ps',
    redact_record (Model.redact_in Samples.sample_realm (redact_options (Some Samples.shadowing)))
      (Some Samples.shadowing) Samples.realm_store (VRef Samples.record) = Ok h' /\
    h' !! Samples.record = Some (OObj ps') /\
    has_key "constructor" (own_props Samples.realm_store (VRef Samples.record)) = false /\
    assoc "constructor" ps' = Some (VStr "[REDACTED]").
Proof. eexists _, _. repeat split; vm_compute; reflexivity. Qed.

End InterceptorFacts.
(** ** The logger factory *)

Module FactoryFacts.
Import Json Js FastRedact Logging Vocabulary ModelFacts InterceptorFacts.
Local Open Scope string_scope.
Local Open Scope list_scope.

(** C10: the options handed to [fastRedact] always have [serialize:
    false]; a [serialize] of the caller's configuration is overridden,
    so it changes neither the options nor the logger that is built.
    [createLogger] compiles its redactor from these options, and that
    redactor is the one the interceptor on [_emit] runs, around the
    [_emit] bunyan made; it returns the value it was given, not a
    string; and when the library rejects the options, so does
    [createLogger]. *)
Theorem serialize_always_false `{Library} (redactConfig : option ExtendedRedactOptions) :
  serialize (redact_options redactConfig) = Some (SerializeBool false) /\
  (forall c s, redact_options (Some (with_serialize s c)) = redact_options (Some c)) /\
  (forall c s env stdSerializers_err Logger_createLogger level,
     createLogger env stdSerializers_err Logger_createLogger level (Some (with_serialize s c))
     = createLogger env stdSerializers_err Logger_createLogger level (Some c)) /\
  (forall env stdSerializers_err Logger_createLogger level logger,
     createLogger env stdSerializers_err Logger_createLogger level redactConfig = Ok logger ->
     exists redact bunyan_emit,
       fastRedact (redact_options redactConfig) = Ok redact /\
       Logger_createLogger (name logger) (streams logger) (serializers logger) = Ok bunyan_emit /\
       _emit logger = emit_apply bunyan_emit redact redactConfig /\
       forall h v h' v', redact h v = Ok (h', v') -> v' = v) /\
  (forall env stdSerializers_err Logger_createLogger level e,
     (forall n s z, is_ok (Logger_createLogger n s z) = true) ->
     fastRedact (redact_options redactConfig) = Err e ->
     createLogger env stdSerializers_err Logger_createLogger level redactConfig = Err e).
Proof.
  split; [apply redact_options_serialize|]. split; [reflexivity|]. split; [reflexivity|]. split.
  - intros env stdSerializers_err Logger_createLogger level logger. unfold createLogger.
    destruct (match getGoogleServiceName env with
              | Some googleServiceName =>
                  if String.eqb googleServiceName "" then
                    ("default", [PrettyStdoutStream "short" (logLevel_of level env)])
                  else (googleServiceName, [LoggingBunyanStream true false (logLevel_of level env)])
              | None => ("default", [PrettyStdoutStream "short" (logLevel_of level env)])
              end) as [n ss].
    destruct (Logger_createLogger n ss _) as [bunyan_emit|e] eqn:Eb; [|discriminate].
    cbn [rbind].
    destruct (fastRedact (redact_options redactConfig)) as [redact|e] eqn:Ec; [|discriminate].
    cbn [rbind]. intros [= <-]. exists redact, bunyan_emit. cbn [name streams serializers _emit].
    split; [reflexivity|]. split; [exact Eb|]. split; [reflexivity|].
    intros h v h' v'. eapply redact_returns. exact Ec.
  - intros env stdSerializers_err Logger_createLogger level e Hb Hc. unfold createLogger.
    destruct (match getGoogleServiceName env with
              | Some googleServiceName =>
                  if String.eqb googleServiceName "" then
                    ("default", [PrettyStdoutStream "short" (logLevel_of level env)])
                  else (googleServiceName, [LoggingBunyanStream true false (logLevel_of level env)])
              | None => ("default", [PrettyStdoutStream "short" (logLevel_of level env)])
              end) as [n ss].
    specialize (Hb n ss (createDetailedRequestSerializers stdSerializers_err)).
    destruct (Logger_createLogger n ss _) as [bunyan_emit|e']; [|discriminate Hb].
    cbn [rbind]. rewrite Hc. reflexivity.
Qed.

Lemma serialize_always_false_witness :
  serialize (redact_options (Some (with_serialize (Some (SerializeBool true)) Samples.rules)))
  = Some (SerializeBool false) /\
  exists redact bunyan_emit,
    _emit Samples.service_logger
    = emit_apply bunyan_emit redact
        (Some (with_serialize (Some (SerializeBool true)) Samples.rules)) /\
    forall h' v', redact Samples.store (VRef Samples.record) = Ok (h', v') ->
                  v' = VRef Samples.record.
Proof.
  destruct (serialize_always_false
              (Some (with_serialize (Some (SerializeBool true)) Samples.rules)))
    as (Hs & _ & _ & Hbuilt & _).
  split; [exact Hs|].
  destruct (Hbuilt Samples.service_env Samples.plain_err Samples.bunyan
              (Some (LevelName "debug")) Samples.service_logger eq_refl)
    as (redact & bunyan_emit & _ & _ & Hemit & Hret).
  exists redact, bunyan_emit. split; [exact Hemit|]. intros h' v'. apply Hret.
Defined.

(** C8, as amended: when [GAE_SERVICE], or else [K_SERVICE], is set to a
    non-empty value, the logger is named after it and has the one
    stream of the log shipper; otherwise it is named [default] and
    has the one pretty stream; the level of that stream is the [level]
    option when it is given and truthy (not [0], not empty), else
    [LOG_LEVEL] when that is set to a non-empty value, else [info]. *)
Theorem createLogger_configuration `{Library} (env : environment)
    (stdSerializers_err : serializer)
    (Logger_createLogger : string -> list Stream -> Serializers -> result emitter)
    (level : option LogLevel)
    (redactConfig : option ExtendedRedactOptions) (logger : Logger) :
  createLogger env stdSerializers_err Logger_createLogger level redactConfig = Ok logger ->
  exists lvl,
    ((forall l, level = Some l -> level_truthy l = true -> lvl = l) /\
     ((level = None \/ exists l, level = Some l /\ level_truthy l = false) ->
      (forall s, nonempty (env "LOG_LEVEL") = Some s -> lvl = LevelName s) /\
      (nonempty (env "LOG_LEVEL") = None -> lvl = LevelName "info"))) /\
    (forall s, nonempty (env "GAE_SERVICE") = Some s ->
       name logger = s /\ streams logger = [LoggingBunyanStream true false lvl]) /\
    (nonempty (env "GAE_SERVICE") = None ->
     forall s, nonempty (env "K_SERVICE") = Some s ->
       name logger = s /\ streams logger = [LoggingBunyanStream true false lvl]) /\
    (nonempty (env "GAE_SERVICE") = None -> nonempty (env "K_SERVICE") = None ->
       name logger = "default" /\ streams logger = [PrettyStdoutStream "short" lvl]).
Proof.
  intros Hcreate. exists (logLevel_of level env). split.
  - unfold logLevel_of, nonempty. split.
    + intros l -> ->. reflexivity.
    + intros Hfalsy.
      assert (Hlvl : match level with
                     | Some l => if level_truthy l then l else
                         match env "LOG_LEVEL" with
                         | Some s => if String.eqb s "" then LevelName "info" else LevelName s
                         | None => LevelName "info"
                         end
                     | None =>
                         match env "LOG_LEVEL" with
                         | Some s => if String.eqb s "" then LevelName "info" else LevelName s
                         | None => LevelName "info"
                         end
                     end =
                     match env "LOG_LEVEL" with
                     | Some s => if String.eqb s "" then LevelName "info" else LevelName s
                     | None => LevelName "info"
                     end).
      { destruct Hfalsy as [->|(l & -> & ->)]; reflexivity. }
      rewrite Hlvl. destruct (env "LOG_LEVEL") as [s|]; [destruct (String.eqb s "")|];
        split; congruence.
  - revert Hcreate. unfold createLogger, getGoogleServiceName, or_env, nonempty.
    destruct (env "GAE_SERVICE") as [g|]; [destruct (String.eqb g "") eqn:Eg|];
      (destruct (env "K_SERVICE") as [k|]; [destruct (String.eqb k "") eqn:Ek|]);
      rewrite ?Eg, ?Ek; cbv beta iota zeta;
      (destruct (Logger_createLogger _ _ _) as [bunyan_emit|e]; [|discriminate]);
      (destruct (fastRedact (redact_options redactConfig)) as [redact|e]; [|discriminate]);
      cbv beta iota zeta delta [rbind];
      intros Hcreate; injection Hcreate as <-; cbn [name streams];
      repeat split; intros; try discriminate; congruence.
Qed.

Lemma createLogger_configuration_witness :
  exists logger,
    createLogger Samples.service_env Samples.plain_err Samples.bunyan
      (Some (LevelName "debug")) (Some Samples.rules) = Ok logger /\
    name logger = "svc" /\
    streams logger = [LoggingBunyanStream true false (LevelName "debug")].
Proof.
  assert (Hcreate : createLogger Samples.service_env Samples.plain_err Samples.bunyan
                      (Some (LevelName "debug")) (Some Samples.rules)
                    = Ok Samples.service_logger) by reflexivity.
  exists Samples.service_logger. split; [exact Hcreate|].
  destruct (createLogger_configuration Samples.service_env Samples.plain_err Samples.bunyan
              (Some (LevelName "debug")) (Some Samples.rules) Samples.service_logger Hcreate)
    as (lvl & (Hlvl & _) & Hgae & _).
  rewrite <- (Hlvl (LevelName "debug") eq_refl eq_refl).
  apply (Hgae "svc"). reflexivity.
Defined.

(** C8 as stated fails: the [level] option given as [0], a level bunyan
    accepts, is not the effective level; the stream gets [info]. *)
Lemma level_zero_not_effective :
  exists logger,
    createLogger Samples.no_env Samples.plain_err Samples.bunyan
      (Some (LevelNumber 0)) None = Ok logger /\
    streams logger = [PrettyStdoutStream "short" (LevelName "info")].
Proof.
  exists Samples.default_logger. split; reflexivity.
Qed.

End FactoryFacts.

(** ** The request log: more on the completion record *)

Module RequestLogFacts.
Import Json Js JsonFacts ObjectFacts StoreFacts FastRedact ModelFacts Logging Vocabulary Shapes.
Import SerializerFacts MiddlewareFacts InterceptorFacts.
Local Open Scope string_scope.
Local Open Scope list_scope.

Lemma prefix_append (a b : string) : String.prefix a (a ++ b)%string = true.
Proof.
  induction a as [|c a IH]; simpl; [destruct b; reflexivity|].
  destruct (ascii_dec c c); [exact IH|congruence].
Qed.

Lemma prefixed_stays (fn u : string) :
  String.prefix "/" ("/" ++ fn ++ u)%string
  && negb (String.prefix ("/" ++ fn)%string ("/" ++ fn ++ u)%string) = false.
Proof.
  change ("/" ++ fn ++ u)%string with (("/" ++ fn) ++ u)%string.
  rewrite (prefix_append ("/" ++ fn)%string u). apply andb_false_r.
Qed.

(** X10: prefixing the request URL with the function name is idempotent.
    What [emitRequestLog] makes of a request URL it makes again of its
    own result; and a URL that starts with [/] comes out starting with
    [/] and the function name. *)
Theorem prefixed_url_idempotent (cloudFunctionName : string) (requestUrl url : val) :
  prefixed_url cloudFunctionName requestUrl = Ok url ->
  prefixed_url cloudFunctionName url = Ok url /\
  (forall u, requestUrl = VStr u -> String.prefix "/" u = true ->
     exists u', url = VStr u' /\ String.prefix ("/" ++ cloudFunctionName)%string u' = true).
Proof.
  unfold prefixed_url. destruct requestUrl as [| | | |u| | |]; try discriminate.
  - intros [= <-]. split; [reflexivity|discriminate].
  - intros [= <-]. split; [reflexivity|discriminate].
  - destruct (String.prefix "/" u) eqn:Hs; cbn [andb].
    + destruct (String.prefix ("/" ++ cloudFunctionName)%string u) eqn:Hp; cbn [negb];
        intros Hu.
      * assert (Hurl : url = VStr u) by congruence. subst url.
        rewrite Hs, Hp. split; [reflexivity|]. intros u0 [= <-] _. eauto.
      * assert (Hurl : url = VStr ("/" ++ cloudFunctionName ++ u)%string) by congruence.
        subst url. rewrite prefixed_stays. split; [reflexivity|]. intros u0 [= <-] _.
        eexists. split; [reflexivity|].
        change ("/" ++ cloudFunctionName ++ u)%string
          with (("/" ++ cloudFunctionName) ++ u)%string. apply prefix_append.
    + intros [= <-]. rewrite Hs. split; [reflexivity|]. intros u0 [= <-] Hp. congruence.
Qed.

Lemma prefixed_url_idempotent_witness :
  prefixed_url "fn" (VStr "/a?b") = Ok (VStr "/fn/a?b") /\
  prefixed_url "fn" (VStr "/fn/a?b") = Ok (VStr "/fn/a?b").
Proof.
  assert (Hrun : prefixed_url "fn" (VStr "/a?b") = Ok (VStr "/fn/a?b")) by reflexivity.
  split; [exact Hrun|].
  exact (proj1 (prefixed_url_idempotent "fn" (VStr "/a?b") (VStr "/fn/a?b") Hrun)).
Defined.

Lemma sample_completion :
  request_log_fields Samples.trace_key Samples.span_key Samples.sampled_key Samples.function_env
    Samples.http_store (VStr "req") (VStr "res") (VRef 0) (VStr "t") VUndefined VUndefined
  = Ok (Samples.completion_store, VRef 3).
Proof. reflexivity. Qed.

(** X11: the completion record is made of new objects. [emitRequestLog]
    adds at most three objects to the store, the last of which is the
    record it logs, and changes no object that existed: the request,
    the response and the given [httpRequest] are as they were. *)
Theorem completion_record_fresh (T S M : string) (env : environment) (h : heap)
    (req res httpRequest trace span sampled : val) (h' : heap) (fields : val) :
  request_log_fields T S M env h req res httpRequest trace span sampled = Ok (h', fields) ->
  (exists new, h' = h ++ new /\ (1 <= length new <= 3)%nat) /\
  fields = VRef (length h' - 1) /\
  (forall l, (l < length h)%nat -> h' !! l = h !! l).
Proof.
  intros Hrun.
  assert (Hnew : exists new, h' = h ++ new /\ (1 <= length new <= 3)%nat /\
                             fields = VRef (length h' - 1)).
  { revert Hrun. unfold request_log_fields.
    destruct (get h httpRequest "requestUrl") as [requestUrl|e]; [|discriminate]. cbn [rbind].
    assert (Hplain : forall x y, Ok (alloc_object h (OObj [("req", req); ("res", res)]))
                                 = Ok (x, y) ->
              exists new, x = h ++ new /\ (1 <= length new <= 3)%nat /\ y = VRef (length x - 1)).
    { unfold alloc_object. intros x y [= <- <-]. eexists. split; [reflexivity|].
      rewrite length_app. simpl. split; [lia|]. f_equal. lia. }
    destruct (env "K_SERVICE") as [fn|]; [destruct (String.eqb fn "")|]; try apply Hplain.
    destruct (prefixed_url fn requestUrl) as [url|e]; [|discriminate].
    cbn [rbind]. unfold alloc_object. intros [= <- <-]. rewrite <- !app_assoc.
    eexists. split; [reflexivity|]. rewrite !length_app. simpl. split; [lia|]. f_equal. lia. }
  destruct Hnew as (new & -> & Hlen & ->).
  split; [eauto|]. split; [reflexivity|]. intros l Hl. apply lookup_app_l. exact Hl.
Qed.

Lemma completion_record_fresh_witness :
  Samples.completion_store !! 0%nat = Samples.http_store !! 0%nat /\
  VRef 3 = VRef (length Samples.completion_store - 1).
Proof.
  destruct (completion_record_fresh _ _ _ _ _ _ _ _ _ _ _ _ _ sample_completion)
    as (_ & Hfields & Hframe).
  split; [apply Hframe; simpl; lia|exact Hfields].
Defined.

Lemma prefixed_url_ok fn v : is_ok (prefixed_url fn v) = url_like v.
Proof. destruct v; reflexivity. Qed.

(** X12: when the [requestUrl] of the given [httpRequest] is neither
    an object nor a function, [emitRequestLog] throws exactly when
    [httpRequest] is [null] or [undefined] or, [K_SERVICE] being set to
    a non-empty value, its [requestUrl] is neither a string nor [null]
    nor [undefined]; what it throws is a TypeError; and when it throws,
    [logger.info] is not called. *)
Theorem completion_record_failure (T S M : string) (env : environment) (h : heap)
    (req res httpRequest trace span sampled : val) :
  not_object (read h httpRequest "requestUrl") = true ->
  is_ok (request_log_fields T S M env h req res httpRequest trace span sampled)
  = negb (nullish httpRequest)
    && match nonempty (env "K_SERVICE") with
       | Some _ => url_like (read h httpRequest "requestUrl")
       | None => true
       end
  /\ (forall e, request_log_fields T S M env h req res httpRequest trace span sampled = Err e ->
        exists msg, e = TypeError msg)
  /\ forall (A : Type) (info : heap -> val -> string -> result A) e,
       request_log_fields T S M env h req res httpRequest trace span sampled = Err e ->
       emitRequestLog T S M info env h req res httpRequest trace span sampled = Err e.
Proof.
  intros Hurl. split; [|split].
  - unfold request_log_fields, nonempty.
    destruct (nullish httpRequest) eqn:Hn.
    + destruct httpRequest; try discriminate Hn; reflexivity.
    + rewrite (get_read h httpRequest "requestUrl" Hn). cbn [rbind negb andb].
      destruct (env "K_SERVICE") as [fn|]; [|reflexivity].
      destruct (String.eqb fn ""); [reflexivity|].
      destruct (read h httpRequest "requestUrl"); try discriminate Hurl; reflexivity.
  - intros e. unfold request_log_fields.
    destruct (nullish httpRequest) eqn:Hn.
    + destruct httpRequest; try discriminate Hn; cbn [get rbind]; intros [= <-]; eauto.
    + rewrite (get_read h httpRequest "requestUrl" Hn). cbn [rbind].
      destruct (env "K_SERVICE") as [fn|]; [|discriminate].
      destruct (String.eqb fn ""); [discriminate|].
      destruct (read h httpRequest "requestUrl"); try discriminate Hurl;
        cbn [prefixed_url rbind alloc_object]; try discriminate; intros [= <-]; eauto.
  - intros A info e He. unfold emitRequestLog. rewrite He. reflexivity.
Qed.

Lemma completion_record_failure_witness :
  is_ok (request_log_fields Samples.trace_key Samples.span_key Samples.sampled_key
           Samples.function_env [OObj [("requestUrl", VNum 5)]] VUndefined VUndefined (VRef 0)
           VUndefined VUndefined VUndefined) = false.
Proof.
  destruct (completion_record_failure Samples.trace_key Samples.span_key Samples.sampled_key
              Samples.function_env [OObj [("requestUrl", VNum 5)]] VUndefined VUndefined (VRef 0)
              VUndefined VUndefined VUndefined eq_refl) as (Hok & _).
  rewrite Hok. reflexivity.
Defined.

(** X13: the child logger and the completion record bind a request's
    trace and span alike. [makeChildLogger] asks for a simple child
    with the trace and the span under their two keys, in a new object;
    and, the keys being distinct and [K_SERVICE] set, whatever the child
    binds, the completion record of the request holds under the same
    key. *)
Theorem trace_bound_alike (T S M : string) (A : Type)
    (child : heap -> val -> bool -> result A) (env : environment) (h h0 : heap)
    (req res httpRequest trace span sampled : val) (h' : heap) (fields : val) :
  distinct ["req"; "res"; "httpRequest"; T; S; M] = true ->
  nonempty (env "K_SERVICE") <> None ->
  request_log_fields T S M env h req res httpRequest trace span sampled = Ok (h', fields) ->
  exists h1 bound,
    makeChildLogger T S child h0 trace span = child h1 bound true /\
    (forall l, (l < length h0)%nat -> h1 !! l = h0 !! l) /\
    own_props h1 bound = [(T, trace); (S, span)] /\
    forall k v, assoc k (own_props h1 bound) = Some v ->
                assoc k (own_props h' fields) = Some v.
Proof.
  intros Hd Hk Hrun.
  pose proof (fields_shape T S M Hd _ _ _ _ _ _ _ _ _ _ Hrun) as Hs.
  destruct (nonempty (env "K_SERVICE")) as [fn|]; [|congruence].
  destruct Hs as (url & _ & _ & Hfields).
  assert (HTS : distinct [T; S] = true).
  { cbn [distinct existsb] in Hd |- *.
    repeat (apply andb_true_iff in Hd; destruct Hd as [? Hd]).
    match goal with H : negb (String.eqb T S || _) = true |- _ =>
      apply negb_true_iff, orb_false_iff in H; destruct H as [H _]; rewrite H end.
    reflexivity. }
  unfold makeChildLogger, alloc_object.
  rewrite (assign_props_distinct [] _) by exact HTS. cbn [app].
  eexists _, _. split; [reflexivity|]. split; [intros l Hl; apply lookup_app_l; exact Hl|].
  assert (Hown : own_props (h0 ++ [OObj [(T, trace); (S, span)]]) (VRef (length h0))
                 = [(T, trace); (S, span)]).
  { unfold own_props. rewrite list_lookup_middle by reflexivity. reflexivity. }
  rewrite Hown, Hfields. split; [reflexivity|].
  assert (Hne : forall a b, In a ["req"; "res"; "httpRequest"] -> In b [T; S] ->
                            String.eqb a b = false).
  { intros a b Ha Hb. apply eqb_neq_false. intros ->.
    cbn [distinct existsb] in Hd.
    repeat (apply andb_true_iff in Hd; destruct Hd as [? Hd]).
    repeat match goal with H : negb _ = true |- _ => apply negb_true_iff in H end.
    repeat match goal with H : _ || _ = false |- _ => apply orb_false_iff in H; destruct H end.
    simpl in Ha, Hb.
    destruct Ha as [Ea|[Ea|[Ea|[]]]]; destruct Hb as [Eb|[Eb|[]]]; subst;
      rewrite ?Ea, ?String.eqb_refl in *; discriminate. }
  intros k v. cbn [assoc].
  destruct (String.eqb T k) eqn:ET.
  - apply String.eqb_eq in ET. subst k. intros Hv.
    rewrite (Hne "req" T), (Hne "res" T), (Hne "httpRequest" T) by (simpl; auto).
    exact Hv.
  - destruct (String.eqb S k) eqn:ES; [|discriminate].
    apply String.eqb_eq in ES. subst k. intros Hv.
    rewrite (Hne "req" S), (Hne "res" S), (Hne "httpRequest" S) by (simpl; auto).
    rewrite ?ET, ?String.eqb_refl. exact Hv.
Qed.

Lemma trace_bound_alike_witness :
  exists h1 bound,
    makeChildLogger Samples.trace_key Samples.span_key Samples.bound_fields [] (VStr "t")
      VUndefined = Ok (h1, bound) /\
    own_props h1 bound = [(Samples.trace_key, VStr "t"); (Samples.span_key, VUndefined)] /\
    assoc Samples.trace_key (own_props Samples.completion_store (VRef 3)) = Some (VStr "t").
Proof.
  destruct (trace_bound_alike Samples.trace_key Samples.span_key Samples.sampled_key _
              Samples.bound_fields Samples.function_env Samples.http_store []
              (VStr "req") (VStr "res") (VRef 0) (VStr "t") VUndefined VUndefined
              Samples.completion_store (VRef 3))
    as (h1 & bound & Hchild & _ & Hown & Hsame).
  - reflexivity.
  - discriminate.
  - exact sample_completion.
  - exists h1, bound. split; [exact Hchild|]. split; [exact Hown|].
    apply Hsame. rewrite Hown. reflexivity.
Defined.

Lemma nonempty_or_env a b :
  nonempty b <> None -> exists s, or_env a b = Some s /\ s <> "".
Proof.
  unfold nonempty, or_env. intros Hb.
  destruct b as [s|]; [|congruence]. destruct (String.eqb s "") eqn:Es; [congruence|].
  apply String.eqb_neq in Es.
  destruct a as [g|]; [|eauto]. destruct (String.eqb g "") eqn:Eg; [eauto|].
  apply String.eqb_neq in Eg. eauto.
Qed.

Lemma has_key_assign_props_or k target source :
  has_key k (assign_props target source) = has_key k target || has_key k source.
Proof.
  unfold assign_props. revert target.
  induction source as [|[k' v'] source IH]; intros target; simpl.
  - rewrite orb_false_r. reflexivity.
  - rewrite IH, has_key_set_member. unfold has_key. simpl.
    rewrite orb_assoc. reflexivity.
Qed.

Lemma httpRequest_key (T S M : string) (env : environment) (h : heap)
    (req res httpRequest trace span sampled : val) (h' : heap) (fields : val) :
  request_log_fields T S M env h req res httpRequest trace span sampled = Ok (h', fields) ->
  has_key "httpRequest" (own_props h' fields)
  = match nonempty (env "K_SERVICE") with Some _ => true | None => false end.
Proof.
  unfold request_log_fields, nonempty.
  destruct (get h httpRequest "requestUrl") as [requestUrl|e]; [|discriminate]. cbn [rbind].
  assert (Hplain : forall (hh : heap) ps, own_props (hh ++ [OObj ps]) (VRef (length hh)) = ps).
  { intros hh ps. unfold own_props. rewrite list_lookup_middle by reflexivity. reflexivity. }
  destruct (env "K_SERVICE") as [fn|]; [destruct (String.eqb fn "")|];
    try (intros [= <- <-]; rewrite Hplain; reflexivity).
  destruct (prefixed_url fn requestUrl) as [url|e]; [|discriminate].
  cbn [rbind alloc_object]. set (inner := assign_props [] _).
  intros [= <- <-]. rewrite Hplain, has_key_assign_props_or. subst inner.
  rewrite has_key_assign_props_or. unfold has_key at 3. cbn [map fst existsb].
  rewrite String.eqb_refl, !orb_true_r. reflexivity.
Qed.

(** X14: whenever the completion record carries [httpRequest], a logger
    created in the same environment is named after the service and
    ships its records through the log shipper's stream: the
    middleware's test of [K_SERVICE] implies the factory's test of
    [GAE_SERVICE || K_SERVICE]. *)
Theorem httpRequest_only_with_shipper `{Library} (T S M : string) (env : environment)
    (stdSerializers_err : serializer)
    (Logger_createLogger : string -> list Stream -> Serializers -> result emitter)
    (level : option LogLevel)
    (redactConfig : option ExtendedRedactOptions) (logger : Logger) (h : heap)
    (req res httpRequest trace span sampled : val) (h' : heap) (fields : val) :
  createLogger env stdSerializers_err Logger_createLogger level redactConfig = Ok logger ->
  request_log_fields T S M env h req res httpRequest trace span sampled = Ok (h', fields) ->
  has_key "httpRequest" (own_props h' fields) = true ->
  name logger <> "" /\
  getGoogleServiceName env = Some (name logger) /\
  streams logger = [LoggingBunyanStream true false (logLevel_of level env)].
Proof.
  intros Hcreate Hrun Hkey. rewrite (httpRequest_key _ _ _ _ _ _ _ _ _ _ _ _ _ Hrun) in Hkey.
  assert (Hk : nonempty (env "K_SERVICE") <> None)
    by (destruct (nonempty (env "K_SERVICE")); congruence).
  destruct (nonempty_or_env (env "GAE_SERVICE") _ Hk) as (s & Hs & Hne).
  revert Hcreate. unfold createLogger, getGoogleServiceName. rewrite Hs.
  rewrite (eqb_neq_false _ _ Hne).
  destruct (Logger_createLogger _ _ _) as [bunyan_emit|e]; [|discriminate]. cbn [rbind].
  destruct (fastRedact (redact_options redactConfig)) as [redact|e]; [|discriminate].
  cbn [rbind]. intros [= <-]. cbn [name streams]. auto.
Qed.

Lemma httpRequest_only_with_shipper_witness :
  getGoogleServiceName Samples.function_env = Some (name Samples.function_logger) /\
  streams Samples.function_logger
  = [LoggingBunyanStream true false (logLevel_of None Samples.function_env)].
Proof.
  assert (Hcreate : createLogger Samples.function_env Samples.plain_err Samples.bunyan None None
                    = Ok Samples.function_logger) by reflexivity.
  destruct (httpRequest_only_with_shipper Samples.trace_key Samples.span_key Samples.sampled_key
              _ _ _ _ _ _ _ _ _ _ _ _ _ _ _ Hcreate sample_completion eq_refl)
    as (_ & Hname & Hstreams).
  split; [exact Hname|exact Hstreams].
Defined.

End RequestLogFacts.

(** ** The request serializer applied twice *)

Module SummaryFacts.
Import Json Js JsonFacts ObjectFacts StoreFacts FastRedact ModelFacts Logging Vocabulary Shapes.
Import SerializerFacts MiddlewareFacts InterceptorFacts.
Local Open Scope string_scope.
Local Open Scope list_scope.

Lemma req_serializer_new h ps :
  assoc "connection" ps = None ->
  req_serializer (h ++ [OObj ps]) (VRef (length h)) = Ok (h ++ [OObj ps], VRef (length h)).
Proof.
  intros Hc. unfold req_serializer. cbn [truthy negb get].
  rewrite list_lookup_middle by reflexivity. rewrite Hc. reflexivity.
Qed.

(** X15: [serializers.req] is idempotent. What it returns, the request
    itself or its summary, it returns unchanged when applied again, and
    the second application adds nothing to the store. *)
Theorem req_serializer_idempotent (h : heap) (req : val) (h1 : heap) (summary : val) :
  req_serializer h req = Ok (h1, summary) ->
  req_serializer h1 summary = Ok (h1, summary).
Proof.
  intros Hrun. pose proof Hrun as Hagain. revert Hrun. unfold req_serializer at 1.
  destruct (truthy req) eqn:Hreq; cbn [negb]; [|intros [= <- <-]; exact Hagain].
  pose proof (truthy_not_nullish _ Hreq) as Hn.
  rewrite (get_read h req "connection" Hn). cbn [rbind].
  destruct (truthy (read h req "connection")) eqn:Hc; cbn [negb];
    [|intros [= <- <-]; exact Hagain].
  pose proof (truthy_not_nullish _ Hc) as Hnc.
  rewrite !(get_read h req _ Hn). cbn [rbind].
  destruct (truthy (read h req "originalUrl")); cbn [rbind];
    rewrite !(get_read h _ _ Hnc); cbn [rbind]; unfold alloc_object;
    intros [= <- <-]; apply req_serializer_new; reflexivity.
Qed.

Lemma req_serializer_idempotent_witness :
  req_serializer Samples.request_store (VRef 1) = Ok (Samples.summary_store, VRef 2) /\
  req_serializer Samples.summary_store (VRef 2) = Ok (Samples.summary_store, VRef 2).
Proof.
  assert (Hrun : req_serializer Samples.request_store (VRef 1)
                 = Ok (Samples.summary_store, VRef 2)) by reflexivity.
  split; [exact Hrun|]. exact (req_serializer_idempotent _ _ _ _ Hrun).
Defined.

Lemma read_new (h : heap) ps k :
  read (h ++ [OObj ps]) (VRef (length h)) k = default VUndefined (assoc k ps).
Proof. unfold read. cbn [get]. rewrite list_lookup_middle by reflexivity. reflexivity. Qed.

(** X17: [serializers.res] is not idempotent. Applied to a summary it
    built, it builds a second summary with the same status code whose
    [header] is [undefined]: the summary holds the header under
    [header], and the serializer reads [_header]. *)
Theorem res_serializer_twice (h : heap) (res : val) (h1 : heap) (summary : val) :
  res_serializer h res = Ok (h1, summary) -> summary <> res ->
  exists h2 again,
    res_serializer h1 summary = Ok (h2, again) /\ again <> summary /\
    read h2 again "statusCode" = read h1 summary "statusCode" /\
    read h1 summary "header" = read h res "_header" /\
    read h2 again "header" = VUndefined.
Proof.
  unfold res_serializer at 1.
  destruct (truthy res) eqn:Hres; cbn [negb]; [|intros [= <- <-]; congruence].
  pose proof (truthy_not_nullish _ Hres) as Hn.
  rewrite (get_read h res "statusCode" Hn). cbn [rbind].
  destruct (truthy (read h res "statusCode")) eqn:Hs; cbn [negb];
    [|intros [= <- <-]; congruence].
  rewrite (get_read h res _ Hn). cbn [rbind]. unfold alloc_object.
  intros [= <- <-] _.
  set (ps := [("statusCode", read h res "statusCode"); ("header", read h res "_header")]).
  assert (Hsum : forall k, get (h ++ [OObj ps]) (VRef (length h)) k
                           = Ok (read (h ++ [OObj ps]) (VRef (length h)) k))
    by (intros k; apply get_read; reflexivity).
  unfold res_serializer. cbn [truthy negb]. rewrite !Hsum, !read_new. cbn [rbind].
  assert (Hcode : default VUndefined (assoc "statusCode" ps) = read h res "statusCode")
    by reflexivity.
  assert (Hhead : default VUndefined (assoc "_header" ps) = VUndefined) by reflexivity.
  rewrite Hcode, Hhead, Hs. cbn [negb]. unfold alloc_object.
  eexists _, _. split; [reflexivity|].
  split; [intros [= He]; rewrite length_app in He; simpl in He; lia|].
  rewrite !read_new. repeat split; reflexivity.
Qed.

Lemma res_serializer_twice_witness :
  exists h1 summary h2 again,
    res_serializer Samples.response_store (VRef 0) = Ok (h1, summary) /\
    res_serializer h1 summary = Ok (h2, again) /\
    read h1 summary "header" = VStr "HTTP/1.1 200 OK" /\
    read h2 again "header" = VUndefined.
Proof.
  assert (Hrun : res_serializer Samples.response_store (VRef 0)
                 = Ok (Samples.response_store
                       ++ [OObj [("statusCode", VNum 200); ("header", VStr "HTTP/1.1 200 OK")]],
                       VRef 1)) by reflexivity.
  destruct (res_serializer_twice _ _ _ _ Hrun) as (h2 & again & Hagain & _ & _ & Hhead & Hlost);
    [discriminate|].
  eexists _, _, h2, again. split; [exact Hrun|]. split; [exact Hagain|].
  split; [exact Hhead|exact Hlost].
Defined.

End SummaryFacts.

(** ** The copy and the record that is forwarded *)

Module CopyFacts.
Import Json Js JsonFacts ObjectFacts StoreFacts FastRedact ModelFacts Logging Vocabulary Shapes.
Import SerializerFacts MiddlewareFacts InterceptorFacts.
Local Open Scope string_scope.
Local Open Scope list_scope.

(** *** What [JSON.stringify] makes of a parsed tree *)

Lemma alloc_items_extends items h :
  exists new, (alloc_items items h).1 = h ++ new.
Proof.
  destruct (alloc_items items h) as [h' vs] eqn:E.
  assert (Hall : Forall alloc_ok items) by (apply Forall_forall; intros; apply alloc_fresh).
  destruct (alloc_items_fresh _ Hall _ _ _ E) as (new & -> & _). eauto.
Qed.

Lemma alloc_members_extends members h :
  exists new, (alloc_members members h).1 = h ++ new.
Proof.
  destruct (alloc_members members h) as [h' ps] eqn:E.
  assert (Hall : Forall (fun kv : string * json => alloc_ok (snd kv)) members)
    by (apply Forall_forall; intros; apply alloc_fresh).
  destruct (alloc_members_fresh _ Hall _ _ _ E) as (_ & new & -> & _). eauto.
Qed.

Lemma alloc_extends_fst j h : exists new, (alloc j h).1 = h ++ new.
Proof. destruct (alloc j h) as [h' v] eqn:E. eapply alloc_extends. exact E. Qed.

Lemma ser_elems_alloc items :
  Forall reads_back items ->
  forall h st n more,
    Forall (fun x => size x <= n)%nat items ->
    (forall x, In x st -> (length (alloc_items items h).1 <= x)%nat) ->
    ser_elems (to_json n ((alloc_items items h).1 ++ more) st) (alloc_items items h).2
    = Ok items.
Proof.
  induction 1 as [|x items Hx _ IH]; intros h st n more Hn Hst; [reflexivity|].
  inversion Hn as [|? ? Hnx Hn']; subst. simpl in *.
  destruct (alloc x h) as [h1 v] eqn:E1.
  destruct (alloc_items items h1) as [h2 vs] eqn:E2. simpl in *.
  destruct (alloc_items_extends items h1) as [new Hnew]. rewrite E2 in Hnew. simpl in Hnew.
  subst h2.
  assert (Hv : to_json n ((h1 ++ new) ++ more) st v = Ok (Some x)).
  { rewrite <- app_assoc. specialize (Hx h st n (new ++ more) Hnx). rewrite E1 in Hx.
    apply Hx. intros y Hy. specialize (Hst y Hy). rewrite length_app in Hst. simpl. lia. }
  rewrite Hv. cbn [rbind].
  specialize (IH h1 st n more Hn'). rewrite E2 in IH. simpl in IH.
  rewrite IH by exact Hst. reflexivity.
Qed.

Lemma ser_props_alloc members :
  Forall (fun kv => reads_back (snd kv)) members ->
  forall h st n more,
    Forall (fun kv => size (snd kv) <= n)%nat members ->
    (forall x, In x st -> (length (alloc_members members h).1 <= x)%nat) ->
    ser_props (to_json n ((alloc_members members h).1 ++ more) st) (alloc_members members h).2
    = Ok members.
Proof.
  induction 1 as [|[k x] members Hx _ IH]; intros h st n more Hn Hst; [reflexivity|].
  inversion Hn as [|? ? Hnx Hn']; subst. simpl in *.
  destruct (alloc x h) as [h1 v] eqn:E1.
  destruct (alloc_members members h1) as [h2 ps] eqn:E2. simpl in *.
  destruct (alloc_members_extends members h1) as [new Hnew]. rewrite E2 in Hnew. simpl in Hnew.
  subst h2.
  assert (Hv : to_json n ((h1 ++ new) ++ more) st v = Ok (Some x)).
  { rewrite <- app_assoc. specialize (Hx h st n (new ++ more) Hnx). rewrite E1 in Hx.
    apply Hx. intros y Hy. specialize (Hst y Hy). rewrite length_app in Hst. simpl. lia. }
  rewrite Hv. cbn [rbind].
  specialize (IH h1 st n more Hn'). rewrite E2 in IH. simpl in IH.
  rewrite IH by exact Hst. reflexivity.
Qed.

Lemma alloc_not_function j h f : (alloc j h).2 <> VFun f.
Proof.
  destruct j as [|b|z|s|items|members]; try discriminate.
  - rewrite alloc_array. destruct (alloc_items items h). discriminate.
  - rewrite alloc_members_eq. destruct (alloc_members members h). discriminate.
Qed.

(** A built object has no [toJSON] method. *)
Lemma has_toJSON_alloc members h : has_toJSON (alloc_members members h).2 = false.
Proof.
  unfold has_toJSON. revert h. induction members as [|[k x] members IH]; intros h; [reflexivity|].
  simpl. pose proof (alloc_not_function x h) as Hx.
  destruct (alloc x h) as [h1 v] eqn:E1. specialize (IH h1).
  destruct (alloc_members members h1) as [h2 ps]. simpl in *.
  destruct (String.eqb k "toJSON"); [|exact IH].
  destruct v; try reflexivity. exfalso. eapply Hx. reflexivity.
Qed.

Lemma size_items_le items n :
  (fold_right (fun x n => S (size x + n)) O items <= n)%nat ->
  Forall (fun x => size x <= n)%nat items.
Proof.
  revert n. induction items as [|x items IH]; intros n Hn; constructor; simpl in Hn; [lia|].
  apply IH. lia.
Qed.

Lemma size_members_le (members : list (string * json)) n :
  (fold_right (fun kv n => S (size (snd kv) + n)) O members <= n)%nat ->
  Forall (fun kv => size (snd kv) <= n)%nat members.
Proof.
  revert n. induction members as [|x members IH]; intros n Hn; constructor; simpl in Hn; [lia|].
  apply IH. lia.
Qed.

Lemma mem_above l st : (forall x, In x st -> (l < x)%nat) -> mem l st = false.
Proof.
  intros H. destruct (mem l st) eqn:E; [|reflexivity].
  apply mem_In in E. specialize (H _ E). lia.
Qed.

Lemma to_json_alloc j : reads_back j.
Proof.
  induction j as [|b|z|s|items IH|members IH] using json_ind; intros h st n more Hn Hst;
    try (destruct n; reflexivity).
  - rewrite alloc_array in *. destruct (alloc_items items h) as [h1 vs] eqn:E.
    unfold alloc_object in *. cbn [fst snd] in *.
    destruct n as [|n]; [simpl in Hn; lia|]. rewrite to_json_ref.
    rewrite length_app in Hst. simpl in Hst.
    rewrite mem_above by (intros x Hx; specialize (Hst x Hx); lia).
    rewrite <- app_assoc. cbn [app]. rewrite list_lookup_middle by reflexivity.
    pose proof (ser_elems_alloc items IH h (length h1 :: st) n (OArr vs :: more)) as Hs.
    rewrite E in Hs. cbn [fst snd] in Hs. rewrite Hs; [reflexivity| |].
    + apply size_items_le. simpl in Hn. lia.
    + intros x [<-|Hx]; [lia|]. specialize (Hst x Hx). lia.
  - rewrite alloc_members_eq in *. destruct (alloc_members members h) as [h1 ps] eqn:E.
    unfold alloc_object in *. cbn [fst snd] in *.
    destruct n as [|n]; [simpl in Hn; lia|]. rewrite to_json_ref.
    rewrite length_app in Hst. simpl in Hst.
    rewrite mem_above by (intros x Hx; specialize (Hst x Hx); lia).
    rewrite <- app_assoc. cbn [app]. rewrite list_lookup_middle by reflexivity.
    pose proof (ser_props_alloc members IH h (length h1 :: st) n (OObj ps :: more)) as Hs.
    pose proof (has_toJSON_alloc members h) as Htj.
    rewrite E in Hs, Htj. cbn [fst snd] in Hs, Htj.
    rewrite (ser_object_plain _ _ Htj), Hs; [reflexivity| |].
    + apply size_members_le. simpl in Hn. lia.
    + intros x [<-|Hx]; [lia|]. specialize (Hst x Hx). lia.
Qed.

Lemma to_json_same_fuel n m h st v r :
  to_json n h st v = r -> r <> Err OutOfFuel -> to_json m h st v <> Err OutOfFuel ->
  to_json m h st v = r.
Proof.
  intros Hr Hne Hm. destruct (Nat.le_gt_cases n m) as [Hle|Hgt].
  - eapply to_json_fuel_le; eauto.
  - rewrite <- Hr. symmetry. eapply to_json_fuel_le; [|reflexivity|exact Hm]. lia.
Qed.

Lemma view_alloc j h : view (alloc j h).1 (alloc j h).2 = Ok (Some j).
Proof.
  unfold view. pose proof (to_json_alloc j h [] (size j) [] (Nat.le_refl _)) as H.
  rewrite app_nil_r in H.
  eapply to_json_same_fuel; [apply H; intros x []|discriminate|].
  apply to_json_fuel; [constructor|intros l []|simpl; lia].
Qed.

(** *** The copy *)

Lemma record_keys_distinct h r ps :
  store_ok h = true -> h !! r = Some (OObj ps) -> distinct (map fst (rest_of ps)) = true.
Proof.
  intros Hok Hr. pose proof (store_ok_lookup _ _ _ Hok Hr) as Ho. simpl in Ho.
  apply andb_true_iff in Ho. destruct Ho as [Hd _]. apply distinct_filter. exact Hd.
Qed.

Lemma ser_props_unique h n st ps kvs :
  store_ok h = true -> distinct (map fst ps) = true ->
  ser_props (to_json n h st) ps = Ok kvs -> unique_keys (JObj kvs) = true.
Proof.
  intros Hok Hd Es. destruct (ser_props_keys _ _ _ Es) as (_ & Hdk & Hall).
  simpl. rewrite Hdk by exact Hd. simpl.
  apply forallb_forall. intros kj Hkj. rewrite Forall_forall in Hall.
  apply list_elem_of_In in Hkj.
  destruct (Hall kj Hkj) as (w & _ & Hw). eapply to_json_unique_keys; eauto.
Qed.

(** Without [globalReplace], the copy is the tree of the record's rest. *)
Lemma copy_payload_plain cfg h r ps :
  no_globalReplace cfg -> store_ok h = true -> h !! r = Some (OObj ps) ->
  forall kvs, ser_object (to_json (S (length h)) h []) (rest_of ps) = Ok kvs ->
  copy_payload cfg h (VRef r) = Ok (alloc (JObj kvs) h).
Proof.
  intros Hng Hok Hr kvs Hs. unfold copy_payload. cbn [nullish].
  unfold own_props. rewrite Hr. unfold JSON_stringify_new. rewrite Hs. cbn [rbind].
  rewrite (no_globalReplace_of _ Hng). unfold JSON_parse.
  rewrite parse_print; [reflexivity|]. apply ser_object_ok in Hs. destruct Hs as [_ Hs].
  eapply ser_props_unique; [exact Hok|eapply record_keys_distinct; eauto|exact Hs].
Qed.

Lemma copy_payload_plain_inv cfg h r ps h2 parsed :
  no_globalReplace cfg -> store_ok h = true -> h !! r = Some (OObj ps) ->
  copy_payload cfg h (VRef r) = Ok (h2, parsed) ->
  exists kvs, ser_object (to_json (S (length h)) h []) (rest_of ps) = Ok kvs /\
              alloc (JObj kvs) h = (h2, parsed).
Proof.
  intros Hng Hok Hr Hcopy.
  destruct (ser_object (to_json (S (length h)) h []) (rest_of ps)) as [kvs|e] eqn:Hs.
  - exists kvs. split; [reflexivity|].
    rewrite (copy_payload_plain _ _ _ _ Hng Hok Hr _ Hs) in Hcopy. congruence.
  - unfold copy_payload in Hcopy. cbn [nullish] in Hcopy. unfold own_props in Hcopy.
    rewrite Hr in Hcopy. unfold JSON_stringify_new in Hcopy. rewrite Hs in Hcopy. discriminate.
Qed.

(** X2: without [globalReplace], the copy handed to the redactor
    serializes to the very text the record's own fields (the core
    fields apart) serialize to: the round trip through
    [JSON.stringify] and [JSON.parse] loses nothing that JSON sees. *)
Theorem copy_serializes_alike (redactConfig : option ExtendedRedactOptions) (h : heap)
    (r : loc) (ps : list (string * val)) (h2 : heap) (parsed : val) :
  no_globalReplace redactConfig -> store_ok h = true -> h !! r = Some (OObj ps) ->
  copy_payload redactConfig h (VRef r) = Ok (h2, parsed) ->
  exists text,
    JSON_stringify_new h (rest_of ps) = Ok text /\
    JSON_stringify h2 parsed = Ok (Some text).
Proof.
  intros Hng Hok Hr Hcopy.
  destruct (copy_payload_plain_inv _ _ _ _ _ _ Hng Hok Hr Hcopy) as (kvs & Hs & Ha).
  exists (print (JObj kvs)). split.
  - unfold JSON_stringify_new. rewrite Hs. reflexivity.
  - pose proof (view_alloc (JObj kvs) h) as Hv. rewrite Ha in Hv. cbn [fst snd] in Hv.
    unfold JSON_stringify. unfold view in Hv. rewrite Hv. reflexivity.
Qed.

Lemma sample_copy :
  copy_payload (Some Samples.rules) Samples.store (VRef Samples.record)
  = Ok (Samples.copied_store, VRef 5).
Proof. reflexivity. Qed.

Lemma copy_serializes_alike_witness :
  exists text,
    JSON_stringify_new Samples.store (rest_of (own_props Samples.store (VRef Samples.record)))
    = Ok text /\
    JSON_stringify Samples.copied_store (VRef 5) = Ok (Some text).
Proof.
  exact (copy_serializes_alike (Some Samples.rules) Samples.store Samples.record _ _ _
           eq_refl eq_refl eq_refl sample_copy).
Defined.

(** *** The record that is forwarded *)

Lemma keys_assign_props_existing target source :
  (forall k, has_key k source = true -> has_key k target = true) ->
  map fst (assign_props target source) = map fst target.
Proof.
  unfold assign_props. revert target.
  induction source as [|[k v] source IH]; intros target Hsub; simpl; [reflexivity|].
  assert (Hk : has_key k target = true).
  { apply Hsub. unfold has_key. simpl. rewrite String.eqb_refl. reflexivity. }
  rewrite IH.
  - apply keys_set_member_existing. exact Hk.
  - intros k' Hk'. rewrite has_key_set_member. rewrite Hsub; [reflexivity|].
    unfold has_key in *. simpl. rewrite Hk'. apply orb_true_r.
Qed.

Lemma ser_props_dropped f ps kvs k v :
  distinct (map fst ps) = true -> assoc k ps = Some v -> f v = Ok None ->
  ser_props f ps = Ok kvs -> has_key k kvs = false.
Proof.
  revert kvs. induction ps as [|[k' v'] ps IH]; intros kvs Hd Hk Hv Hs; [discriminate|].
  simpl in Hd, Hk, Hs. apply andb_true_iff in Hd. destruct Hd as [Hfresh Hd].
  destruct (f v') as [oj|e] eqn:Ef; [|discriminate]. cbn [rbind] in Hs.
  destruct (ser_props f ps) as [rest|e] eqn:Er; [|discriminate]. cbn [rbind] in Hs.
  injection Hs as <-. destruct (ser_props_keys _ _ _ Er) as (Hsub & _ & _).
  destruct (String.eqb k' k) eqn:E.
  - apply String.eqb_eq in E. subst k'. injection Hk as ->. rewrite Hv in Ef.
    injection Ef as <-. destruct (has_key k rest) eqn:Hr; [|reflexivity].
    apply Hsub in Hr. apply negb_true_iff in Hfresh. unfold has_key in Hr. congruence.
  - specialize (IH rest Hd Hk Hv eq_refl). destruct oj as [j|]; [|exact IH].
    unfold has_key in *. simpl. rewrite String.eqb_sym, E, IH. reflexivity.
Qed.

Lemma assoc_rest_of k ps : is_core k = false -> assoc k (rest_of ps) = assoc k ps.
Proof.
  intros Hk. unfold rest_of. induction ps as [|[k' v] ps IH]; [reflexivity|]. simpl.
  destruct (is_core k') eqn:E; simpl.
  - rewrite IH. destruct (String.eqb k' k) eqn:Ek; [|reflexivity].
    apply String.eqb_eq in Ek. congruence.
  - rewrite IH. reflexivity.
Qed.

Section forwarded.
Variable redactConfig : option ExtendedRedactOptions.
Variable redact : redactor.
Hypothesis compiled : Model.fastRedact (redact_options redactConfig) = Ok redact.
Hypothesis plain : no_globalReplace redactConfig.

(** The run of the interceptor on a record, laid out. *)
Lemma redact_record_plain h r ps h' :
  store_ok h = true -> h !! r = Some (OObj ps) ->
  redact_record redact redactConfig h (VRef r) = Ok h' ->
  exists kvs h3,
    ser_object (to_json (S (length h)) h []) (rest_of ps) = Ok kvs /\
    redact (alloc (JObj kvs) h).1 (alloc (JObj kvs) h).2 = Ok (h3, (alloc (JObj kvs) h).2) /\
    map fst (own_props h3 (alloc (JObj kvs) h).2) = map fst kvs /\
    (forall l, (l < length h)%nat -> h3 !! l = h !! l) /\
    h' = <[r := OObj (assign_props ps
                        (assignable ps (own_props h3 (alloc (JObj kvs) h).2)))]> h3.
Proof.
  intros Hok Hr Hrun. unfold redact_record in Hrun.
  destruct (copy_payload redactConfig h (VRef r)) as [[h2 parsed]|e] eqn:Hcopy; [|discriminate].
  cbn [rbind] in Hrun.
  destruct (copy_payload_plain_inv _ _ _ _ _ _ plain Hok Hr Hcopy) as (kvs & Hs & Ha).
  destruct (redact h2 parsed) as [[h3 payload]|e] eqn:Hred; [|discriminate].
  cbn [rbind] in Hrun.
  pose proof (proj1 (model_run _ _ _ _ _ _ (redact_options_serialize _) compiled Hred)) as ->.
  pose proof (redact_keys _ _ compiled _ _ _ _ Hred) as Hkeys.
  assert (Hred' : redact (alloc (JObj kvs) h).1 (alloc (JObj kvs) h).2 = Ok (h3, parsed))
    by (rewrite Ha; exact Hred).
  destruct (redact_copy_frame _ _ compiled _ _ _ _ Hred') as [_ Hf].
  exists kvs, h3. rewrite Ha. cbn [fst snd]. split; [exact Hs|]. split; [exact Hred|].
  split; [rewrite Hkeys; eapply alloc_object_keys; exact Ha|]. split; [exact Hf|].
  destruct (Object_assign_ref _ _ _ _ Hrun) as [_ Hset]. apply Hset.
  rewrite Hf; [exact Hr|]. eapply lookup_lt_Some; eauto.
Qed.
End forwarded.

Lemma record_keys_within (redactConfig : option ExtendedRedactOptions)
    (redact : redactor) (h : heap) (r : loc) (ps : list (string * val)) (h' : heap) :
  Model.fastRedact (redact_options redactConfig) = Ok redact ->
  no_globalReplace redactConfig -> store_ok h = true -> h !! r = Some (OObj ps) ->
  redact_record redact redactConfig h (VRef r) = Ok h' ->
  exists ps',
    h' !! r = Some (OObj ps') /\ map fst ps' = map fst ps /\
    forall k v, assoc k ps = Some v -> view h v = Ok None -> assoc k ps' = Some v.
Proof.
  intros Hc Hng Hok Hr Hrun.
  destruct (redact_record_plain _ _ Hc Hng _ _ _ _ Hok Hr Hrun)
    as (kvs & h3 & Hs & _ & Hkeys & Hf & ->).
  assert (Hlt : (r < length h3)%nat).
  { eapply lookup_lt_Some. rewrite Hf; [exact Hr|]. eapply lookup_lt_Some; eauto. }
  apply ser_object_ok in Hs. destruct Hs as [_ Hs].
  destruct (ser_props_keys _ _ _ Hs) as (Hsub & _ & _).
  eexists. split; [apply list_lookup_insert_eq; exact Hlt|]. split.
  - apply keys_assign_props_existing. intros k Hk. apply has_key_assignable in Hk.
    rewrite (has_key_same_keys k _ kvs Hkeys) in Hk. apply Hsub in Hk.
    unfold rest_of in Hk. eapply has_key_filter. exact Hk.
  - intros k v Hk Hv. rewrite assoc_assigned_other; [exact Hk|].
    rewrite (has_key_same_keys k _ kvs Hkeys).
    destruct (is_core k) eqn:Ecore.
    + destruct (has_key k kvs) eqn:E; [|reflexivity]. apply Hsub in E.
      rewrite has_key_rest_of_core in E by exact Ecore. discriminate.
    + eapply ser_props_dropped; [eapply record_keys_distinct; eauto| |exact Hv|exact Hs].
      rewrite assoc_rest_of by exact Ecore. exact Hk.
Qed.



Lemma absent_fields_within (redactConfig : option ExtendedRedactOptions)
    (redact : redactor) (h : heap) (r : loc) (ps : list (string * val)) (h' h2 : heap)
    (parsed : val) (k : string) :
  Model.fastRedact (redact_options redactConfig) = Ok redact ->
  h !! r = Some (OObj ps) ->
  redact_record redact redactConfig h (VRef r) = Ok h' ->
  copy_payload redactConfig h (VRef r) = Ok (h2, parsed) ->
  has_key k (own_props h2 parsed) = false ->
  read h' (VRef r) k = read h (VRef r) k.
Proof.
  intros Hc Hr Hrun Hcopy Hno.
  unfold redact_record in Hrun. rewrite Hcopy in Hrun. cbn [rbind] in Hrun.
  destruct (redact h2 parsed) as [[h3 payload]|e] eqn:Ered; [|discriminate].
  cbn [rbind] in Hrun.
  pose proof (proj1 (model_run _ _ _ _ _ _ (redact_options_serialize _) Hc Ered)) as ->.
  pose proof (redact_keys _ _ Hc _ _ _ _ Ered) as Hkeys.
  rewrite copy_payload_tree in Hcopy.
  destruct (payload_tree redactConfig h (VRef r)) as [j|e]; [|discriminate].
  cbn [rbind] in Hcopy.
  assert (Hred : redact (alloc j h).1 (alloc j h).2 = Ok (h3, parsed)).
  { injection Hcopy as Ha. rewrite Ha. exact Ered. }
  destruct (redact_copy_frame _ _ Hc _ _ _ _ Hred) as [_ Hf].
  assert (Hr3 : h3 !! r = Some (OObj ps)).
  { rewrite Hf; [exact Hr|]. eapply lookup_lt_Some; eauto. }
  destruct (Object_assign_ref _ _ _ _ Hrun) as [_ Hset]. rewrite (Hset _ Hr3).
  unfold read, get.
  rewrite list_lookup_insert_eq by (eapply lookup_lt_Some; eauto). rewrite Hr.
  rewrite assoc_assigned_other; [reflexivity|].
  rewrite (has_key_same_keys k _ (own_props h2 parsed) Hkeys). exact Hno.
Qed.

(** X16: under rules whose paths stay within own properties, and when
    the parsed payload has no member named [__proto__], a field that
    the parsed payload does not have keeps its value. [Object.assign]
    writes the fields of the redacted payload only, so what
    [globalReplace] removes from the text stays on the record as it
    came, unredacted. *)
Theorem absent_fields_keep_values (R : Model.realm)
    (redactConfig : option ExtendedRedactOptions)
    (redact : redactor) (h : heap) (r : loc) (ps : list (string * val)) (h' h2 : heap)
    (parsed : val) (k : string) :
  Model.fastRedact_in R (redact_options redactConfig) = Ok redact ->
  realm_in R h = true -> plain_paths R h (redact_options redactConfig) = true ->
  h !! r = Some (OObj ps) ->
  redact_record redact redactConfig h (VRef r) = Ok h' ->
  copy_payload redactConfig h (VRef r) = Ok (h2, parsed) ->
  has_key "__proto__" (own_props h2 parsed) = false ->
  has_key k (own_props h2 parsed) = false ->
  read h' (VRef r) k = read h (VRef r) k.
Proof.
  intros Hc Hin Hps Hr Hrun Hcopy _ Hno.
  destruct (within_own R redactConfig redact h (VRef r) Hc Hin Hps) as [Hown E].
  rewrite E in Hrun. exact (absent_fields_within _ _ _ _ _ _ _ _ _ Hown Hr Hrun Hcopy Hno).
Qed.

Lemma absent_fields_keep_values_witness :
  exists redact h',
    Model.fastRedact_in Samples.sample_realm (redact_options (Some Samples.dropping))
    = Ok redact /\
    redact_record redact (Some Samples.dropping) Samples.realm_store (VRef Samples.record)
    = Ok h' /\
    read h' (VRef Samples.record) "password" = VStr "secret".
Proof.
  assert (Hrun : redact_record
                   (Model.redact_in Samples.sample_realm (redact_options (Some Samples.dropping)))
                   (Some Samples.dropping) Samples.realm_store (VRef Samples.record)
                 = Ok (Samples.realm_store ++ [OObj []])) by reflexivity.
  eexists _, _. split; [reflexivity|]. split; [exact Hrun|].
  rewrite (absent_fields_keep_values Samples.sample_realm (Some Samples.dropping) _
             Samples.realm_store Samples.record _ _
             (Samples.realm_store ++ [OObj []]) (VRef 8) "password" eq_refl eq_refl eq_refl
             eq_refl Hrun eq_refl eq_refl eq_refl);
    reflexivity.
Defined.



End CopyFacts.

(** ** Payloads that do not serialize *)

Module FailureFacts.
Import Json Js JsonFacts ObjectFacts StoreFacts FastRedact ModelFacts Logging Vocabulary Shapes.
Import SerializerFacts MiddlewareFacts InterceptorFacts CopyFacts.
Local Open Scope string_scope.
Local Open Scope list_scope.

Lemma reach_head h v l :
  reach h v l ->
  exists l0, v = VRef l0 /\
    (l = l0 \/ exists o w, h !! l0 = Some o /\ In w (fields o) /\ reach h w l).
Proof.
  induction 1 as [l|v l l' o Hr IH Ho Hin].
  - exists l. auto.
  - destruct IH as (l0 & -> & [->|(o1 & w & Ho1 & Hw & Hwl)]); exists l0; (split; [reflexivity|]);
      right.
    + exists o, (VRef l'). repeat split; auto. apply reach_here.
    + exists o1, w. repeat split; auto. eapply reach_step; eauto.
Qed.

Lemma ser_props_ok_all f ps kvs :
  ser_props f ps = Ok kvs -> forall v, In v (map snd ps) -> exists oj, f v = Ok oj.
Proof.
  revert kvs. induction ps as [|[k v] ps IH]; intros kvs Hs w Hw; [destruct Hw|].
  simpl in Hs. destruct (f v) as [oj|e] eqn:Ef; [|discriminate]. cbn [rbind] in Hs.
  destruct (ser_props f ps) as [rest|e] eqn:Er; [|discriminate].
  destruct Hw as [<-|Hw]; [eauto|]. eapply IH; eauto.
Qed.

Lemma ser_elems_ok_all f es js :
  ser_elems f es = Ok js -> forall v, In v es -> exists oj, f v = Ok oj.
Proof.
  revert js. induction es as [|v es IH]; intros js Hs w Hw; [destruct Hw|].
  simpl in Hs. destruct (f v) as [oj|e] eqn:Ef; [|discriminate]. cbn [rbind] in Hs.
  destruct (ser_elems f es) as [rest|e] eqn:Er; [|discriminate].
  destruct Hw as [<-|Hw]; [eauto|]. eapply IH; eauto.
Qed.

Lemma ser_props_err f ps e :
  ser_props f ps = Err e -> exists v, In v (map snd ps) /\ f v = Err e.
Proof.
  induction ps as [|[k v] ps IH]; intros Hs; [discriminate|].
  simpl in Hs. destruct (f v) as [oj|e'] eqn:Ef.
  - cbn [rbind] in Hs. destruct (ser_props f ps) as [rest|e'] eqn:Er; [discriminate|].
    cbn [rbind] in Hs. injection Hs as ->. destruct (IH eq_refl) as (w & Hw & Hf).
    exists w. split; [right; exact Hw|exact Hf].
  - cbn [rbind] in Hs. injection Hs as ->. exists v. split; [left; reflexivity|exact Ef].
Qed.

Lemma ser_elems_err f es e :
  ser_elems f es = Err e -> exists v, In v es /\ f v = Err e.
Proof.
  induction es as [|v es IH]; intros Hs; [discriminate|].
  simpl in Hs. destruct (f v) as [oj|e'] eqn:Ef.
  - cbn [rbind] in Hs. destruct (ser_elems f es) as [rest|e'] eqn:Er; [discriminate|].
    cbn [rbind] in Hs. injection Hs as ->. destruct (IH eq_refl) as (w & Hw & Hf).
    exists w. split; [right; exact Hw|exact Hf].
  - cbn [rbind] in Hs. injection Hs as ->. exists v. split; [left; reflexivity|exact Ef].
Qed.

(** What the serializer is given the fields of. *)
Lemma to_json_fields n h st l0 o oj :
  to_json (S n) h st (VRef l0) = Ok oj -> h !! l0 = Some o ->
  mem l0 st = false /\ forall w, In w (fields o) -> exists ow, to_json n h (l0 :: st) w = Ok ow.
Proof.
  rewrite to_json_ref. destruct (mem l0 st); [discriminate|]. intros Hj Ho. rewrite Ho in Hj.
  split; [reflexivity|]. destruct o as [ps|es]; simpl.
  - destruct (ser_object (to_json n h (l0 :: st)) ps) as [kvs|e] eqn:Es; [|discriminate].
    apply ser_object_ok in Es. destruct Es as [_ Es].
    eapply ser_props_ok_all. exact Es.
  - destruct (ser_elems (to_json n h (l0 :: st)) es) as [js|e] eqn:Es; [|discriminate].
    eapply ser_elems_ok_all. exact Es.
Qed.

Lemma to_json_zero_ref h st l oj : to_json 0 h st (VRef l) <> Ok oj.
Proof. simpl. destruct (mem l st); discriminate. Qed.

(** A serialized value leads to no object that is being serialized. *)
Lemma to_json_off_stack h n :
  forall st v oj x, to_json n h st v = Ok oj -> reach h v x -> mem x st = false.
Proof.
  induction n as [|n IH]; intros st v oj x Hj Hr;
    destruct (reach_head _ _ _ Hr) as (l0 & -> & Hcase).
  - exfalso. eapply to_json_zero_ref. exact Hj.
  - destruct Hcase as [->|(o & w & Ho & Hw & Hwx)].
    + rewrite to_json_ref in Hj. destruct (mem l0 st); [discriminate|reflexivity].
    + destruct (to_json_fields _ _ _ _ _ _ Hj Ho) as [_ Hall].
      destruct (Hall w Hw) as [ow Hjw].
      pose proof (IH _ _ _ _ Hjw Hwx) as Hm. unfold mem in *. simpl in Hm.
      apply orb_false_iff in Hm. tauto.
Qed.

Lemma to_json_ok_serializable h n :
  forall st v oj, to_json n h st v = Ok oj -> ~ unserializable h v.
Proof.
  induction n as [|n IH]; intros st v oj Hj [[m ->]|(l & o & w & Hr & Ho & Hw & Hbad)];
    try discriminate Hj;
    destruct (reach_head _ _ _ Hr) as (l0 & -> & Hcase).
  - eapply to_json_zero_ref. exact Hj.
  - destruct Hcase as [->|(o1 & w1 & Ho1 & Hw1 & Hwl)].
    + destruct (to_json_fields _ _ _ _ _ _ Hj Ho) as [_ Hall].
      destruct (Hall w Hw) as [ow Hjw]. destruct Hbad as [[m ->]|Hback].
      * destruct n; discriminate.
      * pose proof (to_json_off_stack _ _ _ _ _ _ Hjw Hback) as Hm.
        unfold mem in Hm. simpl in Hm. rewrite Nat.eqb_refl in Hm. discriminate.
    + destruct (to_json_fields _ _ _ _ _ _ Hj Ho1) as [_ Hall].
      destruct (Hall w1 Hw1) as [ow Hjw]. apply (IH _ _ _ Hjw).
      right. exists l, o, w. auto.
Qed.

Lemma unserializable_child h l0 o w :
  h !! l0 = Some o -> In w (fields o) -> unserializable h w -> unserializable h (VRef l0).
Proof.
  intros Ho Hw [[m ->]|(l & o2 & w2 & Hr & Ho2 & Hw2 & Hbad)]; right.
  - exists l0, o, (VBigInt m). repeat split; eauto. apply reach_here.
  - exists l, o2, w2. repeat split; auto. eapply reach_child; eauto.
Qed.

Lemma no_toJSON_child h l o w :
  h !! l = Some o -> In w (fields o) -> no_toJSON h (VRef l) -> no_toJSON h w.
Proof. intros Ho Hw Hno l' ps Hr. apply Hno. eapply reach_child; eauto. Qed.

(** Where no object has a [toJSON] method, the serializer fails only on
    what is unserializable. *)
Lemma to_json_err h n :
  forall st v e,
    no_toJSON h v ->
    (forall x, In x st -> exists o w, h !! x = Some o /\ In w (fields o) /\
                                      forall l, reach h v l -> reach h w l) ->
    to_json n h st v = Err e ->
    e = OutOfFuel \/ ((exists msg, e = TypeError msg) /\ unserializable h v).
Proof.
  assert (Hcirc : forall st l0,
            (forall x, In x st -> exists o w, h !! x = Some o /\ In w (fields o) /\
                                              forall l, reach h (VRef l0) l -> reach h w l) ->
            mem l0 st = true -> unserializable h (VRef l0)).
  { intros st l0 Hst Hm. apply mem_In in Hm. destruct (Hst _ Hm) as (o & w & Ho & Hw & Hall).
    right. exists l0, o, w. repeat split; auto; [apply reach_here|].
    right. apply Hall. apply reach_here. }
  induction n as [|n IH]; intros st v e Hno Hst Hj; destruct v; try discriminate.
  - injection Hj as <-. right. split; [eauto|]. left. eauto.
  - simpl in Hj. destruct (mem l st) eqn:Hm; injection Hj as <-; [|auto].
    right. split; [unfold circular; eauto|]. eapply Hcirc; eauto.
  - injection Hj as <-. right. split; [eauto|]. left. eauto.
  - rewrite to_json_ref in Hj. destruct (mem l st) eqn:Hm.
    { injection Hj as <-. right. split; [unfold circular; eauto|]. eapply Hcirc; eauto. }
    destruct (h !! l) as [o|] eqn:Ho; [|discriminate].
    assert (Hsub : exists w, In w (fields o) /\ to_json n h (l :: st) w = Err e).
    { destruct o as [ps|es].
      - rewrite (ser_object_plain _ ps) in Hj by (eapply Hno; [apply reach_here|exact Ho]).
        destruct (ser_props (to_json n h (l :: st)) ps) as [kvs|e'] eqn:Es; [discriminate|].
        cbn [rbind] in Hj. injection Hj as ->. apply ser_props_err in Es. exact Es.
      - destruct (ser_elems (to_json n h (l :: st)) es) as [kvs|e'] eqn:Es; [discriminate|].
        cbn [rbind] in Hj. injection Hj as ->. apply ser_elems_err in Es. exact Es. }
    destruct Hsub as (w & Hw & Hjw).
    destruct (IH (l :: st) w e) as [->|[Hmsg Hun]];
      [eapply no_toJSON_child; eauto| |exact Hjw|auto|].
    + intros x [<-|Hx].
      * exists o, w. auto.
      * destruct (Hst x Hx) as (ox & wx & Hox & Hwx & Hall). exists ox, wx.
        repeat split; auto. intros l' Hl'. apply Hall. eapply reach_child; eauto.
    + right. split; [exact Hmsg|]. eapply unserializable_child; eauto.
Qed.

(** [JSON.stringify] of a new object without [toJSON] methods fails
    exactly when one of its values is unserializable, and then with a
    [TypeError]. *)
Lemma JSON_stringify_new_fails h ps :
  has_toJSON ps = false -> (forall v, In v (map snd ps) -> no_toJSON h v) ->
  (forall e, JSON_stringify_new h ps = Err e ->
     (exists msg, e = TypeError msg) /\
     exists v, In v (map snd ps) /\ unserializable h v) /\
  ((exists v, In v (map snd ps) /\ unserializable h v) ->
   exists msg, JSON_stringify_new h ps = Err (TypeError msg)).
Proof.
  intros Htj Hno.
  assert (Hfwd : forall e, JSON_stringify_new h ps = Err e ->
     (exists msg, e = TypeError msg) /\ exists v, In v (map snd ps) /\ unserializable h v).
  { intros e He. pose proof (JSON_stringify_new_fuel h ps) as Hfuel.
    unfold JSON_stringify_new in He, Hfuel. rewrite (ser_object_plain _ _ Htj) in He, Hfuel.
    destruct (ser_props _ ps) as [kvs|e'] eqn:Es; [discriminate|]. cbn [rbind] in He.
    injection He as ->. destruct (ser_props_err _ _ _ Es) as (v & Hv & Hj).
    destruct (to_json_err _ _ _ _ _ (Hno v Hv) (fun x (Hx : In x []) => match Hx with end) Hj)
      as [->|[Hmsg Hun]].
    - exfalso. apply Hfuel. reflexivity.
    - split; [exact Hmsg|eauto]. }
  split; [exact Hfwd|]. intros (v & Hv & Hun).
  destruct (JSON_stringify_new h ps) as [text|e] eqn:Et.
  - exfalso. unfold JSON_stringify_new in Et. rewrite (ser_object_plain _ _ Htj) in Et.
    destruct (ser_props _ ps) as [kvs|e'] eqn:Es; [|discriminate].
    destruct (ser_props_ok_all _ _ _ Es v Hv) as [oj Hj].
    exact (to_json_ok_serializable _ _ _ _ _ Hj Hun).
  - destruct (Hfwd e eq_refl) as [[msg ->] _]. eauto.
Qed.

Lemma has_toJSON_rest_of ps : has_toJSON (rest_of ps) = has_toJSON ps.
Proof. unfold has_toJSON. rewrite assoc_rest_of by reflexivity. reflexivity. Qed.

(** What a record without [toJSON] methods hands to [JSON.stringify]. *)
Lemma no_toJSON_record h r ps :
  h !! r = Some (OObj ps) -> no_toJSON h (VRef r) ->
  has_toJSON (rest_of ps) = false /\ forall v, In v (map snd (rest_of ps)) -> no_toJSON h v.
Proof.
  intros Hr Hno. split.
  - rewrite has_toJSON_rest_of. eapply Hno; [apply reach_here|exact Hr].
  - intros v Hv. eapply no_toJSON_child; [exact Hr| |exact Hno]. simpl.
    apply in_map_iff in Hv. destruct Hv as ([k w] & <- & Hin).
    apply in_map_iff. exists (k, w). split; [reflexivity|].
    unfold rest_of in Hin. apply filter_In in Hin. tauto.
Qed.

Lemma In_rest_of k v ps : In (k, v) (rest_of ps) <-> In (k, v) ps /\ is_core k = false.
Proof.
  unfold rest_of. rewrite filter_In. simpl. rewrite negb_true_iff. reflexivity.
Qed.

Lemma rest_values ps v :
  In v (map snd (rest_of ps)) <-> exists k, In (k, v) ps /\ is_core k = false.
Proof.
  rewrite in_map_iff. split.
  - intros ([k w] & <- & Hin). apply In_rest_of in Hin. eauto.
  - intros (k & Hin). exists (k, v). split; [reflexivity|]. apply In_rest_of. exact Hin.
Qed.

(** A store without [toJSON] methods. *)
Lemma no_toJSON_all h v :
  forallb (fun o => match o with OObj ps => negb (has_toJSON ps) | OArr _ => true end) h = true ->
  no_toJSON h v.
Proof.
  intros Hall l ps _ Hl. rewrite forallb_forall in Hall.
  apply list_elem_of_lookup_2, list_elem_of_In in Hl. specialize (Hall _ Hl). simpl in Hall.
  apply negb_true_iff. exact Hall.
Qed.

(** X6: a payload that does not serialize makes the log call throw.
    When no object that the record leads to has a [toJSON] method and
    a field of the record, the core fields apart, is a BigInt or leads
    to an object that holds a BigInt or leads back to itself, the
    interceptor fails with a [TypeError], whatever the rules, and
    bunyan's [_emit] is not run. *)
Theorem unserializable_payload_throws (redactConfig : option ExtendedRedactOptions)
    (redact : redactor) (h : heap) (r : loc) (ps : list (string * val)) (k : string) (v : val) :
  h !! r = Some (OObj ps) -> no_toJSON h (VRef r) ->
  In (k, v) ps -> is_core k = false -> unserializable h v ->
  exists msg, forall target : emitter,
    emit_apply target redact redactConfig h (VRef r) = Err (TypeError msg).
Proof.
  intros Hr Hno Hin Hk Hun.
  destruct (no_toJSON_record _ _ _ Hr Hno) as [Htj Hvals].
  destruct (JSON_stringify_new_fails h (rest_of ps) Htj Hvals) as [_ Hfail].
  destruct Hfail as [msg Hmsg].
  { exists v. split; [|exact Hun]. apply rest_values. eauto. }
  exists msg. intros target. unfold emit_apply, redact_record, copy_payload.
  cbn [nullish]. unfold own_props. rewrite Hr, Hmsg. reflexivity.
Qed.

Lemma unserializable_payload_throws_witness :
  exists msg, forall target : emitter,
    emit_apply target Samples.sample_redact (Some Samples.rules) Samples.cyclic_store (VRef 1)
    = Err (TypeError msg).
Proof.
  apply (unserializable_payload_throws (Some Samples.rules) Samples.sample_redact
           Samples.cyclic_store 1 _ "user" (VRef 0) eq_refl).
  - apply no_toJSON_all. reflexivity.
  - simpl. auto.
  - reflexivity.
  - right. exists 0%nat, (OObj [("self", VRef 0)]), (VRef 0).
    split; [apply reach_here|]. split; [reflexivity|]. split; [left; reflexivity|].
    right. apply reach_here.
Defined.

Lemma model_redact_ref o r h l :
  Model.fastRedact o = Ok r -> serialize o = Some (SerializeBool false) ->
  exists h3, r h (VRef l) = Ok (h3, VRef l).
Proof.
  unfold Model.fastRedact. destruct (_ && _); [discriminate|]. intros [= <-] Hs.
  unfold Model.redact, Model.finish. rewrite Hs.
  destruct (paths o); cbn [Model.primitive]; eauto.
Qed.

Lemma alloc_object_ref kvs h : exists l, (alloc (JObj kvs) h).2 = VRef l.
Proof.
  rewrite alloc_members_eq. destruct (alloc_members kvs h) as [h1 ps]. simpl. eauto.
Qed.

Lemma interceptor_fails_within (redactConfig : option ExtendedRedactOptions)
    (redact : redactor) (h : heap) (r : loc) (ps : list (string * val)) :
  Model.fastRedact (redact_options redactConfig) = Ok redact ->
  no_globalReplace redactConfig -> store_ok h = true -> h !! r = Some (OObj ps) ->
  no_toJSON h (VRef r) ->
  (exists h', redact_record redact redactConfig h (VRef r) = Ok h') <->
  (forall k v, In (k, v) ps -> is_core k = false -> ~ unserializable h v).
Proof.
  intros Hc Hng Hok Hr Hno. destruct (no_toJSON_record _ _ _ Hr Hno) as [Htj Hvals]. split.
  - intros [h' Hrun] k v Hin Hk Hun.
    destruct (JSON_stringify_new_fails h (rest_of ps) Htj Hvals) as [_ Hfail].
    destruct Hfail as [msg Hmsg].
    { exists v. split; [|exact Hun]. apply rest_values. eauto. }
    unfold redact_record, copy_payload in Hrun. cbn [nullish] in Hrun.
    unfold own_props in Hrun. rewrite Hr, Hmsg in Hrun. discriminate.
  - intros Hall.
    destruct (ser_props (to_json (S (length h)) h []) (rest_of ps)) as [kvs|e] eqn:Hs.
    + rewrite (redact_record_steps _ _ Hc _ _ _ Hr).
      unfold spec_payload, JSON_stringify_new. rewrite (ser_object_plain _ _ Htj), Hs.
      cbn [rbind].
      rewrite (no_globalReplace_of _ Hng). unfold JSON_parse.
      rewrite parse_print
        by (eapply ser_props_unique; [exact Hok|eapply record_keys_distinct; eauto|exact Hs]).
      cbn [rbind]. destruct (alloc (JObj kvs) h) as [h2 parsed] eqn:Ha.
      destruct (alloc_object_ref kvs h) as [l Hl]. rewrite Ha in Hl. simpl in Hl. subst parsed.
      destruct (model_redact_ref _ _ h2 l Hc (redact_options_serialize _)) as [h3 ->].
      cbn [rbind]. eauto.
    + exfalso. destruct (JSON_stringify_new_fails h (rest_of ps) Htj Hvals) as [Hfwd _].
      destruct (Hfwd e) as [_ (v & Hv & Hun)].
      { unfold JSON_stringify_new. rewrite (ser_object_plain _ _ Htj), Hs. reflexivity. }
      apply rest_values in Hv. destruct Hv as (k & Hin & Hk). exact (Hall k v Hin Hk Hun).
Qed.

(** X7: with the model of the library, no [globalReplace], rules whose
    paths stay within own properties and a record that leads to no
    [toJSON] method, the interceptor fails on an unserializable payload
    only: it returns the redacted record exactly when no field of the
    record, the core fields apart, is a BigInt or leads to a BigInt or
    to a cycle. *)
Theorem interceptor_fails_on_unserializable_only (R : Model.realm)
    (redactConfig : option ExtendedRedactOptions)
    (redact : redactor) (h : heap) (r : loc) (ps : list (string * val)) :
  Model.fastRedact_in R (redact_options redactConfig) = Ok redact ->
  realm_in R h = true -> plain_paths R h (redact_options redactConfig) = true ->
  no_globalReplace redactConfig -> store_ok h = true -> h !! r = Some (OObj ps) ->
  no_toJSON h (VRef r) ->
  (exists h', redact_record redact redactConfig h (VRef r) = Ok h') <->
  (forall k v, In (k, v) ps -> is_core k = false -> ~ unserializable h v).
Proof.
  intros Hc Hin Hps Hng Hok Hr Hno.
  destruct (within_own R redactConfig redact h (VRef r) Hc Hin Hps) as [Hown E].
  rewrite E. exact (interceptor_fails_within _ _ _ _ _ Hown Hng Hok Hr Hno).
Qed.

Lemma interceptor_fails_on_unserializable_only_witness :
  (exists h',
     redact_record (Model.redact_in Samples.sample_realm (redact_options (Some Samples.rules)))
       (Some Samples.rules) Samples.realm_store (VRef Samples.record) = Ok h') <->
  (forall k v, In (k, v) (own_props Samples.realm_store (VRef Samples.record)) ->
               is_core k = false -> ~ unserializable Samples.realm_store v).
Proof.
  apply (interceptor_fails_on_unserializable_only Samples.sample_realm (Some Samples.rules) _
           Samples.realm_store Samples.record _ realm_compiled eq_refl eq_refl eq_refl eq_refl
           eq_refl).
  intros l ps Hreach Hl.
  assert (Hlt : (l < 3)%nat).
  { clear Hl. remember (VRef Samples.record) as v eqn:Ev.
    induction Hreach as [l|v l l' o Hreach IH Ho Hin].
    - injection Ev as ->. unfold Samples.record. lia.
    - specialize (IH Ev).
      destruct l as [|[|[|l]]]; [| | |lia]; injection Ho as <-; simpl in Hin;
        repeat (destruct Hin as [Hin|Hin]; [try discriminate Hin; injection Hin as <-; lia|]);
        destruct Hin. }
  destruct l as [|[|[|l]]]; [| | |lia]; injection Hl as <-; reflexivity.
Defined.

(** X1: with the model of the library, [createLogger] throws whenever
    the redaction options ask for [remove]: the factory always passes
    [serialize: false], and the library accepts [remove] with its
    default serializer only. When bunyan accepts the name, the streams
    and their level, [createLogger] throws exactly then. *)
Theorem createLogger_rejects_remove (env : environment) (stdSerializers_err : serializer)
    (Logger_createLogger : string -> list Stream -> Serializers -> result emitter)
    (level : option LogLevel) (redactConfig : option ExtendedRedactOptions) :
  (asks_remove redactConfig = true ->
   is_ok (createLogger (H := model_library) env stdSerializers_err Logger_createLogger level
            redactConfig) = false) /\
  ((forall n s z, is_ok (Logger_createLogger n s z) = true) ->
   is_ok (createLogger (H := model_library) env stdSerializers_err Logger_createLogger level
            redactConfig) = negb (asks_remove redactConfig) /\
   (asks_remove redactConfig = true ->
    createLogger (H := model_library) env stdSerializers_err Logger_createLogger level
      redactConfig = Err RedactError)).
Proof.
  assert (Hc : fastRedact (Library := model_library) (redact_options redactConfig)
               = if asks_remove redactConfig then Err RedactError
                 else Ok (Model.redact (redact_options redactConfig))).
  { cbn [fastRedact model_library]. unfold Model.fastRedact, Model.uses_JSON_stringify.
    rewrite redact_options_serialize. unfold asks_remove.
    destruct redactConfig as [c|]; [|reflexivity].
    cbn [redact_options remove]. destruct (default false (remove c)); reflexivity. }
  unfold createLogger.
  destruct (match getGoogleServiceName env with
            | Some googleServiceName =>
                if String.eqb googleServiceName "" then
                  ("default", [PrettyStdoutStream "short" (logLevel_of level env)])
                else (googleServiceName, [LoggingBunyanStream true false (logLevel_of level env)])
            | None => ("default", [PrettyStdoutStream "short" (logLevel_of level env)])
            end) as [n ss].
  rewrite Hc. split.
  - intros ->. destruct (Logger_createLogger n ss _); reflexivity.
  - intros Hb. specialize (Hb n ss (createDetailedRequestSerializers stdSerializers_err)).
    destruct (Logger_createLogger n ss _) as [bunyan_emit|e]; [|discriminate Hb].
    cbn [rbind]. destruct (asks_remove redactConfig); split; try reflexivity; discriminate.
Qed.

Lemma createLogger_rejects_remove_witness :
  createLogger (H := model_library) Samples.no_env Samples.plain_err Samples.bunyan None
    (Some Samples.removing) = Err RedactError.
Proof.
  destruct (createLogger_rejects_remove Samples.no_env Samples.plain_err Samples.bunyan None
              (Some Samples.removing)) as [_ Hexact].
  apply Hexact; reflexivity.
Defined.

End FailureFacts.

(** ** Fields that no rule names *)

Module UnnamedFieldFacts.
Import Json Js JsonFacts ObjectFacts StoreFacts FastRedact ModelFacts Logging Vocabulary Shapes.
Import SerializerFacts MiddlewareFacts InterceptorFacts CopyFacts FailureFacts.
Local Open Scope string_scope.
Local Open Scope list_scope.

(** *** Where a built tree lives *)

(** What is reachable from a value built between [lo] and [hi] lies there. *)
Lemma reach_region (h new more : list object) v l :
  in_range (length h) (length (h ++ new)) v ->
  fresh_objects (length h) (length (h ++ new)) new ->
  reach (h ++ new ++ more) v l -> (length h <= l < length (h ++ new))%nat.
Proof.
  intros Hv Hnew Hr. induction Hr as [l|v l l' o Hr IH Ho Hin].
  - simpl in Hv. lia.
  - specialize (IH Hv). rewrite app_assoc in Ho.
    rewrite lookup_app_l in Ho by lia. rewrite lookup_app_r in Ho by lia.
    unfold fresh_objects in Hnew. rewrite Forall_forall in Hnew.
    apply list_elem_of_lookup_2 in Ho.
    specialize (Hnew _ Ho). rewrite Forall_forall in Hnew.
    apply list_elem_of_In in Hin.
    specialize (Hnew _ Hin). simpl in Hnew. lia.
Qed.

Lemma alloc_region j h more l :
  reach ((alloc j h).1 ++ more) (alloc j h).2 l ->
  (length h <= l < length (alloc j h).1)%nat.
Proof.
  destruct (alloc j h) as [h' v] eqn:Ha. simpl.
  destruct (alloc_fresh j _ _ _ Ha) as (new & -> & Hv & Hnew).
  rewrite <- app_assoc. apply reach_region; assumption.
Qed.

Lemma alloc_length j h : (length h <= length (alloc j h).1)%nat.
Proof. destruct (alloc_extends_fst j h) as [new ->]. rewrite length_app. lia. Qed.

Lemma alloc_members_items members h :
  (alloc_members members h).1 = (alloc_items (map snd members) h).1 /\
  map snd (alloc_members members h).2 = (alloc_items (map snd members) h).2 /\
  map fst (alloc_members members h).2 = map fst members.
Proof.
  revert h. induction members as [|[k x] members IH]; intros h; simpl; [auto|].
  destruct (alloc x h) as [h1 v]. specialize (IH h1).
  destruct (alloc_members members h1) as [h2 ps].
  destruct (alloc_items (map snd members) h1) as [h2' vs]. simpl in *.
  destruct IH as (-> & -> & ->). auto.
Qed.

(** Each element of a built array is a tree built in the store. *)
Lemma alloc_items_nth items :
  forall h i v,
    (alloc_items items h).2 !! i = Some v ->
    exists j h0 more,
      items !! i = Some j /\ v = (alloc j h0).2 /\
      (alloc_items items h).1 = (alloc j h0).1 ++ more /\ (length h <= length h0)%nat.
Proof.
  induction items as [|x items IH]; intros h i v Hv; [destruct i; discriminate|].
  simpl in *. destruct (alloc x h) as [h1 v0] eqn:E1.
  destruct (alloc_items items h1) as [h2 vs] eqn:E2. simpl in *.
  destruct i as [|i]; simpl in Hv.
  - injection Hv as <-. exists x, h.
    destruct (alloc_items_extends items h1) as [new Hnew]. rewrite E2 in Hnew. simpl in Hnew.
    exists new. rewrite E1. simpl. auto.
  - specialize (IH h1 i v). rewrite E2 in IH. simpl in IH.
    destruct (IH Hv) as (j & h0 & more & Hj & -> & -> & Hle).
    exists j, h0, more. repeat split; auto.
    pose proof (alloc_length x h) as Hl. rewrite E1 in Hl. simpl in Hl. lia.
Qed.

Lemma alloc_items_region items h more i v l :
  (alloc_items items h).2 !! i = Some v ->
  reach ((alloc_items items h).1 ++ more) v l ->
  (length h <= l < length (alloc_items items h).1)%nat.
Proof.
  intros Hv Hr. destruct (alloc_items_nth _ _ _ _ Hv) as (j & h0 & m & _ & -> & Hh & Hle).
  rewrite Hh in *. rewrite <- app_assoc in Hr. apply alloc_region in Hr.
  rewrite length_app. lia.
Qed.

(** Different elements of a built array share no object. *)
Lemma alloc_items_apart items :
  forall h more i i' v v' l,
    (alloc_items items h).2 !! i = Some v ->
    (alloc_items items h).2 !! i' = Some v' -> i <> i' ->
    reach ((alloc_items items h).1 ++ more) v l ->
    reach ((alloc_items items h).1 ++ more) v' l -> False.
Proof.
  induction items as [|x items IH]; intros h more i i' v v' l Hv Hv' Hne Hr Hr';
    [destruct i; discriminate|].
  simpl in *. destruct (alloc x h) as [h1 v0] eqn:E1.
  destruct (alloc_items items h1) as [h2 vs] eqn:E2. simpl in *.
  destruct (alloc_items_extends items h1) as [new Hnew]. rewrite E2 in Hnew. simpl in Hnew.
  assert (Hfirst : forall w, reach (h2 ++ more) v0 w -> (w < length h1)%nat).
  { intros w Hw. subst h2. rewrite <- app_assoc in Hw.
    pose proof (alloc_region x h (new ++ more) w) as Hreg. rewrite E1 in Hreg. simpl in Hreg.
    apply Hreg in Hw. lia. }
  assert (Hlater : forall n w u, vs !! n = Some w -> reach (h2 ++ more) w u ->
                                 (length h1 <= u)%nat).
  { intros n w u Hn Hu. pose proof (alloc_items_region items h1 more n w u) as Hreg.
    rewrite E2 in Hreg. simpl in Hreg. specialize (Hreg Hn Hu). lia. }
  destruct i as [|i], i' as [|i']; simpl in Hv, Hv'; try congruence.
  - injection Hv as <-. specialize (Hfirst _ Hr). specialize (Hlater _ _ _ Hv' Hr'). lia.
  - injection Hv' as <-. specialize (Hfirst _ Hr'). specialize (Hlater _ _ _ Hv Hr). lia.
  - specialize (IH h1 more i i' v v' l). rewrite E2 in IH. simpl in IH.
    apply IH; auto.
Qed.

(** *** Lists of properties *)

Lemma assoc_nth {A} k (ps : list (string * A)) v :
  assoc k ps = Some v -> exists i, ps !! i = Some (k, v).
Proof.
  induction ps as [|[k' v'] ps IH]; simpl; [discriminate|].
  destruct (String.eqb k' k) eqn:E.
  - apply String.eqb_eq in E. subst k'. intros [= ->]. exists 0%nat. reflexivity.
  - intros Hv. destruct (IH Hv) as [i Hi]. exists (S i). exact Hi.
Qed.

Lemma ser_props_assoc f ps kvs k j :
  distinct (map fst ps) = true -> ser_props f ps = Ok kvs -> assoc k kvs = Some j ->
  exists v, assoc k ps = Some v /\ f v = Ok (Some j).
Proof.
  revert kvs. induction ps as [|[k' v'] ps IH]; intros kvs Hd Hs Hk; simpl in Hs.
  - injection Hs as <-. discriminate.
  - simpl in Hd. apply andb_true_iff in Hd. destruct Hd as [Hfresh Hd].
    destruct (f v') as [oj|e] eqn:Ef; [|discriminate]. cbn [rbind] in Hs.
    destruct (ser_props f ps) as [rest|e] eqn:Er; [|discriminate]. cbn [rbind] in Hs.
    injection Hs as <-. destruct (ser_props_keys _ _ _ Er) as (Hsub & _ & _). simpl.
    destruct (String.eqb k' k) eqn:E.
    + apply String.eqb_eq in E. subst k'. destruct oj as [j'|].
      * simpl in Hk. rewrite String.eqb_refl in Hk. injection Hk as ->. eauto.
      * exfalso. assert (Hr : has_key k rest = true) by (apply has_key_assoc; eauto).
        apply Hsub in Hr. apply negb_true_iff in Hfresh. unfold has_key in Hr. congruence.
    + apply (IH rest Hd eq_refl). destruct oj as [j'|]; [|exact Hk].
      simpl in Hk. rewrite E in Hk. exact Hk.
Qed.

Lemma ser_props_assoc_none f ps kvs k v :
  distinct (map fst ps) = true -> ser_props f ps = Ok kvs ->
  assoc k ps = Some v -> has_key k kvs = false -> f v = Ok None.
Proof.
  revert kvs. induction ps as [|[k' v'] ps IH]; intros kvs Hd Hs Hk Hno; [discriminate|].
  simpl in Hd, Hs, Hk. apply andb_true_iff in Hd. destruct Hd as [_ Hd].
  destruct (f v') as [oj|e] eqn:Ef; [|discriminate]. cbn [rbind] in Hs.
  destruct (ser_props f ps) as [rest|e] eqn:Er; [|discriminate]. cbn [rbind] in Hs.
  injection Hs as <-. destruct (String.eqb k' k) eqn:E.
  - injection Hk as <-. destruct oj as [j|]; [|exact Ef].
    unfold has_key in Hno. simpl in Hno. rewrite String.eqb_sym, E in Hno. discriminate.
  - apply (IH rest Hd eq_refl Hk). destruct oj as [j|]; [|exact Hno].
    unfold has_key in *. simpl in Hno. apply orb_false_iff in Hno. tauto.
Qed.

Lemma assoc_assign_props_in k x target source :
  distinct (map fst source) = true -> assoc k source = Some x ->
  assoc k (assign_props target source) = Some x.
Proof.
  unfold assign_props. revert target.
  induction source as [|[k' v'] source IH]; intros target Hd Hk; [discriminate|].
  simpl in *. apply andb_true_iff in Hd. destruct Hd as [Hfresh Hd].
  destruct (String.eqb k' k) eqn:E.
  - apply String.eqb_eq in E. subst k'. injection Hk as ->.
    apply negb_true_iff in Hfresh.
    pose proof (assoc_assign_props_other k (set_member k x target) source Hfresh) as Ho.
    unfold assign_props in Ho. rewrite Ho. apply assoc_set_member_eq.
  - apply IH; assumption.
Qed.

(** *** The stack matters only for what the value leads to *)

Lemma to_json_stack h n :
  forall st st' v, (forall x, reach h v x -> mem x st = mem x st') ->
  to_json n h st v = to_json n h st' v.
Proof.
  induction n as [|n IH]; intros st st' v Hm; destruct v; try reflexivity.
  - simpl. rewrite (Hm l (reach_here h l)). reflexivity.
  - rewrite !to_json_ref, (Hm l (reach_here h l)). destruct (mem l st'); [reflexivity|].
    destruct (h !! l) as [[ps|es]|] eqn:E; [| |reflexivity].
    + rewrite (ser_object_ext _ (to_json n h (l :: st'))); [reflexivity|].
      intros w Hw. apply IH. intros x Hx. unfold mem in *. simpl.
      rewrite Hm; [reflexivity|]. eapply reach_child; eauto.
    + rewrite (ser_elems_ext _ (to_json n h (l :: st'))); [reflexivity|].
      intros w Hw. apply IH. intros x Hx. unfold mem in *. simpl.
      rewrite Hm; [reflexivity|]. eapply reach_child; eauto.
Qed.

Lemma view_not_ref h v : (forall l, v <> VRef l) -> forall h', view h' v = view h v.
Proof. intros Hv h'. destruct v; try reflexivity. exfalso. eapply Hv. reflexivity. Qed.

Lemma view_none_not_ref h r ps k v :
  store_ok h = true -> h !! r = Some (OObj ps) -> assoc k ps = Some v ->
  view h v = Ok None -> forall l, v <> VRef l.
Proof.
  intros Hok Hr Hk Hv l ->. unfold view in Hv. rewrite to_json_ref in Hv. simpl in Hv.
  pose proof (store_ok_lookup _ _ _ Hok Hr) as Ho. simpl in Ho.
  apply andb_true_iff in Ho. destruct Ho as [_ Hin]. rewrite forallb_forall in Hin.
  specialize (Hin _ (assoc_In _ _ _ Hk)). simpl in Hin. apply Nat.ltb_lt in Hin.
  destruct (h !! l) as [[ps'|es]|] eqn:E.
  - destruct (ser_object _ ps'); discriminate.
  - destruct (ser_elems _ es); discriminate.
  - apply lookup_ge_None in E. lia.
Qed.

(** *** Fields that no path names *)

Section untouched.
Variable cens : val -> atom.
Variable kvs : list (string * json).
Variables (h h1 : list object) (ps2 : list (string * val)).
Hypothesis built : alloc_members kvs h = (h1, ps2).
Variable k : string.

Lemma members_values : map snd ps2 = (alloc_items (map snd kvs) h).2.
Proof. pose proof (alloc_members_items kvs h) as H. rewrite built in H. apply H. Qed.

Lemma members_store : h1 = (alloc_items (map snd kvs) h).1.
Proof. pose proof (alloc_members_items kvs h) as H. rewrite built in H. apply H. Qed.

Lemma member_value k' v :
  assoc k' ps2 = Some v ->
  exists i, ps2 !! i = Some (k', v) /\ (alloc_items (map snd kvs) h).2 !! i = Some v.
Proof.
  intros Hv. destruct (assoc_nth _ _ _ Hv) as [i Hi]. exists i. split; [exact Hi|].
  rewrite <- members_values, list_lookup_fmap, Hi. reflexivity.
Qed.

Lemma member_below k' v x :
  assoc k' ps2 = Some v -> reach (h1 ++ [OObj ps2]) v x -> (length h <= x < length h1)%nat.
Proof.
  intros Hv Hr. destruct (member_value _ _ Hv) as (i & _ & Hi).
  rewrite members_store in *. eapply alloc_items_region; eauto.
Qed.

Lemma members_apart k1 k2 v1 v2 x :
  assoc k1 ps2 = Some v1 -> assoc k2 ps2 = Some v2 -> k1 <> k2 ->
  reach (h1 ++ [OObj ps2]) v1 x -> reach (h1 ++ [OObj ps2]) v2 x -> False.
Proof.
  intros H1 H2 Hne Hr1 Hr2.
  destruct (member_value _ _ H1) as (i1 & Hp1 & Hi1).
  destruct (member_value _ _ H2) as (i2 & Hp2 & Hi2).
  rewrite members_store in *.
  eapply (alloc_items_apart _ _ _ i1 i2); eauto. intros ->. congruence.
Qed.

Lemma spared_step q H :
  head q <> Some k ->
  spared (h1 ++ [OObj ps2]) H (length h1) ps2 k ->
  spared (h1 ++ [OObj ps2]) (Model.redact_path cens H (VRef (length h1)) q) (length h1) ps2 k.
Proof.
  intros Hq (Hfew & (psH & HpsH & Hrefs & Hk) & Hkeep).
  assert (Hid : spared (h1 ++ [OObj ps2]) H (length h1) ps2 k)
    by (split; [exact Hfew|split; [eauto|exact Hkeep]]).
  destruct q as [|k' q]; [exact Hid|].
  assert (Hne : k' <> k) by (intros ->; apply Hq; reflexivity).
  assert (Hget : get H (VRef (length h1)) k' = Ok (default VUndefined (assoc k' psH)))
    by (simpl; rewrite HpsH; reflexivity).
  destruct q as [|k'' q].
  - cbn [Model.redact_path]. rewrite Hget.
    destruct (nullish (default VUndefined (assoc k' psH))); [exact Hid|].
    set (a := cens _).
    destruct (set_existing_spec H (VRef (length h1)) k' a) as (Hf & Hs & _).
    split; [eapply fewer_refs_trans; eauto|]. split.
    + unfold Model.set_existing. rewrite HpsH.
      destruct (has_key k' psH); [|eauto].
      rewrite list_lookup_insert_eq by (eapply lookup_lt_Some; eauto).
      eexists. split; [reflexivity|]. split.
      * intros k0 y Hy. destruct (String.eqb k' k0) eqn:E.
        -- apply String.eqb_eq in E. subst k0. rewrite assoc_set_member_eq in Hy.
           injection Hy as Hy. exfalso. eapply of_atom_not_ref; eauto.
        -- apply String.eqb_neq in E. rewrite assoc_set_member_ne in Hy by exact E. auto.
      * rewrite assoc_set_member_ne by exact Hne. exact Hk.
    + intros v x Hv Hr. rewrite Hf; [eauto|]. intros [= <-].
      pose proof (member_below _ _ _ Hv Hr). lia.
  - change (Model.redact_path cens H (VRef (length h1)) (k' :: k'' :: q))
      with (match get H (VRef (length h1)) k' with
            | Ok next => if truthy next then Model.redact_path cens H next (k'' :: q) else H
            | Err _ => H
            end).
    rewrite Hget. destruct (truthy (default VUndefined (assoc k' psH))); [|exact Hid].
    destruct (redact_path_spec cens (k'' :: q) H (default VUndefined (assoc k' psH)))
      as (Hf & Hs & _).
    assert (Hnext : forall x, reach H (default VUndefined (assoc k' psH)) x ->
                      exists y, assoc k' ps2 = Some (VRef y) /\
                                reach (h1 ++ [OObj ps2]) (VRef y) x).
    { intros x Hx. destruct (reach_is_ref _ _ _ Hx) as [y Hy].
      destruct (assoc k' psH) as [w|] eqn:Ew; [|discriminate]. simpl in Hy, Hx. subst w.
      exists y. split; [auto|]. eapply reach_fewer_refs; eauto. }
    split; [eapply fewer_refs_trans; eauto|]. split.
    + exists psH. rewrite Hf; [auto|]. intros Hx.
      destruct (Hnext _ Hx) as (y & Hy & Hr).
      pose proof (member_below _ _ _ Hy Hr). lia.
    + intros v x Hv Hr. rewrite Hf; [eauto|]. intros Hx.
      destruct (Hnext _ Hx) as (y & Hy & Hr'). exact (members_apart _ _ _ _ _ Hy Hv Hne Hr' Hr).
Qed.

Lemma spared_fold qs :
  forall H,
    (forall q, In q qs -> head q <> Some k) ->
    spared (h1 ++ [OObj ps2]) H (length h1) ps2 k ->
    spared (h1 ++ [OObj ps2])
      (fold_left (fun h' p => Model.redact_path cens h' (VRef (length h1)) p) qs H)
      (length h1) ps2 k.
Proof.
  induction qs as [|q qs IH]; intros H Hqs Hs; [exact Hs|]. simpl. apply IH.
  - intros q' Hq'. apply Hqs. right. exact Hq'.
  - apply spared_step; [apply Hqs; left; reflexivity|exact Hs].
Qed.

Lemma spared_start : spared (h1 ++ [OObj ps2]) (h1 ++ [OObj ps2]) (length h1) ps2 k.
Proof.
  split; [apply fewer_refs_refl|]. split; [|reflexivity].
  exists ps2. rewrite list_lookup_middle by reflexivity. auto.
Qed.
End untouched.

Lemma model_redact_fold o h l :
  serialize o = Some (SerializeBool false) ->
  Model.redact o h (VRef l)
  = Ok (fold_left (fun h' p => Model.redact_path (Model.censor_fn o) h' (VRef l) p) (paths o) h,
        VRef l).
Proof.
  intros Hs. unfold Model.redact, Model.finish. rewrite Hs.
  destruct (paths o); reflexivity.
Qed.

Lemma model_compiled o r : Model.fastRedact o = Ok r -> r = Model.redact o.
Proof. unfold Model.fastRedact. destruct (_ && _); congruence. Qed.

Lemma view_fuel h v : view h v <> Err OutOfFuel.
Proof. unfold view. apply to_json_fuel; [constructor|intros l []|simpl; lia]. Qed.

Lemma unnamed_fields_within (redactConfig : option ExtendedRedactOptions)
    (redact : redactor) (h : heap) (r : loc) (ps : list (string * val)) (h' : heap)
    (k : string) :
  Model.fastRedact (redact_options redactConfig) = Ok redact ->
  no_globalReplace redactConfig -> store_ok h = true -> h !! r = Some (OObj ps) ->
  redact_record redact redactConfig h (VRef r) = Ok h' ->
  is_core k = false ->
  (forall q, In q (paths (redact_options redactConfig)) -> head q <> Some k) ->
  view h' (read h' (VRef r) k) = view h (read h (VRef r) k).
Proof.
  intros Hc Hng Hok Hr Hrun Hcore Hqs.
  destruct (redact_record_plain _ _ Hc Hng _ _ _ _ Hok Hr Hrun)
    as (kvs & h3 & Hs & Hred & Hkeys & Hf & ->).
  pose proof (record_keys_distinct _ _ _ Hok Hr) as Hd.
  apply ser_object_ok in Hs. destruct Hs as [_ Hs].
  destruct (ser_props_keys _ _ _ Hs) as (_ & Hdk & _). specialize (Hdk Hd).
  pose proof (view_alloc (JObj kvs) h) as Hview.
  rewrite alloc_members_eq in Hred, Hkeys, Hview |- *.
  destruct (alloc_members kvs h) as [h1 ps2] eqn:Hbuilt. unfold alloc_object in *.
  cbn [fst snd] in *.
  rewrite (model_compiled _ _ Hc), model_redact_fold in Hred
    by apply redact_options_serialize.
  injection Hred as Hh3.
  pose proof (spared_fold (Model.censor_fn (redact_options redactConfig)) kvs h h1 ps2 Hbuilt
                k _ _ Hqs (spared_start h1 ps2 k)) as Hsp.
  rewrite Hh3 in Hsp. destruct Hsp as (Hfew & (ps3 & H3c & _ & Hk3) & Hkeep).
  assert (Hown : own_props h3 (VRef (length h1)) = ps3) by (unfold own_props; rewrite H3c; reflexivity).
  rewrite Hown in *.
  assert (Hlt : (r < length h)%nat) by (eapply lookup_lt_Some; eauto).
  assert (Hlt3 : (r < length h3)%nat).
  { eapply lookup_lt_Some. rewrite Hf; eauto. }
  assert (Hkeys2 : map fst ps2 = map fst kvs).
  { pose proof (alloc_members_items kvs h) as Hi. rewrite Hbuilt in Hi. apply Hi. }
  unfold read. cbn [get]. rewrite list_lookup_insert_eq by exact Hlt3. rewrite Hr.
  destruct (has_key k kvs) eqn:Hkk.
  - apply has_key_assoc in Hkk. destruct Hkk as [j Hj].
    destruct (ser_props_assoc _ _ _ _ _ Hd Hs Hj) as (v & Hv & Hjv).
    rewrite assoc_rest_of in Hv by exact Hcore. rewrite Hv. cbn [default from_option id].
    change (view h v = Ok (Some j)) in Hjv. rewrite Hjv.
    unfold view in Hview. rewrite to_json_ref in Hview. simpl in Hview.
    rewrite list_lookup_middle in Hview by reflexivity.
    destruct (ser_object (to_json (length (h1 ++ [OObj ps2])) (h1 ++ [OObj ps2]) [length h1]) ps2)
      as [kvs'|e] eqn:Es2; [|discriminate].
    assert (kvs' = kvs) by (cbn [rbind] in Hview; congruence). subst kvs'.
    apply ser_object_ok in Es2. destruct Es2 as [_ Es2].
    assert (Hd2 : distinct (map fst ps2) = true) by (rewrite Hkeys2; exact Hdk).
    destruct (ser_props_assoc _ _ _ _ _ Hd2 Es2 Hj) as (c & Hc2 & Hjc).
    assert (Hc3 : assoc k ps3 = Some c) by congruence.
    assert (Hproto : k = "__proto__" -> has_key "__proto__" ps = true).
    { intros ->. apply has_key_assoc. exists v. exact Hv. }
    rewrite (assoc_assign_props_in k c ps (assignable ps ps3));
      [|apply distinct_filter; rewrite Hkeys; exact Hdk
       |rewrite (assoc_assignable k ps ps3 Hproto); exact Hc3].
    cbn [default from_option id].
    assert (Hbelow : forall x, reach (h1 ++ [OObj ps2]) c x -> (length h <= x < length h1)%nat).
    { intros x Hx. eapply member_below; eauto. }
    eapply to_json_same_fuel; [|discriminate|apply view_fuel].
    rewrite (to_json_frame _ (h1 ++ [OObj ps2])).
    + rewrite <- Hjc. apply to_json_stack. intros x Hx. specialize (Hbelow x Hx).
      unfold mem. simpl. destruct (Nat.eqb_spec x (length h1)); [lia|reflexivity].
    + intros x Hx. specialize (Hbelow x Hx).
      rewrite list_lookup_insert_ne by lia. eapply Hkeep; eauto.
  - assert (Hk3' : has_key k ps3 = false).
    { rewrite (has_key_same_keys k ps3 kvs Hkeys). exact Hkk. }
    rewrite assoc_assigned_other by exact Hk3'.
    destruct (assoc k ps) as [v|] eqn:Hv; [|reflexivity]. cbn [default from_option id].
    apply view_not_ref. eapply view_none_not_ref; eauto.
    eapply ser_props_assoc_none; [exact Hd|exact Hs| |exact Hkk].
    rewrite assoc_rest_of by exact Hcore. exact Hv.
Qed.


(** A field of the payload that serializes has a view. *)
Lemma rest_field_viewed h r ps kvs k :
  store_ok h = true -> h !! r = Some (OObj ps) ->
  ser_props (to_json (S (length h)) h []) (rest_of ps) = Ok kvs -> is_core k = false ->
  exists oj, view h (read h (VRef r) k) = Ok oj.
Proof.
  intros Hok Hr Hs Hcore. pose proof (record_keys_distinct _ _ _ Hok Hr) as Hd.
  unfold read. cbn [get]. rewrite Hr.
  destruct (assoc k ps) as [v|] eqn:Hv; cbn [default from_option id]; [|eexists; reflexivity].
  destruct (has_key k kvs) eqn:Hkk.
  - apply has_key_assoc in Hkk. destruct Hkk as [j Hj].
    destruct (ser_props_assoc _ _ _ _ _ Hd Hs Hj) as (v' & Hv' & Hjv).
    rewrite assoc_rest_of in Hv' by exact Hcore. assert (v' = v) by congruence. subst v'.
    exists (Some j). exact Hjv.
  - exists None. eapply ser_props_assoc_none; [exact Hd|exact Hs| |exact Hkk].
    rewrite assoc_rest_of by exact Hcore. exact Hv.
Qed.



End UnnamedFieldFacts.

(** ** Parsed trees *)

Module ParseFacts.
Import Json Js JsonFacts ObjectFacts StoreFacts FastRedact ModelFacts Logging Vocabulary Shapes.
Import SerializerFacts MiddlewareFacts InterceptorFacts.
Local Open Scope string_scope.
Local Open Scope list_scope.

(** *** What [JSON.parse] returns has no repeated key *)

Lemma distinct_set_member {A} k (v : A) l :
  distinct (map fst l) = true -> distinct (map fst (set_member k v l)) = true.
Proof.
  induction l as [|[k' v'] l IH]; simpl; [reflexivity|]. intros Hd.
  apply andb_true_iff in Hd. destruct Hd as [Hfresh Hd].
  destruct (String.eqb k' k) eqn:E; simpl.
  - apply String.eqb_eq in E. subst k'. rewrite Hfresh, Hd. reflexivity.
  - rewrite IH by exact Hd. rewrite andb_true_r.
    apply negb_true_iff in Hfresh. apply negb_true_iff.
    pose proof (has_key_set_member k k' v l) as Hk. unfold has_key in Hk.
    rewrite Hk, Hfresh, E. reflexivity.
Qed.

Lemma In_set_member {A} k (v : A) l x :
  In x (map snd (set_member k v l)) -> x = v \/ In x (map snd l).
Proof.
  induction l as [|[k' v'] l IH]; simpl; [intros [H|[]]; auto|].
  destruct (String.eqb k' k); simpl; [intros [H|H]; auto|]. intros [H|H]; [auto|].
  destruct (IH H); auto.
Qed.

Lemma build_members_unique {A} (l : list (string * A)) :
  distinct (map fst (build_members l)) = true /\
  forall x, In x (map snd (build_members l)) -> In x (map snd l).
Proof.
  unfold build_members.
  assert (Hgen : forall acc : list (string * A),
            distinct (map fst acc) = true ->
            distinct (map fst (fold_left (fun acc kv => set_member (fst kv) (snd kv) acc) l acc))
            = true /\
            forall x, In x (map snd (fold_left (fun acc kv => set_member (fst kv) (snd kv) acc)
                                       l acc)) ->
                      In x (map snd acc) \/ In x (map snd l)).
  { induction l as [|[k v] l IH]; intros acc Hd; simpl; [auto|].
    destruct (IH (set_member k v acc) (distinct_set_member k v acc Hd)) as [Hd' Hin].
    split; [exact Hd'|]. intros x Hx. destruct (Hin x Hx) as [H|H]; [|auto].
    apply In_set_member in H. destruct H as [->|H]; auto. }
  destruct (Hgen [] eq_refl) as [Hd Hin]. split; [exact Hd|].
  intros x Hx. destruct (Hin x Hx) as [[]|H]. exact H.
Qed.

Lemma parse_member_unique pv s k j r :
  (forall s j r, pv s = Ok (j, r) -> unique_keys j = true) ->
  parse_member pv s = Ok ((k, j), r) -> unique_keys j = true.
Proof.
  intros Hpv. unfold parse_member.
  destruct (strip_prefix _ (skip_ws s)) as [r0|]; [|discriminate].
  destruct (parse_chars r0) as [[k' r1]|e]; [|discriminate]. cbn [rbind].
  destruct (strip_prefix ":" (skip_ws r1)) as [r2|]; [|discriminate].
  destruct (pv r2) as [[j' r3]|e] eqn:E; [|discriminate]. cbn [rbind].
  intros [= <- <- <-]. eapply Hpv. exact E.
Qed.

Lemma parser_unique n :
  (forall s j r, parse_value n s = Ok (j, r) -> unique_keys j = true) /\
  (forall s js r, parse_elements n s = Ok (js, r) -> forallb unique_keys js = true) /\
  (forall s ms r, parse_members n s = Ok (ms, r) ->
     forallb (fun kv => unique_keys (snd kv)) ms = true).
Proof.
  induction n as [|n (IHv & IHe & IHm)]; [repeat split; discriminate|].
  split; [|split].
  - intros s j r. cbn [parse_value].
    destruct (strip_prefix "null" (skip_ws s)); [intros [= <- <-]; reflexivity|].
    destruct (strip_prefix "true" (skip_ws s)); [intros [= <- <-]; reflexivity|].
    destruct (strip_prefix "false" (skip_ws s)); [intros [= <- <-]; reflexivity|].
    destruct (strip_prefix (String dquote "") (skip_ws s)) as [r0|].
    { destruct (parse_chars r0) as [[str r']|e]; [|discriminate]. intros [= <- <-]. reflexivity. }
    destruct (strip_prefix "[" (skip_ws s)) as [r0|].
    { destruct (strip_prefix "]" (skip_ws r0)); [intros [= <- <-]; reflexivity|].
      destruct (parse_value n r0) as [[j0 r1]|e] eqn:E0; [|discriminate]. cbn [rbind].
      destruct (parse_elements n r1) as [[js r2]|e] eqn:E1; [|discriminate]. cbn [rbind].
      intros [= <- <-]. simpl. rewrite (IHv _ _ _ E0), (IHe _ _ _ E1). reflexivity. }
    destruct (strip_prefix "{" (skip_ws s)) as [r0|].
    { destruct (strip_prefix "}" (skip_ws r0)); [intros [= <- <-]; reflexivity|].
      destruct (parse_member (parse_value n) r0) as [[[k0 j0] r1]|e] eqn:E0; [|discriminate].
      cbn [rbind].
      destruct (parse_members n r1) as [[ms r2]|e] eqn:E1; [|discriminate]. cbn [rbind].
      intros [= <- <-]. cbn [unique_keys].
      destruct (build_members_unique ((k0, j0) :: ms)) as [Hd Hin]. rewrite Hd. simpl.
      apply forallb_forall. intros [k x] Hx.
      assert (Hx' : In x (map snd ((k0, j0) :: ms))).
      { apply Hin. apply in_map_iff. exists (k, x). auto. }
      simpl in Hx'. destruct Hx' as [<-|Hx'].
      - eapply parse_member_unique; [exact IHv|exact E0].
      - pose proof (IHm _ _ _ E1) as Hall. rewrite forallb_forall in Hall.
        apply in_map_iff in Hx'. destruct Hx' as ([k' x'] & <- & Hx'). exact (Hall _ Hx'). }
    destruct (starts_number (skip_ws s)); [|discriminate].
    destruct (parse_number (skip_ws s)) as [[z r']|e]; [|discriminate].
    intros [= <- <-]. reflexivity.
  - intros s js r. cbn [parse_elements].
    destruct (strip_prefix "]" (skip_ws s)); [intros [= <- <-]; reflexivity|].
    destruct (strip_prefix "," (skip_ws s)) as [r0|]; [|discriminate].
    destruct (parse_value n r0) as [[j0 r1]|e] eqn:E0; [|discriminate]. cbn [rbind].
    destruct (parse_elements n r1) as [[js' r2]|e] eqn:E1; [|discriminate]. cbn [rbind].
    intros [= <- <-]. simpl. rewrite (IHv _ _ _ E0), (IHe _ _ _ E1). reflexivity.
  - intros s ms r. cbn [parse_members].
    destruct (strip_prefix "}" (skip_ws s)); [intros [= <- <-]; reflexivity|].
    destruct (strip_prefix "," (skip_ws s)) as [r0|]; [|discriminate].
    destruct (parse_member (parse_value n) r0) as [[[k0 j0] r1]|e] eqn:E0; [|discriminate].
    cbn [rbind].
    destruct (parse_members n r1) as [[ms' r2]|e] eqn:E1; [|discriminate]. cbn [rbind].
    intros [= <- <-]. simpl.
    rewrite (parse_member_unique _ _ _ _ _ IHv E0), (IHm _ _ _ E1). reflexivity.
Qed.

Lemma parse_unique s j : parse s = Ok j -> unique_keys j = true.
Proof.
  unfold parse. destruct (parse_value _ s) as [[j' r]|e] eqn:E; [|discriminate].
  cbn [rbind]. destruct (String.eqb (skip_ws r) ""); [|discriminate].
  intros [= <-]. eapply parser_unique. exact E.
Qed.


(** *** A repeated key keeps its last value *)

Lemma assoc_fold_set_member {A} k (l : list (string * A)) :
  forall acc,
    assoc k (fold_left (fun acc kv => set_member (fst kv) (snd kv) acc) l acc)
    = match assoc k (rev l) with Some v => Some v | None => assoc k acc end.
Proof.
  induction l as [|[k0 v0] l IH]; intros acc; [reflexivity|].
  simpl. rewrite IH, assoc_app. destruct (assoc k (rev l)) as [v|]; [reflexivity|].
  simpl. destruct (String.eqb k0 k) eqn:E.
  - apply String.eqb_eq in E. subst k0. apply assoc_set_member_eq.
  - apply assoc_set_member_ne. intros ->. rewrite String.eqb_refl in E. discriminate.
Qed.

Lemma assoc_build_members {A} k (l : list (string * A)) :
  assoc k (build_members l) = assoc k (rev l).
Proof.
  unfold build_members. rewrite assoc_fold_set_member.
  destruct (assoc k (rev l)); reflexivity.
Qed.

Lemma parse_print_members l :
  forallb (fun kv => unique_keys (snd kv)) l = true ->
  forall n rest, (fold_right (fun kv n => S (size (snd kv) + n)) O l < n)%nat ->
  parse_members n (print_members_tail l ++ rest) = Ok (l, rest).
Proof.
  induction l as [|[k y] l IH]; intros Hu n rest Hn; (destruct n as [|n]; [lia|]);
    [reflexivity|].
  simpl in Hu, Hn. apply andb_true_iff in Hu. destruct Hu as [Hy Hl].
  cbn [print_members_tail append]. rewrite parse_members_comma, !append_assoc.
  cbn [append]. rewrite !append_assoc.
  rewrite parse_member_print
    by (apply parse_print_value; try apply ends_value_members; try exact Hy; lia).
  cbn [rbind]. rewrite IH by (try exact Hl; lia). reflexivity.
Qed.

(** The text of an object whose members repeat a key parses to the
    object built from these members in order. *)
Lemma parse_print_object members :
  forallb (fun kv => unique_keys (snd kv)) members = true ->
  parse (print (JObj members)) = Ok (JObj (build_members members)).
Proof.
  intros Hu. unfold parse. pose proof (size_le_length (JObj members)) as Hsize.
  destruct (S (String.length (print (JObj members)))) as [|n] eqn:En; [lia|].
  assert (Hn : (size (JObj members) <= n)%nat) by lia. clear En Hsize.
  destruct members as [|[k x] l]; [reflexivity|].
  rewrite print_object. rewrite parse_value_object.
  assert (Hq : strip_prefix "}"
                 (skip_ws (print_string k ++ String ":" (print x ++ print_members_tail l)))
               = None) by reflexivity.
  rewrite Hq. simpl in Hu, Hn. apply andb_true_iff in Hu. destruct Hu as [Hx Hl].
  rewrite <- (append_empty_r (print_members_tail l)).
  rewrite parse_member_print
    by (apply parse_print_value; try apply ends_value_members; try exact Hx; lia).
  cbn [rbind]. rewrite parse_print_members by (try exact Hl; lia). reflexivity.
Qed.

(** X3: what [JSON.parse] returns has no repeated key, in no object of
    it; so, whatever [globalReplace] returns, the tree that is handed
    to the redactor and copied onto the record names each field once.
    When [globalReplace] returns the text of an object whose members
    repeat a key, each key of the tree has the value of the last member
    of that name. *)
Theorem payload_has_no_repeated_key (redactConfig : option ExtendedRedactOptions) (h : heap)
    (logRecord : val) (j : json) :
  payload_tree redactConfig h logRecord = Ok j ->
  unique_keys j = true /\
  forall text members,
    JSON_stringify_new h (rest_of (own_props h logRecord)) = Ok text ->
    globalReplace_of redactConfig text = print (JObj members) ->
    forallb (fun kv => unique_keys (snd kv)) members = true ->
    exists kvs, j = JObj kvs /\ forall k, assoc k kvs = assoc k (rev members).
Proof.
  unfold payload_tree. intros Hj. split.
  - destruct (JSON_stringify_new h _) as [text|e]; [|discriminate]. cbn [rbind] in Hj.
    eapply parse_unique. exact Hj.
  - intros text members Ht Hg Hu. rewrite Ht in Hj. cbn [rbind] in Hj.
    rewrite Hg, (parse_print_object members Hu) in Hj. injection Hj as <-.
    eexists. split; [reflexivity|]. intros k. apply assoc_build_members.
Qed.

Lemma payload_has_no_repeated_key_witness :
  exists kvs,
    payload_tree (Some Samples.repeating) Samples.store (VRef Samples.record) = Ok (JObj kvs) /\
    distinct (map fst kvs) = true /\ assoc "a" kvs = Some (JNum 2).
Proof.
  assert (Hj : payload_tree (Some Samples.repeating) Samples.store (VRef Samples.record)
               = Ok (JObj [("a", JNum 2)])) by (vm_compute; reflexivity).
  destruct (payload_has_no_repeated_key (Some Samples.repeating) Samples.store
              (VRef Samples.record) _ Hj) as [Hu Hlast].
  destruct (Hlast _ [("a", JNum 1); ("a", JNum 2)] ltac:(vm_compute; reflexivity)
              ltac:(vm_compute; reflexivity) eq_refl) as (kvs & E & Hk).
  exists kvs. rewrite E in Hu. split; [rewrite <- E; exact Hj|]. split.
  - simpl in Hu. apply andb_true_iff in Hu. exact (proj1 Hu).
  - rewrite Hk. reflexivity.
Defined.

(** X4: [JSON.parse] inverts [JSON.stringify] on text: the text printed
    for a tree without repeated keys parses, and parses to that tree. *)
Theorem json_text_round_trip (j : json) :
  unique_keys j = true -> parse (print j) = Ok j.
Proof. intros Hu. apply parse_print. exact Hu. Qed.

Lemma json_text_round_trip_witness : parse (print Samples.record_tree) = Ok Samples.record_tree.
Proof. apply json_text_round_trip. reflexivity. Defined.

End ParseFacts.

(** ** Values at configured paths *)

Module CensorFacts.
Import Json Js JsonFacts ObjectFacts StoreFacts FastRedact ModelFacts Logging Vocabulary Shapes.
Import SerializerFacts MiddlewareFacts InterceptorFacts CopyFacts FailureFacts UnnamedFieldFacts ParseFacts.
Local Open Scope string_scope.
Local Open Scope list_scope.

(** *** Paths *)

Lemma resolve_app h v p q :
  resolve h v (p ++ q) = let* w := resolve h v p in resolve h w q.
Proof.
  revert v. induction p as [|k p IH]; intros v; simpl; [reflexivity|].
  destruct (get h v k) as [next|e]; [apply IH|reflexivity].
Qed.

Lemma chars_not_ref s i w l : chars s !! i = Some w -> w <> VRef l.
Proof.
  revert i. induction s as [|c s IH]; intros i; [destruct i; discriminate|].
  destruct i; simpl; [intros [= <-]; discriminate|apply IH].
Qed.

Lemma get_ref h v k y : get h v k = Ok (VRef y) -> exists l, v = VRef l.
Proof.
  destruct v; simpl; try discriminate; [|eauto].
  destruct (String.eqb k "length"); [discriminate|].
  destruct (index_of_key k) as [i|]; simpl; [|discriminate].
  destruct (chars s !! i) as [w|] eqn:E; simpl; [|discriminate].
  intros [= ->]. exfalso. eapply chars_not_ref; eauto.
Qed.

Lemma resolve_ref h v q x :
  resolve h v q = Ok (VRef x) -> q <> [] -> exists l, v = VRef l.
Proof.
  revert v. induction q as [|k q IH]; intros v Hr Hq; [congruence|].
  simpl in Hr. destruct (get h v k) as [next|e] eqn:Hg; [|discriminate]. cbn [rbind] in Hr.
  destruct q as [|k' q].
  - simpl in Hr. injection Hr as ->. eapply get_ref; eauto.
  - destruct (IH next Hr) as [l ->]; [discriminate|]. eapply get_ref; eauto.
Qed.

Lemma resolve_reach h v q x : resolve h v q = Ok (VRef x) -> reach h v x.
Proof.
  revert v. induction q as [|k q IH]; intros v Hr.
  - injection Hr as ->. constructor.
  - simpl in Hr. destruct (get h v k) as [next|e] eqn:Hg; [|discriminate]. cbn [rbind] in Hr.
    eapply get_reach; eauto.
Qed.

Lemma resolve_same_refs h2 H v q x :
  same_refs h2 H -> resolve H v q = Ok (VRef x) -> resolve h2 v q = Ok (VRef x).
Proof.
  intros Hs. revert v. induction q as [|k q IH]; intros v Hr; [exact Hr|].
  simpl in *. destruct (get H v k) as [next|e] eqn:Hg; [|discriminate]. cbn [rbind] in Hr.
  assert (Hnext : exists y, next = VRef y).
  { destruct q as [|k' q]; [simpl in Hr; injection Hr as ->; eauto|].
    eapply resolve_ref; [exact Hr|discriminate]. }
  destruct Hnext as [y ->]. destruct (get_ref _ _ _ _ Hg) as [l ->].
  rewrite (Hs _ _ _ Hg). cbn [rbind]. apply IH. exact Hr.
Qed.

Lemma same_refs_refl h : same_refs h h.
Proof. intros l k y H. exact H. Qed.

Lemma same_refs_trans h1 h2 h3 : same_refs h1 h2 -> same_refs h2 h3 -> same_refs h1 h3.
Proof. intros H12 H23 l k y H. apply H12, H23, H. Qed.

Lemma set_existing_same_refs H o k a : same_refs H (Model.set_existing H o k (of_atom a)).
Proof.
  intros l k' y. unfold Model.set_existing.
  destruct o as [| | | | | | |x]; try exact id.
  destruct (H !! x) as [[ps|es]|] eqn:E; try exact id.
  - destruct (has_key k ps); try exact id. simpl.
    destruct (decide (x = l)) as [->|Hne].
    + rewrite list_lookup_insert_eq by (eapply lookup_lt_Some; eauto). rewrite E.
      destruct (String.eqb k k') eqn:Ek.
      * apply String.eqb_eq in Ek. subst k'. rewrite assoc_set_member_eq. simpl.
        intros [= Hy]. exfalso. eapply of_atom_not_ref; eauto.
      * apply String.eqb_neq in Ek. rewrite assoc_set_member_ne by exact Ek. exact id.
    + rewrite list_lookup_insert_ne by exact Hne. exact id.
  - destruct (index_of_key k) as [i|]; try exact id. simpl.
    destruct (decide (x = l)) as [->|Hne].
    + rewrite list_lookup_insert_eq by (eapply lookup_lt_Some; eauto). rewrite E.
      destruct (String.eqb k' "length"); [discriminate|].
      destruct (index_of_key k') as [i'|]; simpl; [|exact id].
      destruct (decide (i = i')) as [->|Hi].
      * destruct (decide (i' < length es)%nat) as [Hlt|Hge].
        -- rewrite list_lookup_insert_eq by exact Hlt. simpl.
           intros [= Hy]. exfalso. eapply of_atom_not_ref; eauto.
        -- rewrite list_insert_ge by lia. exact id.
      * rewrite list_lookup_insert_ne by exact Hi. exact id.
    + rewrite list_lookup_insert_ne by exact Hne. exact id.
Qed.

Lemma redact_path_same_refs cens q : forall H v, same_refs H (Model.redact_path cens H v q).
Proof.
  induction q as [|k q IH]; intros H v; [apply same_refs_refl|].
  destruct q as [|k' q].
  - simpl. destruct (get H v k) as [cur|e]; [|apply same_refs_refl].
    destruct (nullish cur); [apply same_refs_refl|apply set_existing_same_refs].
  - change (Model.redact_path cens H v (k :: k' :: q))
      with (match get H v k with
            | Ok next => if truthy next then Model.redact_path cens H next (k' :: q) else H
            | Err _ => H
            end).
    destruct (get H v k) as [next|e]; [|apply same_refs_refl].
    destruct (truthy next); [apply IH|apply same_refs_refl].
Qed.

(** A compiled path writes at most one property. *)
Lemma redact_path_slot cens q :
  forall H v,
    Model.redact_path cens H v q = H \/
    exists q0 k x cur,
      q = q0 ++ [k] /\ resolve H v q0 = Ok (VRef x) /\
      Model.redact_path cens H v q = Model.set_existing H (VRef x) k (of_atom (cens cur)).
Proof.
  induction q as [|k q IH]; intros H v; [left; reflexivity|].
  destruct q as [|k' q].
  - simpl. destruct (get H v k) as [cur|e]; [|left; reflexivity].
    destruct (nullish cur); [left; reflexivity|].
    destruct v as [| | | | | | |x]; try (left; reflexivity).
    right. exists [], k, x, cur. auto.
  - change (Model.redact_path cens H v (k :: k' :: q))
      with (match get H v k with
            | Ok next => if truthy next then Model.redact_path cens H next (k' :: q) else H
            | Err _ => H
            end).
    destruct (get H v k) as [next|e] eqn:Hg; [|left; reflexivity].
    destruct (truthy next); [|left; reflexivity].
    destruct (IH H next) as [Hsame|(q0 & k0 & x & cur & Hq & Hres & Hrun)]; [left; exact Hsame|].
    right. exists (k :: q0), k0, x, cur. split; [simpl; congruence|]. split; [|exact Hrun].
    simpl. rewrite Hg. exact Hres.
Qed.

(** On a path through objects, the compiled path writes the last property. *)
Lemma redact_path_on_chain cens p :
  forall H v f,
    chain H v p f -> p <> [] ->
    exists q0 k l,
      p = q0 ++ [k] /\ resolve H v q0 = Ok (VRef l) /\
      Model.redact_path cens H v p
      = if nullish f then H else Model.set_existing H (VRef l) k (of_atom (cens f)).
Proof.
  induction p as [|k p IH]; intros H v f Hc Hp; [congruence|].
  destruct Hc as (l & ps & next & -> & Hl & Hk & Hc).
  assert (Hg : get H (VRef l) k = Ok next) by (simpl; rewrite Hl, Hk; reflexivity).
  destruct p as [|k' p].
  - simpl in Hc. subst next. exists [], k, l. split; [reflexivity|]. split; [reflexivity|].
    cbn [Model.redact_path]. rewrite Hg. reflexivity.
  - change (Model.redact_path cens H (VRef l) (k :: k' :: p))
      with (match get H (VRef l) k with
            | Ok next => if truthy next then Model.redact_path cens H next (k' :: p) else H
            | Err _ => H
            end).
    rewrite Hg. pose proof Hc as Hc'. destruct Hc' as (l' & _ & _ & -> & _).
    cbn [truthy].
    destruct (IH H (VRef l') f Hc) as (q0 & k0 & x & Hq & Hres & Hrun); [discriminate|].
    exists (k :: q0), k0, x. split; [simpl; congruence|]. split; [|exact Hrun].
    simpl. rewrite Hl, Hk. exact Hres.
Qed.

(** *** The objects of a built tree *)

Lemma assoc_aligned {A B} k (ps : list (string * A)) (ms : list (string * B)) :
  map fst ps = map fst ms ->
  match assoc k ms with
  | Some x => exists i v, assoc k ps = Some v /\ ps !! i = Some (k, v) /\ ms !! i = Some (k, x)
  | None => assoc k ps = None
  end.
Proof.
  revert ms. induction ps as [|[k' v] ps IH]; intros [|[k'' x] ms] Hk; try discriminate;
    [reflexivity|].
  simpl in Hk. injection Hk as <- Hk. simpl.
  destruct (String.eqb k' k) eqn:E.
  - apply String.eqb_eq in E. subst k'. exists 0%nat, v. auto.
  - specialize (IH ms Hk). destruct (assoc k ms) as [x'|]; [|exact IH].
    destruct IH as (i & v' & Hv & Hp & Hm). exists (S i), v'. auto.
Qed.

(** A built object: where it is, what its members are and where they lead. *)
Lemma object_built ms h0 more :
  exists c ps2,
    (alloc (JObj ms) h0).2 = VRef c /\
    ((alloc (JObj ms) h0).1 ++ more) !! c = Some (OObj ps2) /\
    map fst ps2 = map fst ms /\
    (forall k v x, assoc k ps2 = Some v ->
       reach ((alloc (JObj ms) h0).1 ++ more) v x -> (length h0 <= x < c)%nat) /\
    (forall k1 k2 v1 v2 x, assoc k1 ps2 = Some v1 -> assoc k2 ps2 = Some v2 -> k1 <> k2 ->
       reach ((alloc (JObj ms) h0).1 ++ more) v1 x ->
       reach ((alloc (JObj ms) h0).1 ++ more) v2 x -> False) /\
    (forall k jk, assoc k ms = Some jk ->
       exists h_i more',
         assoc k ps2 = Some (alloc jk h_i).2 /\
         (alloc (JObj ms) h0).1 ++ more = (alloc jk h_i).1 ++ more').
Proof.
  rewrite alloc_members_eq. destruct (alloc_members ms h0) as [h1 ps2] eqn:Hbuilt.
  unfold alloc_object. cbn [fst snd].
  pose proof (alloc_members_items ms h0) as Hi. rewrite Hbuilt in Hi. cbn [fst snd] in Hi.
  destruct Hi as (Hh1 & Hvs & Hkeys).
  assert (Hval : forall k v, assoc k ps2 = Some v ->
            exists i, ps2 !! i = Some (k, v) /\ (alloc_items (map snd ms) h0).2 !! i = Some v).
  { intros k v Hv. destruct (assoc_nth _ _ _ Hv) as [i Hp]. exists i. split; [exact Hp|].
    rewrite <- Hvs, list_lookup_fmap, Hp. reflexivity. }
  exists (length h1), ps2. split; [reflexivity|]. split.
  { rewrite <- app_assoc. cbn [app]. apply list_lookup_middle. reflexivity. }
  split; [exact Hkeys|]. split; [|split].
  - intros k v x Hv Hr. destruct (Hval _ _ Hv) as (i & _ & Hn).
    rewrite <- app_assoc in Hr. rewrite Hh1 in *.
    eapply alloc_items_region; eauto.
  - intros k1 k2 v1 v2 x H1 H2 Hne Hr1 Hr2.
    destruct (Hval _ _ H1) as (i1 & Hp1 & Hn1). destruct (Hval _ _ H2) as (i2 & Hp2 & Hn2).
    rewrite <- app_assoc in Hr1, Hr2. rewrite Hh1 in *.
    eapply (alloc_items_apart _ _ _ i1 i2); eauto. intros ->. congruence.
  - intros k jk Hk. pose proof (assoc_aligned k ps2 ms Hkeys) as Ha. rewrite Hk in Ha.
    destruct Ha as (i & v & Hv & Hp & Hm).
    assert (Hn : (alloc_items (map snd ms) h0).2 !! i = Some v).
    { rewrite <- Hvs, list_lookup_fmap, Hp. reflexivity. }
    destruct (alloc_items_nth _ _ _ _ Hn) as (j & h_i & m' & Hj & -> & Hh & _).
    rewrite list_lookup_fmap, Hm in Hj. injection Hj as <-.
    exists h_i, (m' ++ [OObj ps2] ++ more). split; [exact Hv|].
    rewrite Hh1, Hh. rewrite <- !app_assoc. reflexivity.
Qed.

(** The path of the tree is a path of the built store. *)
Lemma alloc_chain p :
  forall j h0 more jv,
    jresolve j p = Some jv ->
    exists hv, chain ((alloc j h0).1 ++ more) (alloc j h0).2 p (alloc jv hv).2.
Proof.
  induction p as [|k p IH]; intros j h0 more jv Hj.
  - injection Hj as <-. exists h0. reflexivity.
  - simpl in Hj. destruct j as [| | | | |ms]; try discriminate.
    destruct (assoc k ms) as [jk|] eqn:Hk; [|discriminate].
    destruct (object_built ms h0 more) as (c & ps2 & Hroot & Hc & _ & _ & _ & Hmem).
    destruct (Hmem _ _ Hk) as (h_i & more' & Hv & Hheap).
    destruct (IH jk h_i more' jv Hj) as [hv Hchain].
    exists hv. simpl. exists c, ps2, (alloc jk h_i).2. rewrite Hheap at 2. rewrite <- Hheap.
    repeat split; auto. rewrite Hheap. exact Hchain.
Qed.

Lemma alloc_not_nullish jv hv : jv <> JNull -> nullish (alloc jv hv).2 = false.
Proof.
  intros Hj. destruct jv as [| | | |items|ms]; try reflexivity; [congruence| |].
  - rewrite alloc_array. destruct (alloc_items items hv). reflexivity.
  - rewrite alloc_members_eq. destruct (alloc_members ms hv). reflexivity.
Qed.

(** In a built tree an object has one path only. *)
Lemma chain_unique q2 :
  forall j h0 more q1 x ms,
    jresolve j q2 = Some (JObj ms) ->
    resolve ((alloc j h0).1 ++ more) (alloc j h0).2 q1 = Ok (VRef x) ->
    resolve ((alloc j h0).1 ++ more) (alloc j h0).2 q2 = Ok (VRef x) ->
    q1 = q2.
Proof.
  induction q2 as [|k2 q2 IH]; intros j h0 more q1 x ms Hj H1 H2.
  - injection Hj as ->. destruct q1 as [|k1 q1]; [reflexivity|]. exfalso.
    destruct (object_built ms h0 more) as (c & ps2 & Hroot & Hc & _ & Hbelow & _).
    rewrite Hroot in H1, H2. cbn [resolve] in H1, H2. injection H2 as <-.
    cbn [get] in H1. rewrite Hc in H1. cbn [rbind] in H1.
    pose proof (resolve_reach _ _ _ _ H1) as Hr.
    destruct (reach_is_ref _ _ _ Hr) as [y Hy].
    destruct (assoc k1 ps2) as [v|] eqn:Hv; [|discriminate].
    pose proof (Hbelow _ _ _ Hv Hr). lia.
  - simpl in Hj. destruct j as [| | | | |ms2]; try discriminate.
    destruct (assoc k2 ms2) as [j2|] eqn:Hk2; [|discriminate].
    destruct (object_built ms2 h0 more) as (c & ps2 & Hroot & Hc & _ & Hbelow & Hapart & Hmem).
    destruct (Hmem _ _ Hk2) as (h_i & more' & Hv2 & Hheap).
    rewrite Hroot in H1, H2. cbn [resolve get] in H2. rewrite Hc, Hv2 in H2.
    cbn [rbind default from_option id] in H2.
    pose proof (resolve_reach _ _ _ _ H2) as Hr2.
    destruct q1 as [|k1 q1].
    + exfalso. injection H1 as <-. pose proof (Hbelow _ _ _ Hv2 Hr2). lia.
    + cbn [resolve get] in H1. rewrite Hc in H1. cbn [rbind] in H1.
      pose proof (resolve_reach _ _ _ _ H1) as Hr1.
      destruct (reach_is_ref _ _ _ Hr1) as [y Hy].
      destruct (assoc k1 ps2) as [v1|] eqn:Hv1; [|discriminate].
      cbn [default from_option id] in H1, Hr1.
      destruct (string_dec k1 k2) as [->|Hne].
      * f_equal. rewrite Hv2 in Hv1. injection Hv1 as <-.
        rewrite Hheap in H1, H2. eapply IH; eauto.
      * exfalso. eapply Hapart; [exact Hv1|exact Hv2|exact Hne|exact Hr1|exact Hr2].
Qed.

Lemma jresolve_prefix p_done :
  forall j k rest jv,
    jresolve j (p_done ++ k :: rest) = Some jv -> exists ms, jresolve j p_done = Some (JObj ms).
Proof.
  induction p_done as [|k0 p_done IH]; intros j k rest jv Hj; simpl in *.
  - destruct j; try discriminate. eauto.
  - destruct j as [| | | | |ms]; try discriminate.
    destruct (assoc k0 ms) as [x|]; [|discriminate]. eapply IH; eauto.
Qed.

Section censoring.
Variable cens : val -> atom.
Variable a : atom.
Hypothesis fixed : forall cur, cens cur = a.
Variables (j : json) (h0 : list object).
Variables (p : list string) (jv : json).
Hypothesis target : jresolve j p = Some jv.

Lemma one_path H q0 p_done k rest l :
  same_refs (alloc j h0).1 H -> p = p_done ++ k :: rest ->
  resolve H (alloc j h0).2 q0 = Ok (VRef l) ->
  resolve H (alloc j h0).2 p_done = Ok (VRef l) -> q0 = p_done.
Proof.
  intros Hs Hp H1 H2. rewrite Hp in target.
  destruct (jresolve_prefix _ _ _ _ _ target) as [ms Hms].
  apply (resolve_same_refs _ _ _ _ _ Hs) in H1, H2.
  rewrite <- (app_nil_r (alloc j h0).1) in H1, H2. eapply chain_unique; eauto.
Qed.

Lemma slot_update H x k a' q0 :
  same_refs (alloc j h0).1 H ->
  resolve H (alloc j h0).2 q0 = Ok (VRef x) ->
  ~ proper_prefix (q0 ++ [k]) p ->
  forall p_rest p_done v f,
    p = p_done ++ p_rest -> p_rest <> [] ->
    resolve H (alloc j h0).2 p_done = Ok v ->
    chain H v p_rest f ->
    chain (Model.set_existing H (VRef x) k (of_atom a')) v p_rest
      (if List.list_eq_dec string_dec (q0 ++ [k]) p then of_atom a' else f).
Proof.
  intros Hs Hx Hpre.
  destruct (set_existing_spec H (VRef x) k a') as (Hother & _ & _).
  induction p_rest as [|k1 p_rest IH]; intros p_done v f Hp Hne Hres Hc; [congruence|].
  destruct Hc as (l & ps & next & -> & Hl & Hk1 & Hc).
  assert (Hnext : resolve H (alloc j h0).2 (p_done ++ [k1]) = Ok next).
  { rewrite resolve_app, Hres. simpl. rewrite Hl, Hk1. reflexivity. }
  assert (Hp' : p = (p_done ++ [k1]) ++ p_rest) by (rewrite <- app_assoc; exact Hp).
  assert (Hslot : exists ps',
            Model.set_existing H (VRef x) k (of_atom a') !! l = Some (OObj ps') /\
            assoc k1 ps' = Some (if List.list_eq_dec string_dec (q0 ++ [k]) (p_done ++ [k1])
                                 then of_atom a' else next) /\
            (q0 ++ [k] = p_done ++ [k1] -> p_rest = [])).
  { destruct (decide (x = l)) as [->|Hxl].
    - pose proof (one_path _ _ _ _ _ _ Hs Hp Hx Hres) as ->.
      unfold Model.set_existing. rewrite Hl.
      destruct (string_dec k k1) as [->|Hk].
      + assert (Hhas : has_key k1 ps = true) by (apply has_key_assoc; eauto).
        rewrite Hhas, list_lookup_insert_eq by (eapply lookup_lt_Some; eauto).
        eexists. split; [reflexivity|]. rewrite assoc_set_member_eq.
        destruct (List.list_eq_dec string_dec (p_done ++ [k1]) (p_done ++ [k1])); [|congruence].
        split; [reflexivity|]. intros _. destruct p_rest as [|k2 p_rest]; [reflexivity|].
        exfalso. apply Hpre. exists (k2 :: p_rest). split; [discriminate|].
        rewrite <- app_assoc. exact Hp.
      + assert (Hdiff : p_done ++ [k] <> p_done ++ [k1]).
        { intros He. apply app_inv_head in He. congruence. }
        destruct (List.list_eq_dec string_dec (p_done ++ [k]) (p_done ++ [k1])); [congruence|].
        destruct (has_key k ps).
        * rewrite list_lookup_insert_eq by (eapply lookup_lt_Some; eauto).
          eexists. split; [reflexivity|]. rewrite assoc_set_member_ne by exact Hk.
          split; [exact Hk1|congruence].
        * eexists. split; [exact Hl|]. split; [exact Hk1|congruence].
    - rewrite Hother by congruence. exists ps. split; [exact Hl|].
      assert (Hdiff : q0 ++ [k] <> p_done ++ [k1]).
      { intros He. apply app_inj_tail in He. destruct He as [-> _]. congruence. }
      destruct (List.list_eq_dec string_dec (q0 ++ [k]) (p_done ++ [k1])); [congruence|].
      split; [exact Hk1|congruence]. }
  destruct Hslot as (ps' & Hl' & Hk1' & Hlast).
  destruct p_rest as [|k2 p_rest].
  - simpl in Hc. subst next. rewrite app_nil_r in Hp'. rewrite <- Hp' in Hk1'.
    exists l, ps'. eexists. split; [reflexivity|]. split; [exact Hl'|]. split; [exact Hk1'|].
    reflexivity.
  - destruct (List.list_eq_dec string_dec (q0 ++ [k]) (p_done ++ [k1])) as [He|He];
      [specialize (Hlast He); discriminate|].
    exists l, ps', next. split; [reflexivity|]. split; [exact Hl'|]. split; [exact Hk1'|].
    apply (IH (p_done ++ [k1])); [exact Hp'|discriminate|exact Hnext|exact Hc].
Qed.

Lemma censor_step q H f :
  same_refs (alloc j h0).1 H -> p <> [] ->
  chain H (alloc j h0).2 p f ->
  (nullish f = false \/ f = of_atom a) ->
  (q <> [] -> ~ proper_prefix q p) ->
  same_refs (alloc j h0).1 (Model.redact_path cens H (alloc j h0).2 q) /\
  chain (Model.redact_path cens H (alloc j h0).2 q) (alloc j h0).2 p
    (if List.list_eq_dec string_dec q p then of_atom a else f).
Proof.
  intros Hs Hp Hc Hf Hq.
  split; [eapply same_refs_trans; [exact Hs|apply redact_path_same_refs]|].
  destruct (List.list_eq_dec string_dec q p) as [->|Hne].
  - destruct (redact_path_on_chain cens p H _ f Hc Hp) as (q0 & k & l & Hpq & Hres & Hrun). rewrite Hrun.
    destruct (nullish f) eqn:Hn.
    + destruct Hf as [Hf| ->]; [discriminate|exact Hc].
    + rewrite fixed.
      pose proof (slot_update H l k a q0 Hs Hres) as Hup.
      rewrite <- Hpq in Hup.
      destruct (List.list_eq_dec string_dec p p); [|congruence].
      apply (Hup (Hq Hp) p [] _ f); auto.
  - destruct (redact_path_slot cens q H (alloc j h0).2)
      as [Hrun|(q0 & k & x & cur & Hqq & Hres & Hrun)]; rewrite Hrun; [exact Hc|].
    pose proof (slot_update H x k (cens cur) q0 Hs Hres) as Hup. rewrite <- Hqq in Hup.
    destruct (List.list_eq_dec string_dec q p); [congruence|].
    apply (Hup (Hq ltac:(rewrite Hqq; destruct q0; discriminate)) p [] _ f); auto.
Qed.

Lemma censor_fold qs :
  forall H f,
    same_refs (alloc j h0).1 H -> p <> [] ->
    chain H (alloc j h0).2 p f ->
    (nullish f = false \/ f = of_atom a) ->
    (f = of_atom a \/ In p qs) ->
    (forall q, In q qs -> q <> [] -> ~ proper_prefix q p) ->
    same_refs (alloc j h0).1
      (fold_left (fun h' q => Model.redact_path cens h' (alloc j h0).2 q) qs H) /\
    chain (fold_left (fun h' q => Model.redact_path cens h' (alloc j h0).2 q) qs H)
      (alloc j h0).2 p (of_atom a).
Proof.
  induction qs as [|q qs IH]; intros H f Hs Hp Hc Hf Hin Hqs.
  - destruct Hin as [-> |[]]. auto.
  - simpl. destruct (censor_step q H f Hs Hp Hc Hf (Hqs q (or_introl eq_refl))) as [Hs' Hc'].
    eapply IH; [exact Hs'|exact Hp|exact Hc'| | |].
    + destruct (List.list_eq_dec string_dec q p); auto.
    + destruct (List.list_eq_dec string_dec q p) as [->|Hne]; [auto|].
      destruct Hin as [-> |[-> |Hin]]; auto. congruence.
    + intros q' Hq'. apply Hqs. right. exact Hq'.
Qed.
End censoring.

Lemma payload_tree_steps cfg h r ps j :
  h !! r = Some (OObj ps) -> payload_tree cfg h (VRef r) = Ok j ->
  exists text, JSON_stringify_new h (rest_of ps) = Ok text /\
               parse (globalReplace_of cfg text) = Ok j.
Proof.
  intros Hr. unfold payload_tree, own_props. rewrite Hr.
  destruct (JSON_stringify_new h (rest_of ps)) as [text|e]; [|discriminate].
  cbn [rbind]. eauto.
Qed.

Lemma chain_after_assign h0 j H r o :
  (r < length h0)%nat -> same_refs (alloc j h0).1 H ->
  forall p_rest p_done v f,
    resolve H (alloc j h0).2 p_done = Ok v -> chain H v p_rest f ->
    resolve (<[r := o]> H) v p_rest = Ok f.
Proof.
  intros Hr Hs. induction p_rest as [|k p_rest IH]; intros p_done v f Hres Hc.
  - simpl in *. congruence.
  - destruct Hc as (l & ps & next & -> & Hl & Hk & Hc).
    assert (Hge : (length h0 <= l)%nat).
    { pose proof (resolve_same_refs _ _ _ _ _ Hs Hres) as H2.
      apply resolve_reach in H2. rewrite <- (app_nil_r (alloc j h0).1) in H2.
      apply alloc_region in H2. lia. }
    simpl. rewrite list_lookup_insert_ne by lia. rewrite Hl, Hk. simpl.
    apply (IH (p_done ++ [k])); [|exact Hc].
    rewrite resolve_app, Hres. simpl. rewrite Hl, Hk. reflexivity.
Qed.

Lemma configured_path_within (redactConfig : option ExtendedRedactOptions)
    (redact : redactor) (h : heap) (r : loc) (ps : list (string * val)) (j : json)
    (p : list string) (jv : json) (a : atom) :
  Model.fastRedact (redact_options redactConfig) = Ok redact ->
  h !! r = Some (OObj ps) ->
  payload_tree redactConfig h (VRef r) = Ok j ->
  In p (paths (redact_options redactConfig)) -> p <> [] -> head p <> Some "__proto__" ->
  (forall q, In q (paths (redact_options redactConfig)) -> q <> [] -> ~ proper_prefix q p) ->
  jresolve j p = Some jv -> jv <> JNull ->
  (forall cur, Model.censor_fn (redact_options redactConfig) cur = a) ->
  exists h',
    redact_record redact redactConfig h (VRef r) = Ok h' /\
    resolve h' (VRef r) p = Ok (of_atom a).
Proof.
  intros Hc Hr Htree Hin Hp Hhead Hpre Hj Hjv Hcens.
  destruct (payload_tree_steps _ _ _ _ _ Hr Htree) as (text & Ht & Hparse).
  pose proof (parse_unique _ _ Hparse) as Huniq.
  rewrite (redact_record_steps _ _ Hc _ _ _ Hr).
  unfold spec_payload. rewrite Ht. cbn [rbind]. unfold JSON_parse. rewrite Hparse. cbn [rbind].
  destruct p as [|k1 p']; [congruence|].
  assert (Hobj : exists ms, j = JObj ms).
  { simpl in Hj. destruct j; try discriminate. eauto. }
  destruct Hobj as [ms ->].
  destruct (object_built ms h []) as (c & ps2 & Hroot & _ & _ & _ & _ & _).
  destruct (alloc_chain (k1 :: p') (JObj ms) h [] jv Hj) as [hv Hchain].
  rewrite app_nil_r in Hchain.
  destruct (censor_fold _ a Hcens (JObj ms) h (k1 :: p') jv Hj
              (paths (redact_options redactConfig)) (alloc (JObj ms) h).1 _
              (same_refs_refl _) Hp Hchain (or_introl (alloc_not_nullish _ _ Hjv))
              (or_intror Hin) Hpre) as [Hs3 Hc3].
  pose proof (model_redact_fold (redact_options redactConfig) (alloc (JObj ms) h).1 c
                (redact_options_serialize _)) as Hrun.
  rewrite <- Hroot in Hrun. rewrite <- (model_compiled _ _ Hc) in Hrun.
  destruct (redact_copy_frame _ _ Hc _ _ _ _ Hrun) as [_ Hf].
  pose proof (redact_keys _ _ Hc _ _ _ _ Hrun) as Hkeys.
  destruct (alloc (JObj ms) h) as [h2 root] eqn:Ha. cbn [fst snd] in *.
  rewrite Hrun. cbn [rbind].
  set (h3 := fold_left _ _ h2) in *.
  eexists. split; [reflexivity|].
  assert (Hlt : (r < length h)%nat) by (eapply lookup_lt_Some; eauto).
  assert (Hlt3 : (r < length h3)%nat) by (eapply lookup_lt_Some; rewrite Hf; eauto).
  pose proof Hc3 as Hc3'. destruct Hc3' as (l & ps3 & next & Hl & Hl3 & Hk1 & Hrest).
  assert (Hown : own_props h3 root = ps3) by (rewrite Hl; unfold own_props; rewrite Hl3; reflexivity).
  rewrite Hown in *.
  cbn [resolve get]. rewrite list_lookup_insert_eq by exact Hlt3.
  assert (Hk1ne : k1 = "__proto__" -> has_key "__proto__" ps = true).
  { intros ->. exfalso. apply Hhead. reflexivity. }
  rewrite (assoc_assign_props_in k1 next ps (assignable ps ps3));
    [|apply distinct_filter; rewrite Hkeys
     |rewrite (assoc_assignable k1 ps ps3 Hk1ne); exact Hk1].
  - cbn [default from_option id rbind].
    pose proof (chain_after_assign h (JObj ms) h3 r
                  (OObj (assign_props ps (assignable ps ps3)))) as Hafter.
    rewrite Ha in Hafter. cbn [fst snd] in Hafter.
    apply (Hafter Hlt Hs3 p' [k1] next); [|exact Hrest].
    rewrite Hl. simpl. rewrite Hl3, Hk1. reflexivity.
  - rewrite (alloc_object_keys _ _ _ _ Ha). simpl in Huniq.
    apply andb_true_iff in Huniq. tauto.
Qed.

(** The first key of a path that stays within own properties is not
    [__proto__]. *)
Lemma plain_head R h o p :
  plain_paths R h o = true -> In p (paths o) -> head p <> Some "__proto__".
Proof.
  unfold plain_paths. rewrite forallb_forall. intros Hps Hin. specialize (Hps p Hin).
  destruct p as [|k p]; [discriminate|]. cbn [forallb] in Hps.
  apply andb_true_iff in Hps. destruct Hps as [Hk _]. intros [= ->].
  unfold plain_key, inherited in Hk. rewrite String.eqb_refl in Hk. discriminate.
Qed.


Lemma sample_tree :
  payload_tree (Some Samples.rules) Samples.realm_store (VRef Samples.record)
  = Ok Samples.record_tree.
Proof. reflexivity. Qed.


End CensorFacts.
